(** * MarkBind [Site]: incremental build orchestration

    A shallow embedding of the page-set resolution, staleness tracking and
    page generation scheduling of [packages/core/src/Site/index.js].

    Synchronous methods are pure functions on a [Site] record.  Asynchronous
    methods are transition systems: a state holds what the method has done up
    to the [await]s it is suspended at, and an [Event] of the environment (a
    promise settling, the wall clock advancing, [stopOngoingBuilds] being
    called) resumes it until the next [await]. *)

From stdpp Require Import base option list strings gmap sets sorting pretty.

(** ** JavaScript values and objects *)

(** The values page properties take in [site.json] and on [Page] objects. *)
Inductive Value :=
  | VUndefined
  | VNull
  | VBool (b : bool)
  | VStr (s : string)
  | VArr (l : list string)
  | VObj (fields : list (string * string)).

#[global] Instance Value_eq_dec : EqDecision Value.
Proof. solve_decision. Defined.

(** JavaScript truthiness, as used by [filter(page => page.glob)] and
    [page.headings]. *)
Definition truthy (v : Value) : bool :=
  match v with
  | VUndefined | VNull => false
  | VBool b => b
  | VStr s => negb (String.eqb s "")
  | VArr _ | VObj _ => true
  end.

(** [o.k], which is [undefined] for a property the object does not have. *)
Definition prop (o : gmap string Value) (k : string) : Value :=
  default VUndefined (o !! k).

(** [_.omitBy(o, _.isUndefined)] *)
Definition omitUndefined (o : gmap string Value) : gmap string Value :=
  filter (λ kv, kv.2 ≠ VUndefined) o.

(** [_.uniq]: the first occurrence of every element, in order. *)
Fixpoint uniq (l : list string) : list string :=
  match l with
  | [] => []
  | x :: l' => x :: filter (λ y, y ≠ x) (uniq l')
  end.

(** [Array.prototype.join] *)
Fixpoint join (sep : string) (l : list string) : string :=
  match l with
  | [] => ""
  | [x] => x
  | x :: l' => x +:+ sep +:+ join sep l'
  end.

(** [arr[i] = x] on a JavaScript array that may have holes: writing past
    the end extends the array with holes. *)
Definition arraySet {A} (i : nat) (x : A) (arr : list (option A)) : list (option A) :=
  if decide (i < length arr) then <[i := Some x]> arr
  else arr ++ replicate (i - length arr) None ++ [Some x].

(** [arr.findIndex(y => y === x)], [None] for [-1]. *)
Definition findIndex (x : string) (arr : list string) : option nat :=
  fst <$> list_find (λ y, y = x) arr.

(** ** Pages *)

(** The part of [PageConfig] that [Site] reads back. *)
Record PageConfig := mkPageConfig {
  src : string;
  sourcePath : string;
  searchable : bool;
}.

(** Modelled from the spec: the [Page] class is defined outside this file.
    A [Page] as [Site] sees it holds the [pageConfig] it was created with,
    which carries its identity, and the outcome of its last generation
    ([title], [headings], [keywords]; [headings] is [undefined] until the
    page's state has been set up). *)
Record Page := mkPage {
  pageConfig : PageConfig;
  title : string;
  headings : Value;
  keywords : Value;
}.

(** Modelled from the spec: [page.sourcePath], a member of the [Page] class,
    which is defined outside this file.  A page exposes one identity, its
    source; [createPage] hands the source path over inside [pageConfig] and
    nowhere else, so this is the path read back. *)
Definition page_sourcePath (page : Page) : string := sourcePath (pageConfig page).

(** ** Site configuration *)

(** The [src] of an entry of [pages] in [site.json]: one path or an array. *)
Inductive SrcField :=
  | SrcPath (s : string)
  | SrcPaths (l : list string).

(** An entry of [siteConfig.pages]: its [src], if any, and its other
    properties ([glob], [globExclude], [title], [layout], [frontmatter],
    [searchable], [externalScripts], ...). *)
Record PageSpec := mkPageSpec {
  spec_src : option SrcField;
  spec_props : gmap string Value;
}.

(** A page object whose [src] is a single path: what [pagesFromSrc],
    [pagesFromGlobs] and [addressablePages] hold. *)
Record PageEntry := mkPageEntry {
  entry_src : string;
  entry_props : gmap string Value;
}.

Record SiteConfig := mkSiteConfig {
  enableSearch : bool;
  config_pages : list PageSpec;
  pagesExclude : list string;
}.

(** ** The site *)

Record Site := mkSite {
  rootPath : string;
  pages : list Page;
  addressablePages : list PageEntry;
  forceReload : bool;
  siteConfig : SiteConfig;
  backgroundBuildMode : bool;
  stopGenerationTimeThreshold : nat;
  (** [None] when [onePagePath] is falsy: the site is not built lazily *)
  onePagePath : option string;
  currentPageViewed : string;
  currentOpenedPages : list string;
  toRebuild : gset string;
}.

Definition set_currentPageViewed (v : string) (s : Site) : Site :=
  mkSite (rootPath s) (pages s) (addressablePages s) (forceReload s) (siteConfig s)
    (backgroundBuildMode s) (stopGenerationTimeThreshold s) (onePagePath s)
    v (currentOpenedPages s) (toRebuild s).

Definition set_toRebuild (v : gset string) (s : Site) : Site :=
  mkSite (rootPath s) (pages s) (addressablePages s) (forceReload s) (siteConfig s)
    (backgroundBuildMode s) (stopGenerationTimeThreshold s) (onePagePath s)
    (currentPageViewed s) (currentOpenedPages s) v.

Definition set_stopGenerationTimeThreshold (v : nat) (s : Site) : Site :=
  mkSite (rootPath s) (pages s) (addressablePages s) (forceReload s) (siteConfig s)
    (backgroundBuildMode s) v (onePagePath s)
    (currentPageViewed s) (currentOpenedPages s) (toRebuild s).

(** ** Collaborators

    Functions and constants that [Site] imports: Node's [path], [FsUtil],
    [walk-sync], the [Page] methods and [./constants]. *)
Class Collaborators := {
  (** [path.join(a, b)] *)
  path_join : string → string → string;
  (** [path.resolve(a, b)] *)
  path_resolve : string → string → string;
  (** [FsUtil.removeExtension] *)
  removeExtension : string → string;
  (** [page.isDependency(filePath)] *)
  isDependency : Page → string → bool;
  (** [walkSync(rootPath, { directories: false, globs, ignore })] for the
      [glob] and [globExclude] of a page entry and the site's [pagesExclude] *)
  walkSync : string → PageSpec → list string → list string;
  MAX_CONCURRENT_PAGE_GENERATION_PROMISES : nat;
  USER_VARIABLES_PATH : string;
}.

Section Definitions.
Context `{!Collaborators}.

(** [FsUtil.removeExtension(page.pageConfig.sourcePath)]: the key under which
    a page is recorded in [toRebuild] and [currentOpenedPages]. *)
Definition normalizedSource (page : Page) : string :=
  removeExtension (sourcePath (pageConfig page)).

(** ** [changeCurrentPage] *)

(** Calls a method makes on other (debounced or external) operations. *)
Inductive Call :=
  | CallBeforeSiteGenerate
  | CallRebuildPageBeingViewed (normalizedUrl : string).

Definition changeCurrentPage (normalizedUrl : string) (s : Site)
  : Site * bool * list Call :=
  let s1 := set_currentPageViewed (path_join (rootPath s) normalizedUrl) s in
  if bool_decide (currentPageViewed s1 ∈ toRebuild s1)
  then (s1, true,
        [CallBeforeSiteGenerate; CallRebuildPageBeingViewed (currentPageViewed s1)])
  else (s1, false, []).

(** ** [collectAddressablePages] *)

Definition getPageGlobPaths (s : Site) (page : PageSpec) (pagesExclude : list string)
  : list string :=
  walkSync (rootPath s) page pagesExclude.

(** [page => page.src] as a filter: a non-empty string or any array. *)
Definition hasSrc (page : PageSpec) : bool :=
  match spec_src page with
  | None => false
  | Some (SrcPath p) => negb (String.eqb p "")
  | Some (SrcPaths _) => true
  end.

(** [Array.isArray(page.src) ? page.src.map(pageSrc => ({ ...page, src: pageSrc })) : [page]] *)
Definition splitSrc (page : PageSpec) : list PageEntry :=
  match spec_src page with
  | None => []
  | Some (SrcPath p) => [mkPageEntry p (spec_props page)]
  | Some (SrcPaths l) => (λ pageSrc, mkPageEntry pageSrc (spec_props page)) <$> l
  end.

Definition pagesFromSrc (cfg : SiteConfig) : list PageEntry :=
  filter (λ page, hasSrc page = true) (config_pages cfg) ≫= splitSrc.

(** [.filter(page => set.size === set.add(page.src).size)]: the entries whose
    [src] an earlier entry already put into [set]. *)
Fixpoint duplicatePages (set : gset string) (l : list PageEntry) : list PageEntry :=
  match l with
  | [] => []
  | page :: l' =>
      if decide (entry_src page ∈ set)
      then page :: duplicatePages set l'
      else duplicatePages ({[entry_src page]} ∪ set) l'
  end.

Definition pagesFromGlobs (s : Site) (cfg : SiteConfig) : list PageEntry :=
  filter (λ page, truthy (prop (spec_props page) "glob") = true) (config_pages cfg)
  ≫= (λ page,
        (λ filePath,
           mkPageEntry filePath
             (<["searchable" := prop (spec_props page) "searchable"]>
                (<["layout" := prop (spec_props page) "layout"]>
                   (<["frontmatter" := prop (spec_props page) "frontmatter"]> ∅))))
        <$> getPageGlobPaths s page (pagesExclude cfg)).

(** *** The plain object [filteredPages]

    [filteredPages] is an object literal used as a map from [page.src] to the
    merged page.  What it keeps is not what an association list would keep:
    an assignment to the key [__proto__] replaces the prototype instead of
    creating a property, a key found on the prototype chain counts as
    present, and [Object.values] lists the keys that are array indices first.
    A string is taken as the sequence of its code units, one per character. *)

Definition digitValue (c : Ascii.ascii) : option N :=
  let n := Ascii.N_of_ascii c in
  if decide (48 ≤ n ≤ 57)%N then Some (n - 48)%N else None.

Fixpoint parseDigits (acc : N) (s : string) : option N :=
  match s with
  | EmptyString => Some acc
  | String c s' => digitValue c ≫= λ d, parseDigits (10 * acc + d)%N s'
  end.

(** A key that is an array index: the decimal numeral, without leading
    zeros, of an integer below [2^32 - 1]. *)
Definition arrayIndex (key : string) : option N :=
  match key with
  | EmptyString => None
  | String c rest =>
      if decide (Ascii.N_of_ascii c = 48%N ∧ rest ≠ EmptyString) then None
      else parseDigits 0 key ≫= λ n, if decide (n < 4294967295)%N then Some n else None
  end.

(** The properties [0], [1], ... that the spread of a string or of an array
    gives. *)
Definition indexedProperties (l : list Value) : gmap string Value :=
  list_to_map (imap (λ i v, (pretty i, v)) l).

(** [{ ...v }]: the own enumerable properties of a value; a function, a
    boolean, [null] and [undefined] have none. *)
Definition spread (v : Value) : gmap string Value :=
  match v with
  | VStr s =>
      indexedProperties
        ((λ c, VStr (String c EmptyString)) <$> String.list_ascii_of_string s)
  | VArr l => indexedProperties (VStr <$> l)
  | VObj fields => foldl (λ o kv, <[kv.1 := VStr kv.2]> o) ∅ fields
  | VUndefined | VNull | VBool _ => ∅
  end.

Record FilteredPages := mkFilteredPages {
  (** the own properties, in the order in which they were created; a page
      is the value of the key that is its [src] *)
  fp_own : list PageEntry;
  (** the page that an assignment to [__proto__] has made the prototype;
      [None] while the prototype is [Object.prototype] *)
  fp_prototype : option PageEntry;
}.

(** [page[k]] for an own property [k] of a page object. *)
Definition pageProperty (page : PageEntry) (k : string) : option Value :=
  if decide (k = "src") then Some (VStr (entry_src page)) else entry_props page !! k.

(** The property [key] of the page that is the prototype, if it has one. *)
Definition prototypeProperty (o : FilteredPages) (key : string) : option Value :=
  fp_prototype o ≫= λ prototype, pageProperty prototype key.

(** What [{ ...filteredPages[key] }] holds for a [key] that is not an own
    property: the spread of the value the prototype gives to [key]; for
    [__proto__], whose getter on [Object.prototype] returns the prototype,
    the properties of the page that is the prototype; and nothing for a
    method of [Object.prototype], for which [in] holds as well, nor for
    a key that is not found, for which the page is stored as it is. *)
Definition inheritedProperties (o : FilteredPages) (key : string) : gmap string Value :=
  match prototypeProperty o key with
  | Some v => spread v
  | None =>
      if decide (key = "__proto__")
      then from_option entry_props ∅ (fp_prototype o)
      else ∅
  end.

(** [filteredPages[page.src] = { ...filteredPages[page.src], ...filteredPage }]
    for an own property, which keeps its place. *)
Fixpoint mergeOwn (filteredPage : PageEntry) (own : list PageEntry) : list PageEntry :=
  match own with
  | [] => []
  | old :: rest =>
      if decide (entry_src old = entry_src filteredPage)
      then mkPageEntry (entry_src filteredPage)
             (entry_props filteredPage ∪ entry_props old) :: rest
      else old :: mergeOwn filteredPage rest
  end.

(** One round of the [forEach] that fills [filteredPages].  The assignment to
    a key that is not an own property creates one, at the end, unless the
    key is [__proto__] and is found on [Object.prototype] only: the setter
    there makes the assigned page the prototype. *)
Definition putFilteredPage (filteredPage : PageEntry) (o : FilteredPages) : FilteredPages :=
  let key := entry_src filteredPage in
  if decide (key ∈ entry_src <$> fp_own o)
  then mkFilteredPages (mergeOwn filteredPage (fp_own o)) (fp_prototype o)
  else
    let merged :=
      mkPageEntry key
        (entry_props filteredPage ∪ delete "src" (inheritedProperties o key)) in
    if decide (key = "__proto__" ∧ prototypeProperty o key = None)
    then mkFilteredPages (fp_own o) (Some merged)
    else mkFilteredPages (fp_own o ++ [merged]) (fp_prototype o).

(** [filteredPages] after the [forEach] over [l]. *)
Definition filteredPagesOf (l : list PageEntry) : FilteredPages :=
  foldl (λ filteredPages page,
           putFilteredPage (mkPageEntry (entry_src page) (omitUndefined (entry_props page)))
             filteredPages)
        (mkFilteredPages [] None) l.

Definition indexLe (x y : N * PageEntry) : Prop := (x.1 ≤ y.1)%N.

#[global] Instance indexLe_dec (x y : N * PageEntry) : Decision (indexLe x y).
Proof. unfold indexLe. apply _. Defined.

(** [Object.values(filteredPages)]: the own properties whose key is an array
    index, in ascending order of the index, then the others in the order in
    which they were created. *)
Definition objectValues (o : FilteredPages) : list PageEntry :=
  let indexed :=
    omap (λ page, (λ n, (n, page)) <$> arrayIndex (entry_src page)) (fp_own o) in
  (snd <$> merge_sort indexLe indexed)
  ++ filter (λ page, arrayIndex (entry_src page) = None) (fp_own o).

Definition mergePages (l : list PageEntry) : list PageEntry :=
  objectValues (filteredPagesOf l).

Definition duplicateMessage (duplicates : list PageEntry) : string :=
  "Duplicate page entries found in site config: "
  +:+ join ", " (uniq (entry_src <$> duplicates)).

(** The new value of [addressablePages], or the message of the error thrown. *)
Definition collectAddressablePages (s : Site) : string + list PageEntry :=
  let cfg := siteConfig s in
  let duplicates := duplicatePages ∅ (pagesFromSrc cfg) in
  if decide (0 < length duplicates)
  then inl (duplicateMessage duplicates)
  else inr (mergePages (pagesFromGlobs s cfg ++ pagesFromSrc cfg)).

(** The merge rule in the words of the comment in [collectAddressablePages]:
    page properties from later entries take priority over earlier ones.
    [laterWins key f l] is the value of property [f] that the entries of [l]
    with [src] equal to [key] give, the last one that is not [undefined]. *)
Definition laterWinsStep (key f : string) (earlier : option Value) (page : PageEntry)
  : option Value :=
  if decide (entry_src page = key) then
    match entry_props page !! f with
    | Some v => if decide (v = VUndefined) then earlier else Some v
    | None => earlier
    end
  else earlier.

Definition laterWins (key f : string) (l : list PageEntry) : option Value :=
  foldl (laterWinsStep key f) None l.

(** An entry for the path [__proto__] that has a property [__proto__] of its
    own is the last entry for that path; so it is when the entries found by
    globs come first and no two explicit entries have the same [src]. *)
Definition protoSafe (l : list PageEntry) : Prop :=
  ∀ before page after,
    l = before ++ page :: after → entry_src page = "__proto__" →
    is_Some (entry_props page !! "__proto__") →
    ∀ later, later ∈ after → entry_src later ≠ "__proto__".

(** ** [writeSiteData] *)

Record SiteDataPage := mkSiteDataPage {
  sd_src : string;
  sd_title : string;
  sd_headings : Value;
  sd_headingKeywords : Value;
}.

Record SiteData := mkSiteData {
  sd_enableSearch : bool;
  sd_pages : list SiteDataPage;
}.

Definition siteDataPage (page : Page) : SiteDataPage :=
  mkSiteDataPage (src (pageConfig page)) (title page) (headings page) (keywords page).

(** The object [writeSiteData] passes to [fs.outputJson]. *)
Definition siteData (s : Site) : SiteData :=
  mkSiteData (enableSearch (siteConfig s))
    (siteDataPage <$>
       filter (λ page, searchable (pageConfig page) && truthy (headings page) = true)
              (pages s)).

(** ** [regenerateAffectedPages]: which pages are affected *)

Definition collectUserDefinedVariablesMapIfNeeded (filePaths : list string) (s : Site)
  : bool :=
  bool_decide (path_resolve (rootPath s) USER_VARIABLES_PATH ∈ filePaths).

Definition shouldRebuildAllPages (filePaths : list string) (s : Site) : bool :=
  collectUserDefinedVariablesMapIfNeeded filePaths s || forceReload s.

(** What the [filter] callback over [this.pages] has built up:
    [toRebuild], [openedPagesToRegenerate] and the pages it kept. *)
Record Affected := mkAffected {
  aff_toRebuild : gset string;
  openedPagesToRegenerate : list (option Page);
  asyncPagesToRegenerate : list Page;
}.

Definition affectedStep (filePaths : list string) (s : Site) (acc : Affected) (page : Page)
  : Affected :=
  let doFilePathsHaveSourceFiles := existsb (isDependency page) filePaths in
  if shouldRebuildAllPages filePaths s || doFilePathsHaveSourceFiles then
    match onePagePath s with
    | Some _ =>
        match findIndex (normalizedSource page) (currentOpenedPages s) with
        | None =>
            mkAffected ({[normalizedSource page]} ∪ aff_toRebuild acc)
              (openedPagesToRegenerate acc) (asyncPagesToRegenerate acc)
        | Some openIdx =>
            mkAffected (aff_toRebuild acc)
              (arraySet openIdx page (openedPagesToRegenerate acc))
              (asyncPagesToRegenerate acc)
        end
    | None =>
        mkAffected (aff_toRebuild acc) (openedPagesToRegenerate acc)
          (asyncPagesToRegenerate acc ++ [page])
    end
  else acc.

Definition affectedPages (filePaths : list string) (s : Site) : Affected :=
  foldl (affectedStep filePaths s) (mkAffected (toRebuild s) [] []) (pages s).

(** [openedPagesToRegenerate.filter(page => page)] *)
Definition definedPages (arr : list (option Page)) : list Page := omap id arr.

(** The test of the [filter] callback. *)
Definition isAffected (filePaths : list string) (s : Site) (page : Page) : bool :=
  shouldRebuildAllPages filePaths s || existsb (isDependency page) filePaths.

(** What [affectedPages] has built up after the pages [done] when the site
    is built lazily. *)
Definition lazyAffectedInv (filePaths : list string) (s : Site) (done : list Page)
    (acc : Affected) : Prop :=
  asyncPagesToRegenerate acc = []
  ∧ (∀ key, key ∈ aff_toRebuild acc
       ↔ key ∈ toRebuild s
         ∨ (∃ page, page ∈ done ∧ isAffected filePaths s page = true
                    ∧ (normalizedSource page ∉ currentOpenedPages s)
                    ∧ normalizedSource page = key))
  ∧ (∀ i q, openedPagesToRegenerate acc !! i = Some (Some q) →
       q ∈ done ∧ isAffected filePaths s q = true
       ∧ findIndex (normalizedSource q) (currentOpenedPages s) = Some i)
  ∧ (∀ page i, page ∈ done → isAffected filePaths s page = true →
       findIndex (normalizedSource page) (currentOpenedPages s) = Some i →
       ∃ q, openedPagesToRegenerate acc !! i = Some (Some q)).

(** ** The world of the asynchronous methods

    Besides the [Site] object, the wall clock that [new Date()] reads and, as
    a ghost, the [trace] of the calls made so far, newest first. *)

Inductive Action :=
  (** [page.generate(this.externalManager)] is called *)
  | ActGenerate (page : Page)
  (** the promise of that call resolves *)
  | ActGenerated (page : Page)
  (** the promise of that call rejects *)
  | ActGenerateFailed (page : Page)
  (** [this.toRebuild.delete(key)] *)
  | ActDelete (key : string).

Record World := mkWorld {
  site : Site;
  clock : nat;
  trace : list Action;
}.

Definition act (a : Action) (w : World) : World :=
  mkWorld (site w) (clock w) (a :: trace w).

(** [this.toRebuild.delete(key)] *)
Definition toRebuild_delete (key : string) (w : World) : World :=
  mkWorld (set_toRebuild (toRebuild (site w) ∖ {[key]}) (site w)) (clock w)
    (ActDelete key :: trace w).

Definition advanceClock (d : nat) (w : World) : World :=
  mkWorld (site w) (clock w + d) (trace w).

Definition stopOngoingBuilds (w : World) : World :=
  mkWorld (set_stopGenerationTimeThreshold (clock w) (site w)) (clock w) (trace w).

(** [this.backgroundBuildMode && startTime < this.stopGenerationTimeThreshold] *)
Definition stopRequested (startTime : nat) (w : World) : bool :=
  backgroundBuildMode (site w) && (startTime <? stopGenerationTimeThreshold (site w)).

(** What the environment does while the methods are suspended. *)
Inductive Event :=
  (** the wall clock advances by [d] milliseconds *)
  | EvClock (d : nat)
  (** somebody calls [stopOngoingBuilds()] *)
  | EvStopOngoingBuilds
  (** the [page.generate] call of the [i]-th suspended callback resolves *)
  | EvGenerated (i : nat)
  (** that call rejects *)
  | EvGenerateFailed (i : nat)
  (** the [writeSiteData] call of the [i]-th suspended callback resolves
      ([writeSiteData] catches its own errors) *)
  | EvSiteDataWritten (i : nat).

(** The [await] a callback is suspended at. *)
Inductive Await :=
  | AwaitGenerate
  | AwaitWriteSiteData.

(** A settled promise: [resolve(b)] or [reject(new Error(msg))]; for an
    [async] method, [return b] or [throw new Error(msg)]. *)
Inductive Settled :=
  | Resolved (b : bool)
  | Rejected (msg : string).

#[global] Instance Settled_eq_dec : EqDecision Settled.
Proof. solve_decision. Defined.

(** [resolve] and [reject] only settle a pending promise. *)
Definition settle (r : Settled) (promise : option Settled) : option Settled :=
  match promise with
  | None => Some r
  | Some _ => promise
  end.

Definition generationError (page : Page) : string :=
  "Error while generating " +:+ page_sourcePath page.

(** ** [generatePagesAsyncThrottled] and [generateProgressBarStatus] *)

(** The closure of the promise executor: the fields of [context], the queue
    of callbacks not yet called, the callbacks suspended at an [await], and
    the promise returned. *)
Record Pool := mkPool {
  startTime : nat;
  numPagesGenerated : nat;
  numPagesToGenerate : nat;
  isCompleted : bool;
  pageGenerationQueue : list Page;
  inFlight : list (Page * Await);
  promise : option Settled;
}.

(** The body of the two guards:
    [if (context.isCompleted) { context.isCompleted = false; resolve(false); }] *)
Definition stopPool (pl : Pool) : Pool :=
  if isCompleted pl
  then mkPool (startTime pl) (numPagesGenerated pl) (numPagesToGenerate pl) false
         (pageGenerationQueue pl) (inFlight pl) (settle (Resolved false) (promise pl))
  else pl.

(** Calling the callback of [page]: it runs up to [await page.generate(..)]. *)
Definition callGeneratePage (page : Page) (st : World * Pool) : World * Pool :=
  let (w, pl) := st in
  if stopRequested (startTime pl) w then (w, stopPool pl)
  else (act (ActGenerate page) w,
        mkPool (startTime pl) (numPagesGenerated pl) (numPagesToGenerate pl)
          (isCompleted pl) (pageGenerationQueue pl)
          (inFlight pl ++ [(page, AwaitGenerate)]) (promise pl)).

Definition generateProgressBarStatus (st : World * Pool) : World * Pool :=
  let (w, pl) := st in
  if stopRequested (startTime pl) w then (w, stopPool pl)
  else
    let generated := numPagesGenerated pl + 1 in
    match last (pageGenerationQueue pl) with
    | Some page =>
        callGeneratePage page
          (w, mkPool (startTime pl) generated (numPagesToGenerate pl) (isCompleted pl)
                (removelast (pageGenerationQueue pl)) (inFlight pl) (promise pl))
    | None =>
        (w, mkPool (startTime pl) generated (numPagesToGenerate pl) (isCompleted pl)
              (pageGenerationQueue pl) (inFlight pl)
              (if decide (generated = numPagesToGenerate pl)
               then settle (Resolved true) (promise pl)
               else promise pl))
    end.

(** The executor: it calls the first callbacks and returns. *)
Definition generatePagesAsyncThrottled (pages : list Page) (w : World) : World * Pool :=
  foldl (λ st page, callGeneratePage page st)
    (w, mkPool (clock w) 0 (length pages) true
          (drop MAX_CONCURRENT_PAGE_GENERATION_PROMISES pages) [] None)
    (take MAX_CONCURRENT_PAGE_GENERATION_PROMISES pages).

Definition setInFlight (l : list (Page * Await)) (pl : Pool) : Pool :=
  mkPool (startTime pl) (numPagesGenerated pl) (numPagesToGenerate pl) (isCompleted pl)
    (pageGenerationQueue pl) l (promise pl).

(** An event resumes the callback it is for, up to its next [await] or its
    end; the clock and [stopOngoingBuilds] only change the world. *)
Definition poolStep (st : World * Pool) (e : Event) : World * Pool :=
  let (w, pl) := st in
  match e with
  | EvClock d => (advanceClock d w, pl)
  | EvStopOngoingBuilds => (stopOngoingBuilds w, pl)
  | EvGenerated i =>
      match inFlight pl !! i with
      | Some (page, AwaitGenerate) =>
          let w1 := toRebuild_delete (normalizedSource page) (act (ActGenerated page) w) in
          if backgroundBuildMode (site w)
          then (w1, setInFlight (<[i := (page, AwaitWriteSiteData)]> (inFlight pl)) pl)
          else generateProgressBarStatus (w1, setInFlight (delete i (inFlight pl)) pl)
      | _ => st
      end
  | EvGenerateFailed i =>
      match inFlight pl !! i with
      | Some (page, AwaitGenerate) =>
          (act (ActGenerateFailed page) w,
           mkPool (startTime pl) (numPagesGenerated pl) (numPagesToGenerate pl)
             (isCompleted pl) (pageGenerationQueue pl) (delete i (inFlight pl))
             (settle (Rejected (generationError page)) (promise pl)))
      | _ => st
      end
  | EvSiteDataWritten i =>
      match inFlight pl !! i with
      | Some (page, AwaitWriteSiteData) =>
          generateProgressBarStatus (w, setInFlight (delete i (inFlight pl)) pl)
      | _ => st
      end
  end.

(** ** [generatePagesSequential] *)

(** Modelled from the spec: [utils.sequentialAsyncForEach] is defined outside
    this file; it awaits the callback on each element in turn, so pages run
    one at a time, in order, and an error thrown by a callback ends the loop. *)
Inductive SeqPc :=
  (** suspended in the callback of [page] *)
  | SeqAwait (page : Page) (a : Await)
  (** the method has returned or thrown *)
  | SeqSettled (r : Settled).

Record SeqTask := mkSeqTask {
  seq_startTime : nat;
  seq_isCompleted : bool;
  (** the pages [sequentialAsyncForEach] has not reached yet *)
  seq_remaining : list Page;
  seq_pc : SeqPc;
}.

(** [sequentialAsyncForEach] from [pages] on, up to the next [await]. *)
Fixpoint sequentialFrom (start : nat) (pages : list Page) (completed : bool) (w : World)
  : World * SeqTask :=
  match pages with
  | [] => (w, mkSeqTask start completed [] (SeqSettled (Resolved completed)))
  | page :: rest =>
      if stopRequested start w then sequentialFrom start rest false w
      else (act (ActGenerate page) w,
            mkSeqTask start completed rest (SeqAwait page AwaitGenerate))
  end.

Definition generatePagesSequential (pages : list Page) (w : World) : World * SeqTask :=
  sequentialFrom (clock w) pages true w.

Definition seqStep (st : World * SeqTask) (e : Event) : World * SeqTask :=
  let (w, t) := st in
  match e with
  | EvClock d => (advanceClock d w, t)
  | EvStopOngoingBuilds => (stopOngoingBuilds w, t)
  | EvGenerated 0 =>
      match seq_pc t with
      | SeqAwait page AwaitGenerate =>
          let w1 := toRebuild_delete (normalizedSource page) (act (ActGenerated page) w) in
          if backgroundBuildMode (site w)
          then (w1, mkSeqTask (seq_startTime t) (seq_isCompleted t) (seq_remaining t)
                      (SeqAwait page AwaitWriteSiteData))
          else sequentialFrom (seq_startTime t) (seq_remaining t) (seq_isCompleted t) w1
      | _ => st
      end
  | EvGenerateFailed 0 =>
      match seq_pc t with
      | SeqAwait page AwaitGenerate =>
          (act (ActGenerateFailed page) w,
           mkSeqTask (seq_startTime t) (seq_isCompleted t) (seq_remaining t)
             (SeqSettled (Rejected (generationError page))))
      | _ => st
      end
  | EvSiteDataWritten 0 =>
      match seq_pc t with
      | SeqAwait page AwaitWriteSiteData =>
          sequentialFrom (seq_startTime t) (seq_remaining t) (seq_isCompleted t) w
      | _ => st
      end
  | _ => st
  end.

(** ** [runPageGenerationTasks] *)

Inductive TaskMode :=
  | Sequential
  (** any [mode] other than ['sequential'] *)
  | Async.

Record Task := mkTask {
  mode : TaskMode;
  task_pages : list Page;
}.

(** What became of a task (ghost): not started because of the guard of
    [runPageGenerationTasks], or run, with the boolean it resolved to. *)
Inductive TaskStatus :=
  | NotStarted
  | Ran (completed : bool).

Inductive RunPc :=
  | RunSequential (t : SeqTask)
  | RunAsync (pl : Pool)
  | RunSettled (r : Settled).

Record Run := mkRun {
  run_startTime : nat;
  run_isCompleted : bool;
  (** the tasks [sequentialAsyncForEach] has not reached yet *)
  run_remaining : list Task;
  run_pc : RunPc;
  (** ghost: the status of the tasks reached so far, oldest first *)
  run_statuses : list TaskStatus;
}.

(** [sequentialAsyncForEach] from [tasks] on, up to the next [await] that
    does not settle at once.  Callbacks of a concurrent task that are still
    suspended when its promise settles go on in the background; they are no
    longer followed here. *)
Fixpoint runFrom (start : nat) (tasks : list Task) (completed : bool)
    (statuses : list TaskStatus) (w : World) : World * Run :=
  match tasks with
  | [] => (w, mkRun start completed [] (RunSettled (Resolved completed)) statuses)
  | task :: rest =>
      if stopRequested start w
      then runFrom start rest false (statuses ++ [NotStarted]) w
      else
        match mode task with
        | Sequential =>
            let (w1, t) := generatePagesSequential (task_pages task) w in
            match seq_pc t with
            | SeqSettled (Resolved b) => runFrom start rest b (statuses ++ [Ran b]) w1
            | SeqSettled (Rejected msg) =>
                (w1, mkRun start completed rest (RunSettled (Rejected msg)) statuses)
            | SeqAwait _ _ => (w1, mkRun start completed rest (RunSequential t) statuses)
            end
        | Async =>
            let (w1, pl) := generatePagesAsyncThrottled (task_pages task) w in
            match promise pl with
            | Some (Resolved b) => runFrom start rest b (statuses ++ [Ran b]) w1
            | Some (Rejected msg) =>
                (w1, mkRun start completed rest (RunSettled (Rejected msg)) statuses)
            | None => (w1, mkRun start completed rest (RunAsync pl) statuses)
            end
        end
  end.

Definition runPageGenerationTasks (pageGenerationTasks : list Task) (w : World)
  : World * Run :=
  runFrom (clock w) pageGenerationTasks true [] w.

Definition runStep (st : World * Run) (e : Event) : World * Run :=
  let (w, r) := st in
  match run_pc r with
  | RunSequential t =>
      let (w1, t1) := seqStep (w, t) e in
      match seq_pc t1 with
      | SeqSettled (Resolved b) =>
          runFrom (run_startTime r) (run_remaining r) b (run_statuses r ++ [Ran b]) w1
      | SeqSettled (Rejected msg) =>
          (w1, mkRun (run_startTime r) (run_isCompleted r) (run_remaining r)
                 (RunSettled (Rejected msg)) (run_statuses r))
      | SeqAwait _ _ =>
          (w1, mkRun (run_startTime r) (run_isCompleted r) (run_remaining r)
                 (RunSequential t1) (run_statuses r))
      end
  | RunAsync pl =>
      let (w1, pl1) := poolStep (w, pl) e in
      match promise pl1 with
      | Some (Resolved b) =>
          runFrom (run_startTime r) (run_remaining r) b (run_statuses r ++ [Ran b]) w1
      | Some (Rejected msg) =>
          (w1, mkRun (run_startTime r) (run_isCompleted r) (run_remaining r)
                 (RunSettled (Rejected msg)) (run_statuses r))
      | None =>
          (w1, mkRun (run_startTime r) (run_isCompleted r) (run_remaining r)
                 (RunAsync pl1) (run_statuses r))
      end
  | RunSettled _ =>
      match e with
      | EvClock d => (advanceClock d w, r)
      | EvStopOngoingBuilds => (stopOngoingBuilds w, r)
      | _ => st
      end
  end.

(** ** [_rebuildPageBeingViewed] *)

(** The callback of [uniqueUrls.map], up to [await pageToRebuild.generate(..)]. *)
Definition rebuildViewedCallback (st : World * list (Page * Await)) (normalizedUrl : string)
  : World * list (Page * Await) :=
  let (w, suspended) := st in
  match find (λ page, bool_decide (normalizedSource page = normalizedUrl)) (pages (site w)) with
  | None => st
  | Some pageToRebuild =>
      (act (ActGenerate pageToRebuild) (toRebuild_delete normalizedUrl w),
       suspended ++ [(pageToRebuild, AwaitGenerate)])
  end.

(** The method up to [await Promise.all(regeneratePagesBeingViewed)]. *)
Definition _rebuildPageBeingViewed (normalizedUrls : list string) (w : World)
  : World * list (Page * Await) :=
  foldl rebuildViewedCallback (w, []) (uniq normalizedUrls).

(** A rejected [generate] is caught and handed to [Site.rejectHandler]; a
    resolved one is followed by [await this.writeSiteData()]. *)
Definition rebuildViewedStep (st : World * list (Page * Await)) (e : Event)
  : World * list (Page * Await) :=
  let (w, suspended) := st in
  match e with
  | EvClock d => (advanceClock d w, suspended)
  | EvStopOngoingBuilds => (stopOngoingBuilds w, suspended)
  | EvGenerated i =>
      match suspended !! i with
      | Some (page, AwaitGenerate) =>
          (act (ActGenerated page) w, <[i := (page, AwaitWriteSiteData)]> suspended)
      | _ => st
      end
  | EvGenerateFailed i =>
      match suspended !! i with
      | Some (page, AwaitGenerate) => (act (ActGenerateFailed page) w, delete i suspended)
      | _ => st
      end
  | EvSiteDataWritten i =>
      match suspended !! i with
      | Some (page, AwaitWriteSiteData) => (w, delete i suspended)
      | _ => st
      end
  end.

(** ** Observations on traces *)

(** The pages whose [generate] was called, oldest call first. *)
Definition dispatched (tr : list Action) : list Page :=
  omap (λ a, match a with ActGenerate page => Some page | _ => None end) (rev tr).

(** Every [toRebuild.delete(key)] comes right after the [generate] call of a
    page with that key has resolved, and every resolved call is followed by
    that [delete] ([tr] is newest first). *)
Fixpoint deletesFollowGenerated (tr : list Action) : bool :=
  match tr with
  | [] => true
  | ActDelete key :: ActGenerated page :: tr' =>
      bool_decide (normalizedSource page = key) && deletesFollowGenerated tr'
  | ActDelete _ :: _ => false
  | ActGenerated _ :: _ => false
  | _ :: tr' => deletesFollowGenerated tr'
  end.

(** Every [toRebuild.delete(key)] comes right before the [generate] call of
    a page with that key ([tr] is newest first). *)
Fixpoint deletesPrecedeGenerate (tr : list Action) : bool :=
  match tr with
  | [] => true
  | ActGenerate page :: ActDelete key :: tr' =>
      bool_decide (normalizedSource page = key) && deletesPrecedeGenerate tr'
  | ActDelete _ :: _ => false
  | _ :: tr' => deletesPrecedeGenerate tr'
  end.

(** ** Invariants of the asynchronous methods *)

(** [stopGenerationTimeThreshold] is only ever set to the current time. *)
Definition clockOk (w : World) : Prop :=
  stopGenerationTimeThreshold (site w) ≤ clock w.

Definition run {S : Type} (step : S → Event → S) (st : S) (events : list Event) : S :=
  foldl step st events.

(** What holds of a concurrent task over [pages] whenever it is suspended;
    [before] are the pages dispatched before the task began. *)
Definition poolInv (pages before : list Page) (st : World * Pool) : Prop :=
  let K := MAX_CONCURRENT_PAGE_GENERATION_PROMISES in
  let pl := st.2 in
  let queued := length (pageGenerationQueue pl) in
  let accounted := numPagesGenerated pl + length (inFlight pl) + queued in
  clockOk st.1
  ∧ numPagesToGenerate pl = length pages
  ∧ pageGenerationQueue pl = take queued (drop K pages)
  ∧ dispatched (trace st.1) = before ++ take K pages ++ rev (drop queued (drop K pages))
  ∧ accounted ≤ length pages
  ∧ length (inFlight pl) ≤ K
  ∧ (promise pl = None → isCompleted pl = true)
  ∧ (promise pl = None → numPagesGenerated pl = length pages → length pages = 0)
  ∧ (promise pl = Some (Resolved true) →
       numPagesGenerated pl = length pages ∧ 0 < length pages)
  ∧ (promise pl = Some (Resolved false) → stopRequested (startTime pl) st.1 = true)
  ∧ (∀ r, promise pl = Some r → r ≠ Resolved true → accounted < length pages).

(** Worlds that differ in [toRebuild] and in what the trace records besides
    the [generate] calls. *)
Definition sameSchedule (w w' : World) : Prop :=
  backgroundBuildMode (site w') = backgroundBuildMode (site w)
  ∧ stopGenerationTimeThreshold (site w') = stopGenerationTimeThreshold (site w)
  ∧ clock w' = clock w
  ∧ dispatched (trace w') = dispatched (trace w).

(** What holds of a sequential task whenever it is suspended or settled. *)
Definition seqInv (st : World * SeqTask) : Prop :=
  clockOk st.1
  ∧ (seq_isCompleted st.2 = false → stopRequested (seq_startTime st.2) st.1 = true)
  ∧ (∀ b, seq_pc st.2 = SeqSettled (Resolved b) → b = seq_isCompleted st.2).

(** The part of [poolInv] that does not depend on the pages of the task. *)
Definition poolStopInv (st : World * Pool) : Prop :=
  clockOk st.1
  ∧ (promise st.2 = Some (Resolved false) → stopRequested (startTime st.2) st.1 = true).

(** While a concurrent task is pending, each of its pages is counted as
    generated, or is in flight, or is queued. *)
Definition poolAccountInv (st : World * Pool) : Prop :=
  promise st.2 = None →
  numPagesGenerated st.2 + length (inFlight st.2) + length (pageGenerationQueue st.2)
  = numPagesToGenerate st.2.

(** Until a concurrent task over [pages] is cancelled or fails, each of its
    pages is queued, or being generated, or has been generated since the
    task began in the world [w0]. *)
Definition poolGeneratedInv (pages : list Page) (w0 : World) (st : World * Pool) : Prop :=
  ∃ new,
    trace st.1 = new ++ trace w0
    ∧ (promise st.2 = None ∨ promise st.2 = Some (Resolved true) →
       ∀ page, page ∈ pages →
         page ∈ pageGenerationQueue st.2
         ∨ (page, AwaitGenerate) ∈ inFlight st.2
         ∨ ActGenerated page ∈ new).

(** Whether [e] is a failing [generate] call. *)
Definition isGenerateFailed (e : Event) : bool :=
  match e with
  | EvGenerateFailed _ => true
  | _ => false
  end.

(** A task was cut short by cancellation: it was not started, or it resolved
    to [false]. *)
Definition cutShort (s : TaskStatus) : bool :=
  match s with
  | Ran true => false
  | _ => true
  end.

(** Once a task is cut short, the tasks after it are not started. *)
Definition cutShortLast (statuses : list TaskStatus) : Prop :=
  ∀ i j s, i < j → statuses !! i = Some s → cutShort s = true →
           j < length statuses → statuses !! j = Some NotStarted.

(** What holds of [runPageGenerationTasks] whenever it is suspended or
    settled. *)
Definition runInv (st : World * Run) : Prop :=
  let r := st.2 in
  clockOk st.1
  ∧ run_startTime r ≤ clock st.1
  ∧ cutShortLast (run_statuses r)
  ∧ match run_pc r with
    | RunSequential t =>
        seqInv (st.1, t) ∧ run_startTime r ≤ seq_startTime t
        ∧ existsb cutShort (run_statuses r) = false
    | RunAsync pl =>
        poolStopInv (st.1, pl) ∧ run_startTime r ≤ startTime pl
        ∧ existsb cutShort (run_statuses r) = false
    | RunSettled (Resolved b) =>
        b = negb (existsb cutShort (run_statuses r)) ∧ run_remaining r = []
    | RunSettled (Rejected _) => True
    end.

(** The tasks reached, the task being run or that failed, and the tasks
    still to come. *)
Definition runCount (r : Run) : nat :=
  length (run_statuses r) + length (run_remaining r)
  + match run_pc r with
    | RunSequential _ | RunAsync _ | RunSettled (Rejected _) => 1
    | RunSettled (Resolved _) => 0
    end.

(** A task with start time [start] that a call of [stopOngoingBuilds] has
    cancelled, [D] being the pages dispatched so far. *)
Definition cancelled (start : nat) (D : list Page) (w : World) : Prop :=
  clockOk w ∧ stopRequested start w = true ∧ dispatched (trace w) = D.

(** The keys [toRebuild.delete] was called on. *)
Definition deletedKeys (tr : list Action) : gset string :=
  list_to_set (omap (λ a, match a with ActDelete key => Some key | _ => None end) tr).

(** Every [generate] call that has resolved was made before ([tr] is newest
    first). *)
Definition generatedWereDispatched (tr : list Action) : Prop :=
  ∀ newer page older, tr = newer ++ ActGenerated page :: older → ActGenerate page ∈ older.

(** What a task has added to the trace of [w0], while [awaiting] are the
    pages whose [generate] call is pending. *)
Definition traceInv (w0 : World) (awaiting : list Page) (w : World) : Prop :=
  ∃ new,
    trace w = new ++ trace w0
    ∧ deletesFollowGenerated new = true
    ∧ generatedWereDispatched new
    ∧ toRebuild (site w) = toRebuild (site w0) ∖ deletedKeys new
    ∧ ∀ page, page ∈ awaiting → ActGenerate page ∈ new.

(** The pages whose [generate] call is pending. *)
Definition awaitingGenerate (suspended : list (Page * Await)) : list Page :=
  omap (λ pa, match pa.2 with AwaitGenerate => Some pa.1 | _ => None end) suspended.

Definition seqAwaitingGenerate (t : SeqTask) : list Page :=
  match seq_pc t with
  | SeqAwait page AwaitGenerate => [page]
  | _ => []
  end.

(** What [_rebuildPageBeingViewed] has added to the trace of [w0] once it has
    gone through the urls [urls]. *)
Definition rebuildViewedInv (w0 : World) (urls : list string) (w : World) : Prop :=
  ∃ new,
    trace w = new ++ trace w0
    ∧ deletesPrecedeGenerate new = true
    ∧ toRebuild (site w) = toRebuild (site w0) ∖ deletedKeys new
    ∧ pages (site w) = pages (site w0)
    ∧ ∀ key, key ∈ deletedKeys new
             ↔ key ∈ urls ∧ ∃ page, page ∈ pages (site w0) ∧ normalizedSource page = key.

(** How [runPageGenerationTasks] goes on once the task it awaits has made a
    step: what [runStep] does with the result of [seqStep] and [poolStep]. *)
Definition resumeSequential (r : Run) (st : World * SeqTask) : World * Run :=
  match seq_pc st.2 with
  | SeqSettled (Resolved b) =>
      runFrom (run_startTime r) (run_remaining r) b (run_statuses r ++ [Ran b]) st.1
  | SeqSettled (Rejected msg) =>
      (st.1, mkRun (run_startTime r) (run_isCompleted r) (run_remaining r)
               (RunSettled (Rejected msg)) (run_statuses r))
  | SeqAwait _ _ =>
      (st.1, mkRun (run_startTime r) (run_isCompleted r) (run_remaining r)
               (RunSequential st.2) (run_statuses r))
  end.

Definition resumeAsync (r : Run) (st : World * Pool) : World * Run :=
  match promise st.2 with
  | Some (Resolved b) =>
      runFrom (run_startTime r) (run_remaining r) b (run_statuses r ++ [Ran b]) st.1
  | Some (Rejected msg) =>
      (st.1, mkRun (run_startTime r) (run_isCompleted r) (run_remaining r)
               (RunSettled (Rejected msg)) (run_statuses r))
  | None =>
      (st.1, mkRun (run_startTime r) (run_isCompleted r) (run_remaining r)
               (RunAsync st.2) (run_statuses r))
  end.

(** The [await]s a concurrent task still has to go through in background
    build mode. *)
Definition awaitsLeft (pl : Pool) : nat :=
  sum_list_with (λ pa : Page * Await,
                   match pa.2 with AwaitGenerate => 2 | AwaitWriteSiteData => 1 end)
    (inFlight pl)
  + 2 * length (pageGenerationQueue pl).

(** A concurrent task nobody has stopped and no page of which has failed. *)
Definition poolRunning (st : World * Pool) : Prop :=
  stopRequested (startTime st.2) st.1 = false
  ∧ promise st.2 = None
  ∧ inFlight st.2 ≠ []
  ∧ numPagesGenerated st.2 + length (inFlight st.2) + length (pageGenerationQueue st.2)
    = numPagesToGenerate st.2.

(** Worlds that differ in [toRebuild] and in their traces only. *)
Definition sameTimes (w w' : World) : Prop :=
  backgroundBuildMode (site w') = backgroundBuildMode (site w)
  ∧ stopGenerationTimeThreshold (site w') = stopGenerationTimeThreshold (site w)
  ∧ clock w' = clock w.

End Definitions.

(** ** The collaborators of page-set maintenance

    What the methods that keep the page set up to date import besides the
    above: Node's [path], [utils.ensurePosix] and lodash's [isEqual]. *)
Class PathCollaborators := {
  (** [path.dirname] *)
  path_dirname : string → string;
  (** [path.basename(p, ext)] *)
  path_basename : string → string → string;
  (** [path.extname] *)
  path_extname : string → string;
  (** [utils.ensurePosix(path.relative(from, to))] *)
  relativePosix : string → string → string;
  (** [_.isEqual] on the page objects of [addressablePages] *)
  isEqual : PageEntry → PageEntry → bool;
}.

Definition set_currentOpenedPages (v : list string) (s : Site) : Site :=
  mkSite (rootPath s) (pages s) (addressablePages s) (forceReload s) (siteConfig s)
    (backgroundBuildMode s) (stopGenerationTimeThreshold s) (onePagePath s)
    (currentPageViewed s) v (toRebuild s).

Definition set_addressablePages (v : list PageEntry) (s : Site) : Site :=
  mkSite (rootPath s) (pages s) v (forceReload s) (siteConfig s)
    (backgroundBuildMode s) (stopGenerationTimeThreshold s) (onePagePath s)
    (currentPageViewed s) (currentOpenedPages s) (toRebuild s).

Definition set_siteConfig (v : SiteConfig) (s : Site) : Site :=
  mkSite (rootPath s) (pages s) (addressablePages s) (forceReload s) v
    (backgroundBuildMode s) (stopGenerationTimeThreshold s) (onePagePath s)
    (currentPageViewed s) (currentOpenedPages s) (toRebuild s).

Section Maintenance.
Context `{!Collaborators} `{!PathCollaborators}.

(** ** [changeCurrentOpenedPages] *)

Definition changeCurrentOpenedPages (normalizedUrls : list string) (s : Site) : Site :=
  match onePagePath s with
  | None => s
  | Some _ =>
      let openedPages :=
        (λ normalizedUrl, path_join (rootPath s) normalizedUrl) <$> normalizedUrls in
      set_currentOpenedPages (uniq openedPages) s
  end.

(** ** [lazyBuildAllPagesNotViewed] *)

Definition lazyBuildAllPagesNotViewed (s : Site) : Site :=
  set_toRebuild
    (foldl (λ pending page,
              let normalizedUrl := normalizedSource page in
              if decide (normalizedUrl ≠ currentPageViewed s)
              then {[normalizedUrl]} ∪ pending
              else pending)
       (toRebuild s) (pages s))
    s.

(** ** [isFilepathAPage] *)

(** [Array.isArray(page.src) ? page.src : [page.src]] over the entries that
    have a [src]. *)
Definition srcesFromPages (cfg : SiteConfig) : list string :=
  filter (λ page, hasSrc page = true) (config_pages cfg)
  ≫= (λ page, match spec_src page with
               | None => []
               | Some (SrcPath p) => [p]
               | Some (SrcPaths l) => l
               end).

Definition isFilepathAPage (filePath : string) (s : Site) : bool :=
  let cfg := siteConfig s in
  let relativeFilePath := relativePosix (rootPath s) filePath in
  if bool_decide (relativeFilePath ∈ srcesFromPages cfg) then true
  else
    let filePathsFromGlobs :=
      filter (λ page, truthy (prop (spec_props page) "glob") = true) (config_pages cfg)
      ≫= (λ page, getPageGlobPaths s page (pagesExclude cfg)) in
    existsb (λ fp, bool_decide (fp = relativeFilePath)) filePathsFromGlobs.

(** ** [updateAddressablePages] *)

(** [Site.setExtension(filename, ext)] *)
Definition setExtension (filename ext : string) : string :=
  path_join (path_dirname filename)
    (path_basename filename (path_extname filename) +:+ ext).

(** [_.difference(array, values)] *)
Definition difference (array values : list string) : list string :=
  filter (λ x, x ∉ values) array.

(** The site with its new [addressablePages] and the file paths returned,
    or the message of the error [collectAddressablePages] throws. *)
Definition updateAddressablePages (s : Site) : string + Site * list string :=
  let oldAddressablePagesSources := entry_src <$> addressablePages s in
  match collectAddressablePages s with
  | inl msg => inl msg
  | inr addressable =>
      let newAddressablePagesSources := entry_src <$> addressable in
      inr (set_addressablePages addressable s,
           (λ filePath, setExtension filePath ".html")
             <$> difference oldAddressablePagesSources newAddressablePagesSources)
  end.

(** ** [reloadSiteConfig] *)

(** [_.differenceWith(array, values, comparator)]: the comparator is called
    with an element of [array] and an element of [values]. *)
Definition differenceWith {A B} (array : list A) (values : list B)
    (comparator : A → B → bool) : list A :=
  filter (λ x, existsb (comparator x) values = false) array.

Definition isNewPage (newPage oldPage : PageEntry) : bool :=
  isEqual newPage oldPage || bool_decide (entry_src newPage = entry_src oldPage).

Definition addedPages (oldAddressablePages addressable : list PageEntry) : list PageEntry :=
  differenceWith addressable oldAddressablePages isNewPage.

Definition removedPages (oldAddressablePages addressable : list PageEntry) : list string :=
  (λ filePath, setExtension (entry_src filePath) ".html")
    <$> differenceWith oldAddressablePages addressable isNewPage.

(** The pages with edited attributes but with the same [src]. *)
Definition editedPages (oldAddressablePages addressable : list PageEntry) : list PageEntry :=
  let oldPagesSrc := entry_src <$> oldAddressablePages in
  differenceWith addressable oldAddressablePages
    (λ newPage oldPage,
       if negb (isEqual newPage oldPage)
       then negb (bool_decide (entry_src newPage ∈ oldPagesSrc))
       else true).

(** What [reloadSiteConfig] goes on to do. *)
Inductive ReloadPlan :=
  (** [removeAsset(removedPages)], [_rebuildSourceFiles()], [writeSiteData()] *)
  | RebuildSourceFiles (removed : list string)
  (** [updatePages(editedPages)] and [regenerateAffectedPages] of their files *)
  | RegenerateEdited (edited : list PageEntry).

(** [reloadSiteConfig] once [readSiteConfig] has read [newConfig]: the site
    with its new configuration and addressable pages and what is done next,
    or the message of the error [collectAddressablePages] throws. *)
Definition reloadSiteConfig (newConfig : SiteConfig) (s : Site) : string + Site * ReloadPlan :=
  let oldAddressablePages := addressablePages s in
  let s1 := set_siteConfig newConfig s in
  match collectAddressablePages s1 with
  | inl msg => inl msg
  | inr addressable =>
      let s2 := set_addressablePages addressable s1 in
      let added := addedPages oldAddressablePages addressable in
      let removed := removedPages oldAddressablePages addressable in
      if negb (bool_decide (added = [])) || negb (bool_decide (removed = []))
      then inr (s2, RebuildSourceFiles removed)
      else inr (s2, RegenerateEdited (editedPages oldAddressablePages addressable))
  end.

(** ** [regenerateAffectedPages]: the tasks it runs *)

Definition regenerationTasks (a : Affected) : list Task :=
  let opened := definedPages (openedPagesToRegenerate a) in
  (if decide (0 < length opened) then [mkTask Sequential opened] else [])
  ++ (if decide (0 < length (asyncPagesToRegenerate a))
      then [mkTask Async (asyncPagesToRegenerate a)] else []).

Inductive Regeneration :=
  (** ['No pages needed to be rebuilt'] *)
  | NothingToRebuild
  (** suspended in [await this.runPageGenerationTasks(pageGenerationTasks)] *)
  | Regenerating (r : Run).

(** [regenerateAffectedPages] up to its first [await]. *)
Definition regenerateAffectedPages (filePaths : list string) (w : World)
  : World * Regeneration :=
  let a := affectedPages filePaths (site w) in
  let w1 := mkWorld (set_toRebuild (aff_toRebuild a) (site w)) (clock w) (trace w) in
  let totalPagesToRegenerate :=
    length (definedPages (openedPagesToRegenerate a)) + length (asyncPagesToRegenerate a) in
  if decide (totalPagesToRegenerate = 0) then (w1, NothingToRebuild)
  else
    let (w2, r) := runPageGenerationTasks (regenerationTasks a) w1 in
    (w2, Regenerating r).

(** ** [generatePagesMarkedToRebuild] and [_backgroundBuildNotViewedFiles] *)

Definition generatePagesMarkedToRebuild (w : World) : World * Run :=
  let pagesToRebuild :=
    filter (λ page, normalizedSource page ∈ toRebuild (site w)) (pages (site w)) in
  runPageGenerationTasks [mkTask Async pagesToRebuild] w.

(** The value returned at once, or the run of [generatePagesMarkedToRebuild]
    whose result is returned. *)
Definition _backgroundBuildNotViewedFiles (w : World) : World * (bool + Run) :=
  if decide (size (toRebuild (site w)) = 0) then (w, inl false)
  else let (w1, r) := generatePagesMarkedToRebuild w in (w1, inr r).

(** ** More invariants of the asynchronous methods *)

(** No page of [ps] is marked to be rebuilt. *)
Definition cleared (ps : list Page) (w : World) : Prop :=
  ∀ page, page ∈ ps → normalizedSource page ∉ toRebuild (site w).

(** A sequential task over [pages] goes through them in order: [done] are
    the pages it is through with; [before] are the pages dispatched before
    the task began. *)
Definition seqOrderInv (pages before : list Page) (st : World * SeqTask) : Prop :=
  match seq_pc st.2 with
  | SeqAwait page a =>
      seq_isCompleted st.2 = true
      ∧ ∃ done,
          pages = done ++ page :: seq_remaining st.2
          ∧ dispatched (trace st.1) = before ++ done ++ [page]
          ∧ cleared (match a with
                     | AwaitGenerate => done
                     | AwaitWriteSiteData => done ++ [page]
                     end) st.1
  | SeqSettled (Resolved true) =>
      dispatched (trace st.1) = before ++ pages ∧ cleared pages st.1
  | SeqSettled _ => ∃ n, dispatched (trace st.1) = before ++ take n pages
  end.

(** Until a concurrent task over [pages] is cancelled or fails, each of its
    pages is queued, or being generated, or no longer marked to be rebuilt. *)
Definition poolClearInv (pages : list Page) (st : World * Pool) : Prop :=
  promise st.2 = None ∨ promise st.2 = Some (Resolved true) →
  ∀ page, page ∈ pages →
    page ∈ pageGenerationQueue st.2
    ∨ (page, AwaitGenerate) ∈ inFlight st.2
    ∨ normalizedSource page ∉ toRebuild (site st.1).

(** The tasks of [tasks] that [runPageGenerationTasks] is through with, and
    the one it is suspended in. *)
Definition runClearInv (tasks : list Task) (st : World * Run) : Prop :=
  ∃ doneTasks,
    length doneTasks = length (run_statuses st.2)
    ∧ (∀ i task, doneTasks !! i = Some task → run_statuses st.2 !! i = Some (Ran true) →
         cleared (task_pages task) st.1)
    ∧ match run_pc st.2 with
      | RunSequential t =>
          ∃ cur before,
            tasks = doneTasks ++ cur :: run_remaining st.2
            ∧ seqOrderInv (task_pages cur) before (st.1, t)
      | RunAsync pl =>
          ∃ cur before,
            tasks = doneTasks ++ cur :: run_remaining st.2
            ∧ poolInv (task_pages cur) before (st.1, pl)
            ∧ poolClearInv (task_pages cur) (st.1, pl)
      | RunSettled (Resolved _) => tasks = doneTasks
      | RunSettled (Rejected _) => True
      end.

(** What holds of [runPageGenerationTasks] outside background build mode. *)
Definition foregroundInv (st : World * Run) : Prop :=
  backgroundBuildMode (site st.1) = false
  ∧ (∀ s, s ∈ run_statuses st.2 → s = Ran true)
  ∧ match run_pc st.2 with
    | RunSequential t =>
        seq_isCompleted t = true ∧ ∃ page a, seq_pc t = SeqAwait page a
    | RunAsync pl => promise pl = None
    | RunSettled r => r ≠ Resolved false
    end.

(** The pages [runPageGenerationTasks] may still call [generate] on are
    pages of [allowed]. *)
Definition runWithinInv (allowed : list Page) (st : World * Run) : Prop :=
  (∀ task, task ∈ run_remaining st.2 → task_pages task ⊆ allowed)
  ∧ match run_pc st.2 with
    | RunSequential t =>
        seq_remaining t ⊆ allowed
        ∧ ∀ page a, seq_pc t = SeqAwait page a → page ∈ allowed
    | RunAsync pl =>
        pageGenerationQueue pl ⊆ allowed
        ∧ ∀ page a, (page, a) ∈ inFlight pl → page ∈ allowed
    | RunSettled _ => True
    end.

(** The marks of [w0] on keys of no page of [allowed] are still there. *)
Definition keepsMarks (allowed : list Page) (w0 w : World) : Prop :=
  ∀ key, key ∈ toRebuild (site w0) →
         (∀ page, page ∈ allowed → normalizedSource page ≠ key) →
         key ∈ toRebuild (site w).

End Maintenance.

(** ** A concrete environment

    Used to run the definitions on examples: POSIX-like paths, [.md]
    sources, a page depending on its own source only, and a content tree
    with the files [index.md] and [guide.md], which every glob matches. *)

Fixpoint removeExtension_md (s : string) : string :=
  match s with
  | EmptyString => EmptyString
  | String c s' => if String.eqb s ".md" then EmptyString else String c (removeExtension_md s')
  end.

Definition exampleCollaborators : Collaborators := {|
  path_join a b := a +:+ "/" +:+ b;
  path_resolve a b := a +:+ "/" +:+ b;
  removeExtension := removeExtension_md;
  isDependency page filePath := bool_decide (filePath = sourcePath (pageConfig page));
  walkSync _ page _ :=
    if truthy (prop (spec_props page) "glob") then ["index.md"; "guide.md"] else [];
  MAX_CONCURRENT_PAGE_GENERATION_PROMISES := 2;
  USER_VARIABLES_PATH := "_markbind/variables.md";
|}.

Definition examplePage (name : string) (hs : Value) : Page :=
  mkPage (mkPageConfig (name +:+ ".md") ("/site/" +:+ name +:+ ".md") true)
    name hs (VObj []).

Definition exampleSite (ps : list Page) (lazy : option string) (background : bool)
    (pending : gset string) : Site :=
  mkSite "/site" ps [] false (mkSiteConfig true [] []) background 0 lazy "" [] pending.

Definition exampleWorld (s : Site) : World := mkWorld s 0 [].

Definition pageA : Page := examplePage "a" (VObj []).
Definition pageB : Page := examplePage "b" (VObj []).
Definition pageC : Page := examplePage "c" (VObj []).
Definition pageD : Page := examplePage "d" (VObj []).

(** A site built in the background, at time 10, last stopped at time 3. *)
Definition backgroundWorld : World :=
  mkWorld (mkSite "/site" [pageA; pageB; pageC; pageD] [] false (mkSiteConfig true [] [])
             true 3 None "" [] {["/site/a"; "/site/b"; "/site/c"; "/site/d"]})
    10 [].

(** The same site, not built in the background. *)
Definition foregroundWorld : World :=
  mkWorld (mkSite "/site" [pageA; pageB; pageC; pageD] [] false (mkSiteConfig true [] [])
             false 3 None "" [] {["/site/a"; "/site/b"; "/site/c"; "/site/d"]})
    10 [].

(** A configuration in which a glob and an explicit entry both give
    [index.md] a layout. *)
Definition collidingSite : Site :=
  mkSite "/site" [] [] false
    (mkSiteConfig true
       [mkPageSpec (Some (SrcPath "index.md"))
          {["layout" := VStr "home"; "title" := VStr "Home"]};
        mkPageSpec None {["glob" := VStr "**/*.md"; "layout" := VStr "default"]}]
       [])
    false 0 None "" [] ∅.

(** A configuration that names [index.md] twice. *)
Definition duplicateSite : Site :=
  mkSite "/site" [] [] false
    (mkSiteConfig true
       [mkPageSpec (Some (SrcPaths ["index.md"; "guide.md"])) ∅;
        mkPageSpec (Some (SrcPath "index.md")) {["title" := VStr "Home"]}]
       [])
    false 0 None "" [] ∅.

(** A configuration that gives the path [__proto__] among its sources. *)
Definition protoSite : Site :=
  mkSite "/site" [] [] false
    (mkSiteConfig true
       [mkPageSpec (Some (SrcPaths ["a.md"; "__proto__"; "b.md"])) {["title" := VStr "T"]}]
       [])
    false 0 None "" [] ∅.

#[global] Instance PageEntry_eq_dec : EqDecision PageEntry.
Proof. solve_decision. Defined.

(** The path of [to] below [from]. *)
Definition relative_example (from to : string) : string :=
  if String.prefix (from +:+ "/") to
  then String.substring (String.length from + 1)
         (String.length to - (String.length from + 1)) to
  else to.

(** Source files lie directly under the root and end in [.md]; page objects
    are compared field by field. *)
Definition examplePathCollaborators : PathCollaborators := {|
  path_dirname _ := ".";
  path_basename p _ := removeExtension_md p;
  path_extname _ := ".md";
  relativePosix := relative_example;
  isEqual a b := bool_decide (a = b);
|}.

(** A site built lazily from [index.md], with a second page not built yet. *)
Definition lazySite : Site :=
  exampleSite [examplePage "index" (VObj []); examplePage "guide" VUndefined]
    (Some "index.md") false ∅.

(** * Properties *)

Section Properties.
Context `{!Collaborators}.

(** ** [changeCurrentPage] *)

(** C10: [changeCurrentPage(normalizedUrl)] always sets [currentPageViewed]
    to the resolved path; it returns [true] and calls
    [rebuildPageBeingViewed] on that path exactly when the path is in
    [toRebuild] at the time of the call, and otherwise returns [false] and
    calls nothing. *)
Theorem changeCurrentPage_rebuilds_iff_pending (normalizedUrl : string) (s : Site) :
  let resolved := path_join (rootPath s) normalizedUrl in
  let pending := bool_decide (resolved ∈ toRebuild s) in
  currentPageViewed (changeCurrentPage normalizedUrl s).1.1 = resolved
  ∧ (changeCurrentPage normalizedUrl s).1.2 = pending
  ∧ (changeCurrentPage normalizedUrl s).2
    = (if pending
       then [CallBeforeSiteGenerate; CallRebuildPageBeingViewed resolved]
       else [])
  ∧ toRebuild (changeCurrentPage normalizedUrl s).1.1 = toRebuild s.
Proof.
  unfold changeCurrentPage; simpl.
  destruct (bool_decide _); simpl; auto.
Qed.

(** ** [writeSiteData] *)

Lemma elem_of_siteData_pages (s : Site) (e : SiteDataPage) :
  e ∈ sd_pages (siteData s)
  ↔ ∃ page, page ∈ pages s ∧ searchable (pageConfig page) = true
            ∧ truthy (headings page) = true ∧ e = siteDataPage page.
Proof.
  unfold siteData; simpl. rewrite list_elem_of_fmap. split.
  - intros (page & -> & Hin). apply list_elem_of_filter in Hin as [Hp Hin].
    apply andb_true_iff in Hp as [? ?]. eauto 6.
  - intros (page & Hin & Hs & Ht & ->). exists page; split; [done|].
    apply list_elem_of_filter. split; [|done]. by rewrite Hs, Ht.
Qed.

(** C8, as amended: the site index has the shape
    [{ enableSearch, pages: [{ src, title, headings, headingKeywords }] }],
    and its pages are exactly the pages that are flagged searchable and whose
    [headings] are set, in the order of [this.pages]. *)
Theorem writeSiteData_searchable_with_headings (s : Site) :
  sd_enableSearch (siteData s) = enableSearch (siteConfig s)
  ∧ (∀ page, page ∈ pages s →
       (siteDataPage page ∈ sd_pages (siteData s)
        ↔ ∃ page', page' ∈ pages s ∧ siteDataPage page' = siteDataPage page
                   ∧ searchable (pageConfig page') = true
                   ∧ truthy (headings page') = true))
  ∧ (∀ e, e ∈ sd_pages (siteData s) →
       ∃ page, page ∈ pages s
               ∧ sd_src e = src (pageConfig page) ∧ sd_title e = title page
               ∧ sd_headings e = headings page ∧ sd_headingKeywords e = keywords page
               ∧ searchable (pageConfig page) = true ∧ truthy (headings page) = true)
  ∧ sd_pages (siteData s) `sublist_of` (siteDataPage <$> pages s).
Proof.
  split; [done|]. split; [|split].
  - intros page Hin. rewrite elem_of_siteData_pages. split.
    + intros (p' & ? & ? & ? & ?). exists p'. eauto.
    + intros (p' & ? & ? & ? & ?). exists p'. eauto.
  - intros e (page & ? & ? & ? & ->)%elem_of_siteData_pages.
    exists page. simpl. eauto 10.
  - unfold siteData; simpl. apply fmap_sublist, sublist_filter.
Qed.

(** ** [regenerateAffectedPages] *)

Lemma arraySet_lookup_eq {A} (i : nat) (x : A) (arr : list (option A)) :
  arraySet i x arr !! i = Some (Some x).
Proof.
  unfold arraySet. case_decide.
  - by apply list_lookup_insert_eq.
  - rewrite lookup_app_r by lia. rewrite lookup_app_r; rewrite length_replicate; [|lia].
    by rewrite Nat.sub_diag.
Qed.

Lemma arraySet_lookup_ne {A} (i j : nat) (x y : A) (arr : list (option A)) :
  i ≠ j → arraySet i x arr !! j = Some (Some y) ↔ arr !! j = Some (Some y).
Proof.
  intros Hne. unfold arraySet. case_decide.
  - by rewrite list_lookup_insert_ne.
  - destruct (decide (j < length arr)) as [Hlt|Hge].
    + by rewrite lookup_app_l.
    + rewrite (lookup_ge_None_2 arr j) by lia.
      rewrite lookup_app_r by lia.
      split; [|done]. intros Hl.
      destruct (decide (j - length arr < i - length arr)) as [Hlt'|Hge'].
      * rewrite lookup_app_l in Hl by (rewrite length_replicate; lia).
        apply lookup_replicate in Hl as [? _]. done.
      * rewrite lookup_app_r in Hl by (rewrite length_replicate; lia).
        rewrite length_replicate in Hl.
        apply lookup_lt_Some in Hl. simpl in Hl. lia.
Qed.

Lemma findIndex_Some (x : string) (arr : list string) (i : nat) :
  findIndex x arr = Some i → arr !! i = Some x.
Proof.
  unfold findIndex. destruct (list_find _ arr) as [[j y]|] eqn:Hf; [|done].
  simpl. intros [= ->]. apply list_find_Some in Hf as (? & -> & _). done.
Qed.

Lemma findIndex_None (x : string) (arr : list string) :
  findIndex x arr = None ↔ x ∉ arr.
Proof.
  unfold findIndex. destruct (list_find _ arr) as [[j y]|] eqn:Hf; simpl.
  - apply list_find_Some in Hf as (Hl & -> & _).
    split; [done|]. intros Hn. destruct Hn. by eapply list_elem_of_lookup_2.
  - split; [|done]. intros _ Hin.
    eapply list_find_None in Hf. eapply Forall_forall in Hf; [|exact Hin]. done.
Qed.

Lemma affectedPages_eager_from (filePaths : list string) (s : Site) (l : list Page)
    (acc : Affected) :
  onePagePath s = None →
  foldl (affectedStep filePaths s) acc l
  = mkAffected (aff_toRebuild acc) (openedPagesToRegenerate acc)
      (asyncPagesToRegenerate acc
       ++ filter (λ page, isAffected filePaths s page = true) l).
Proof.
  intros Hlazy. revert acc.
  induction l as [|page l IH]; intros acc; simpl.
  - rewrite app_nil_r. by destruct acc.
  - rewrite IH. unfold affectedStep, isAffected. rewrite Hlazy, filter_cons.
    destruct (shouldRebuildAllPages filePaths s || existsb (isDependency page) filePaths)
      eqn:Ha; simpl.
    + by rewrite <- app_assoc.
    + done.
Qed.

Lemma affectedPages_eager (filePaths : list string) (s : Site) :
  onePagePath s = None →
  affectedPages filePaths s
  = mkAffected (toRebuild s) []
      (filter (λ page, isAffected filePaths s page = true) (pages s)).
Proof. intros Hlazy. unfold affectedPages. by rewrite affectedPages_eager_from. Qed.

Lemma affectedPages_lazy (filePaths : list string) (s : Site) (o : string) :
  onePagePath s = Some o →
  lazyAffectedInv filePaths s (pages s) (affectedPages filePaths s).
Proof.
  intros Hlazy. unfold affectedPages.
  induction (pages s) as [|page l IH] using rev_ind.
  - simpl. split; [done|]. split; [|split].
    + intros key. simpl. split; [auto|]. intros [?|(? & Hin & _)]; [done|].
      by apply elem_of_nil in Hin.
    + intros i q Hl. simpl in Hl. by rewrite lookup_nil in Hl.
    + intros ? ? Hin. by apply elem_of_nil in Hin.
  - rewrite foldl_app. simpl.
    destruct IH as (Hasync & Hset & Hopen & Hall).
    set (acc := foldl (affectedStep filePaths s) _ l) in *.
    unfold affectedStep. rewrite Hlazy.
    fold (isAffected filePaths s page).
    destruct (isAffected filePaths s page) eqn:Ha.
    2:{ split; [done|]. split; [|split].
        - intros key. rewrite Hset. split.
          + intros [?|(p & Hin & ?)]; [auto|]. right. exists p.
            rewrite elem_of_app. tauto.
          + intros [?|(p & Hin & Hp & ? & ?)]; [auto|]. right. exists p.
            apply elem_of_app in Hin as [?|Hin]; [done|].
            apply list_elem_of_singleton in Hin as ->. congruence.
        - intros i q Hl. destruct (Hopen i q Hl) as (? & ? & ?).
          rewrite elem_of_app. auto.
        - intros p i Hin Hp Hf. apply elem_of_app in Hin as [Hin|Hin]; [eauto|].
          apply list_elem_of_singleton in Hin as ->. congruence. }
    destruct (findIndex (normalizedSource page) (currentOpenedPages s)) as [openIdx|] eqn:Hidx.
    + split; [done|]. simpl. split; [|split].
      * intros key. rewrite Hset. split.
        -- intros [?|(p & Hin & ?)]; [auto|]. right. exists p.
           rewrite elem_of_app. tauto.
        -- intros [?|(p & Hin & Hp & Hno & ?)]; [auto|]. right. exists p.
           apply elem_of_app in Hin as [?|Hin]; [done|].
           apply list_elem_of_singleton in Hin as ->.
           apply findIndex_None in Hno. congruence.
      * intros i q Hl. destruct (decide (openIdx = i)) as [->|Hne].
        -- rewrite arraySet_lookup_eq in Hl. injection Hl as ->.
           rewrite elem_of_app, list_elem_of_singleton. auto.
        -- apply arraySet_lookup_ne in Hl; [|done].
           destruct (Hopen i q Hl) as (? & ? & ?). rewrite elem_of_app. auto.
      * intros p i Hin Hp Hf. destruct (decide (openIdx = i)) as [->|Hne].
        -- exists page. apply arraySet_lookup_eq.
        -- apply elem_of_app in Hin as [Hin|Hin].
           ++ destruct (Hall p i Hin Hp Hf) as [q Hq]. exists q.
              by apply arraySet_lookup_ne.
           ++ apply list_elem_of_singleton in Hin as ->. congruence.
    + split; [done|]. simpl. split; [|split].
      * intros key. rewrite elem_of_union, elem_of_singleton, Hset. split.
        -- intros [->|[?|(p & Hin & ?)]]; [|auto|].
           ++ right. exists page. rewrite elem_of_app, list_elem_of_singleton.
              apply findIndex_None in Hidx. auto.
           ++ right. exists p. rewrite elem_of_app. tauto.
        -- intros [?|(p & Hin & Hp & Hno & ?)]; [auto|].
           apply elem_of_app in Hin as [?|Hin]; [right; right; eauto|].
           apply list_elem_of_singleton in Hin as ->. auto.
      * intros i q Hl. destruct (Hopen i q Hl) as (? & ? & ?).
        rewrite elem_of_app. auto.
      * intros p i Hin Hp Hf. apply elem_of_app in Hin as [Hin|Hin]; [eauto|].
        apply list_elem_of_singleton in Hin as ->. congruence.
Qed.

Lemma elem_of_definedPages (arr : list (option Page)) (q : Page) :
  q ∈ definedPages arr ↔ ∃ i, arr !! i = Some (Some q).
Proof.
  unfold definedPages. rewrite list_elem_of_omap. split.
  - intros (o & Hin & Ho). simpl in Ho. subst o.
    by apply list_elem_of_lookup_1 in Hin.
  - intros [i Hi]. exists (Some q). split; [|done]. by eapply list_elem_of_lookup_2.
Qed.



(** ** [collectAddressablePages] *)

Lemma elem_of_uniq (x : string) (l : list string) : x ∈ uniq l ↔ x ∈ l.
Proof.
  induction l as [|y l IH]; simpl; [done|].
  rewrite !elem_of_cons, list_elem_of_filter, IH.
  destruct (decide (x = y)); naive_solver.
Qed.

Lemma NoDup_uniq (l : list string) : NoDup (uniq l).
Proof.
  induction l as [|y l IH]; simpl; [constructor|].
  constructor.
  - rewrite list_elem_of_filter. naive_solver.
  - by apply NoDup_filter.
Qed.

(** A path is reported as duplicate when it is the [src] of an entry and is
    in [set] already or is the [src] of an earlier entry too. *)
Lemma elem_of_duplicatePages (set : gset string) (l : list PageEntry) (path : string) :
  path ∈ entry_src <$> duplicatePages set l
  ↔ ∃ j, (entry_src <$> l) !! j = Some path
         ∧ (path ∈ set ∨ ∃ i, i < j ∧ (entry_src <$> l) !! i = Some path).
Proof.
  revert set. induction l as [|e l IH]; intros set; simpl.
  - split; [by intros ?%elem_of_nil|]. by intros (j & ? & _).
  - case_decide as Hin; simpl.
    + rewrite elem_of_cons, IH. split.
      * intros [->|(j & Hj & Hor)].
        -- exists 0. auto.
        -- exists (S j). split; [done|].
           destruct Hor as [?|(i & ? & ?)]; [by left|].
           right. exists (S i). split; [lia|done].
      * intros ([|j] & Hj & Hor); simpl in Hj.
        -- left. congruence.
        -- right. exists j. split; [done|].
           destruct Hor as [?|([|i] & Hlt & Hi)]; [by left| |].
           ++ simpl in Hi. left. congruence.
           ++ right. exists i. split; [lia|done].
    + rewrite IH. split.
      * intros (j & Hj & Hor). exists (S j). split; [done|].
        destruct Hor as [[->%elem_of_singleton|?]%elem_of_union|(i & ? & ?)].
        -- right. exists 0. split; [lia|done].
        -- by left.
        -- right. exists (S i). split; [lia|done].
      * intros ([|j] & Hj & Hor); simpl in Hj.
        -- destruct Hor as [?|(i & ? & _)]; [congruence|lia].
        -- exists j. split; [done|].
           destruct Hor as [?|([|i] & Hlt & Hi)].
           ++ left. set_solver.
           ++ simpl in Hi. left. set_solver.
           ++ right. exists i. split; [lia|done].
Qed.

Lemma duplicatePages_nil_iff (l : list PageEntry) :
  duplicatePages ∅ l = [] ↔ NoDup (entry_src <$> l).
Proof.
  rewrite NoDup_alt. split.
  - intros Hnil i j path Hi Hj.
    destruct (decide (i = j)) as [|Hne]; [done|].
    assert (path ∈ entry_src <$> duplicatePages ∅ l) as Hin.
    { apply elem_of_duplicatePages.
      destruct (decide (i < j)).
      - exists j. split; [done|]. right. exists i. done.
      - exists i. split; [done|]. right. exists j. split; [lia|done]. }
    rewrite Hnil in Hin. by apply elem_of_nil in Hin.
  - intros Hnd. destruct (duplicatePages ∅ l) as [|e dl] eqn:Hd; [done|].
    assert (entry_src e ∈ entry_src <$> duplicatePages ∅ l) as Hin.
    { rewrite Hd. simpl. left. }
    apply elem_of_duplicatePages in Hin as (j & Hj & [?|(i & Hlt & Hi)]); [set_solver|].
    specialize (Hnd i j _ Hi Hj). lia.
Qed.

Lemma indexed_values (own : list PageEntry) :
  snd <$> omap (λ page, (λ n, (n, page)) <$> arrayIndex (entry_src page)) own
  = filter (λ page, ¬ arrayIndex (entry_src page) = None) own.
Proof.
  induction own as [|page own IH]; [done|].
  rewrite filter_cons. csimpl. destruct (arrayIndex (entry_src page)) as [n|]; csimpl.
  - by rewrite IH.
  - done.
Qed.

Lemma objectValues_Permutation (o : FilteredPages) : objectValues o ≡ₚ fp_own o.
Proof.
  unfold objectValues. rewrite merge_sort_Permutation, indexed_values.
  rewrite (comm (++)). apply filter_app_complement.
Qed.

Lemma elem_of_objectValues (o : FilteredPages) (r : PageEntry) :
  r ∈ objectValues o ↔ r ∈ fp_own o.
Proof. by rewrite objectValues_Permutation. Qed.

Lemma mergeOwn_srcs (filteredPage : PageEntry) (own : list PageEntry) :
  entry_src <$> mergeOwn filteredPage own = entry_src <$> own.
Proof.
  induction own as [|old rest IH]; [done|]. simpl.
  case_decide as Heq; csimpl; [by rewrite Heq|by rewrite IH].
Qed.

Lemma mergeOwn_elem (filteredPage r : PageEntry) (own : list PageEntry) :
  NoDup (entry_src <$> own) → r ∈ mergeOwn filteredPage own →
  (r ∈ own ∧ entry_src r ≠ entry_src filteredPage)
  ∨ (entry_src r = entry_src filteredPage
     ∧ ∃ old, old ∈ own ∧ entry_src old = entry_src filteredPage
              ∧ entry_props r = entry_props filteredPage ∪ entry_props old).
Proof.
  induction own as [|old rest IH]; csimpl; [by intros _ ?%elem_of_nil|].
  intros [Hold Hnd]%NoDup_cons.
  destruct (decide (entry_src old = entry_src filteredPage)) as [Heq|Hne].
  - intros [->|Hin]%elem_of_cons.
    + right. split; [done|]. exists old. split; [left|done].
    + left. split; [by right|]. intros Heq'. apply Hold.
      rewrite Heq, <- Heq'. by apply list_elem_of_fmap_2.
  - intros [->|Hin]%elem_of_cons.
    + left. split; [left|done].
    + destruct (IH Hnd Hin) as [[? ?]|[? (old' & ? & ? & ?)]].
      * left. split; [by right|done].
      * right. split; [done|]. exists old'. split; [by right|done].
Qed.

(** The own properties after one round of the [forEach]. *)
Lemma putFilteredPage_srcs (filteredPage : PageEntry) (o : FilteredPages) :
  entry_src <$> fp_own (putFilteredPage filteredPage o)
  = if decide (entry_src filteredPage ∈ entry_src <$> fp_own o)
    then entry_src <$> fp_own o
    else if decide (entry_src filteredPage = "__proto__"
                    ∧ prototypeProperty o (entry_src filteredPage) = None)
         then entry_src <$> fp_own o
         else (entry_src <$> fp_own o) ++ [entry_src filteredPage].
Proof.
  unfold putFilteredPage. case_decide; simpl; [apply mergeOwn_srcs|].
  case_decide; simpl; [done|]. by rewrite fmap_app.
Qed.

Lemma putFilteredPage_elem (filteredPage r : PageEntry) (o : FilteredPages) :
  NoDup (entry_src <$> fp_own o) →
  r ∈ fp_own (putFilteredPage filteredPage o) →
  (r ∈ fp_own o ∧ entry_src r ≠ entry_src filteredPage)
  ∨ (entry_src r = entry_src filteredPage
     ∧ ((∃ old, old ∈ fp_own o ∧ entry_src old = entry_src filteredPage
                ∧ entry_props r = entry_props filteredPage ∪ entry_props old)
        ∨ ((entry_src filteredPage ∉ entry_src <$> fp_own o)
           ∧ entry_props r
             = entry_props filteredPage
               ∪ delete "src" (inheritedProperties o (entry_src filteredPage))))).
Proof.
  intros Hnd. unfold putFilteredPage. case_decide as Hown; simpl.
  - intros Hin. destruct (mergeOwn_elem _ _ _ Hnd Hin) as [?|[? ?]]; [by left|].
    right. split; [done|]. by left.
  - assert (Hother : r ∈ fp_own o → entry_src r ≠ entry_src filteredPage).
    { intros Hin Heq. apply Hown. rewrite <- Heq. by apply list_elem_of_fmap_2. }
    case_decide; simpl.
    + intros Hin. left. split; [done|by apply Hother].
    + intros [Hin| ->%list_elem_of_singleton]%elem_of_app.
      * left. split; [done|by apply Hother].
      * right. split; [done|]. right. done.
Qed.

Lemma filteredPagesOf_snoc (l : list PageEntry) (page : PageEntry) :
  filteredPagesOf (l ++ [page])
  = putFilteredPage (mkPageEntry (entry_src page) (omitUndefined (entry_props page)))
      (filteredPagesOf l).
Proof. unfold filteredPagesOf. by rewrite foldl_app. Qed.

(** Every path but [__proto__] becomes an own property, once. *)
Lemma filteredPagesOf_keys (l : list PageEntry) :
  NoDup (entry_src <$> fp_own (filteredPagesOf l))
  ∧ (∀ path, path ∈ entry_src <$> fp_own (filteredPagesOf l) → path ∈ entry_src <$> l)
  ∧ (∀ path, path ∈ entry_src <$> l → path ≠ "__proto__" →
             path ∈ entry_src <$> fp_own (filteredPagesOf l)).
Proof.
  induction l as [|page l (Hnd & Hsub & Hall)] using rev_ind.
  - split; [constructor|]. split; [done|]. by intros path ?%elem_of_nil.
  - rewrite filteredPagesOf_snoc, putFilteredPage_srcs. simpl.
    set (own := entry_src <$> fp_own (filteredPagesOf l)) in *.
    assert (Hl : ∀ path, path ∈ entry_src <$> l ++ [page]
                         ↔ path ∈ entry_src <$> l ∨ path = entry_src page).
    { intros path. rewrite fmap_app, elem_of_app. csimpl.
      by rewrite list_elem_of_singleton. }
    case_decide as Hown; [|case_decide as Hproto].
    + split; [done|]. split.
      * intros path Hin. apply Hl. auto.
      * intros path [Hin| ->]%Hl Hne; [by apply Hall|done].
    + destruct Hproto as [Hkey _]. split; [done|]. split.
      * intros path Hin. apply Hl. auto.
      * intros path [Hin| ->]%Hl Hne; [by apply Hall|done].
    + split; [|split].
      * apply NoDup_app. split; [done|]. split; [|apply NoDup_singleton].
        by intros x Hx ->%list_elem_of_singleton.
      * intros path [Hin| ->%list_elem_of_singleton]%elem_of_app; apply Hl; auto.
      * intros path [Hin| ->]%Hl Hne; apply elem_of_app; [left; by apply Hall|].
        right. by apply list_elem_of_singleton.
Qed.

Lemma lookup_omitUndefined (o : gmap string Value) (f : string) :
  omitUndefined o !! f
  = match o !! f with
    | Some v => if decide (v = VUndefined) then None else Some v
    | None => None
    end.
Proof.
  unfold omitUndefined. destruct (o !! f) as [v|] eqn:Hf.
  - case_decide as Hv.
    + apply map_lookup_filter_None. right. intros v' Hv'. simpl. congruence.
    + apply map_lookup_filter_Some. done.
  - apply map_lookup_filter_None. by left.
Qed.

Lemma laterWins_snoc (key f : string) (l : list PageEntry) (page : PageEntry) :
  laterWins key f (l ++ [page]) = laterWinsStep key f (laterWins key f l) page.
Proof. unfold laterWins. by rewrite foldl_app. Qed.

Lemma laterWins_absent (key f : string) (l : list PageEntry) :
  key ∉ entry_src <$> l → laterWins key f l = None.
Proof.
  induction l as [|page l IH] using rev_ind; [done|].
  rewrite fmap_app, not_elem_of_app. intros [Hl Hp].
  rewrite laterWins_snoc, IH by done. unfold laterWinsStep.
  rewrite decide_False; [done|]. intros <-. apply Hp. csimpl. left.
Qed.


(** While no path is [__proto__], the prototype is [Object.prototype] and the
    merge is a shallow merge in which a later non-absent value wins. *)
Lemma filteredPagesOf_plain (l : list PageEntry) :
  "__proto__" ∉ entry_src <$> l →
  fp_prototype (filteredPagesOf l) = None
  ∧ ∀ r f, r ∈ fp_own (filteredPagesOf l) →
           entry_props r !! f = laterWins (entry_src r) f l.
Proof.
  induction l as [|page l IH] using rev_ind; intros Hno.
  - split; [done|]. by intros r f ?%elem_of_nil.
  - rewrite fmap_app, not_elem_of_app in Hno. destruct Hno as [Hl Hpage].
    csimpl in Hpage. rewrite list_elem_of_singleton in Hpage.
    destruct (IH Hl) as [Hproto Hvalues]. rewrite filteredPagesOf_snoc.
    destruct (filteredPagesOf_keys l) as (Hnd & Hsub & Hall). split.
    + unfold putFilteredPage. simpl. case_decide; [done|].
      rewrite decide_False; [done|]. intros [? _]. congruence.
    + intros r f Hin. rewrite laterWins_snoc.
      apply putFilteredPage_elem in Hin; [|done]. simpl in Hin. unfold laterWinsStep.
      destruct Hin as [[Hin Hne]|[Heq [(old & Hold & Hk & Hprops)|[Hnew Hprops]]]].
      * rewrite decide_False by done. by apply Hvalues.
      * rewrite decide_True by done. rewrite Hprops, lookup_union, lookup_omitUndefined.
        rewrite (Hvalues old f Hold), Hk, <- Heq.
        destruct (entry_props page !! f) as [v|]; [|by rewrite (left_id None _)].
        case_decide; [by rewrite (left_id None _)|].
        by destruct (laterWins (entry_src r) f l).
      * rewrite decide_True by done. rewrite Hprops.
        unfold inheritedProperties, prototypeProperty. rewrite Hproto. simpl.
        rewrite decide_False by congruence. rewrite delete_empty, (right_id ∅ _).
        rewrite lookup_omitUndefined.
        assert (Habsent : laterWins (entry_src r) f l = None).
        { apply laterWins_absent. intros Hin. apply Hnew, Hall; [by rewrite <- Heq|].
          congruence. }
        rewrite Habsent. destruct (entry_props page !! f) as [v|]; [|done].
        by case_decide.
Qed.

Lemma protoSafe_app_l (l l' : list PageEntry) : protoSafe (l ++ l') → protoSafe l.
Proof.
  intros Hsafe before page after -> Hkey Hprop later Hin.
  apply (Hsafe before page (after ++ l')); [by rewrite <- app_assoc|done..|].
  apply elem_of_app. by left.
Qed.

(** [__proto__] never becomes an own property when the only entry for that
    path that has a property [__proto__] is the last entry for the path. *)
Lemma filteredPagesOf_protoSafe (l : list PageEntry) :
  protoSafe l →
  ("__proto__" ∉ entry_src <$> fp_own (filteredPagesOf l))
  ∧ (is_Some (prototypeProperty (filteredPagesOf l) "__proto__") →
     ∃ page, page ∈ l ∧ entry_src page = "__proto__"
             ∧ is_Some (entry_props page !! "__proto__")).
Proof.
  induction l as [|page l IH] using rev_ind; intros Hsafe.
  - split; [by intros ?%elem_of_nil|]. by intros [v Hv].
  - destruct (IH (protoSafe_app_l _ _ Hsafe)) as [Hown Hproto].
    rewrite filteredPagesOf_snoc.
    set (o := filteredPagesOf l) in *.
    assert (Hmore : ∀ q, (∃ p, p ∈ l ∧ q p) → ∃ p, p ∈ l ++ [page] ∧ q p).
    { intros q (p & Hp & Hq). exists p. split; [|done]. apply elem_of_app. by left. }
    destruct (decide (entry_src page = "__proto__")) as [Hkey|Hkey].
    + (* the prototype has no property [__proto__] of its own *)
      assert (Hnone : prototypeProperty o "__proto__" = None).
      { destruct (prototypeProperty o "__proto__") as [v|] eqn:Hv; [|done].
        destruct Hproto as (p & Hp & Hpk & Hpp); [by eexists|].
        apply list_elem_of_split in Hp as (before & after & ->).
        exfalso. apply (Hsafe before p (after ++ [page])
                          ltac:(by rewrite <- app_assoc) Hpk Hpp page); [|done].
        apply elem_of_app. right. by apply list_elem_of_singleton. }
      unfold putFilteredPage. simpl. rewrite Hkey.
      rewrite decide_False by done. rewrite decide_True by done. simpl.
      split; [done|]. unfold prototypeProperty, pageProperty. simpl.
      rewrite lookup_union, lookup_omitUndefined.
      unfold inheritedProperties. rewrite Hnone. simpl.
      rewrite lookup_delete_ne by done.
      assert (Hold : from_option entry_props ∅ (fp_prototype o) !! "__proto__" = None).
      { unfold prototypeProperty, pageProperty in Hnone.
        by destruct (fp_prototype o) as [prototype|]. }
      rewrite Hold, (right_id None _). intros Hsome.
      exists page. split; [apply elem_of_app; right; by apply list_elem_of_singleton|].
      split; [done|]. destruct (entry_props page !! "__proto__"); [by eexists|].
      by destruct Hsome.
    + split.
      * rewrite putFilteredPage_srcs. simpl.
        case_decide; [done|]. rewrite decide_False by (by intros [? _]).
        rewrite elem_of_app, list_elem_of_singleton. intros [?|?]; [done|congruence].
      * assert (Hsame : fp_prototype
                          (putFilteredPage
                             (mkPageEntry (entry_src page)
                                (omitUndefined (entry_props page))) o)
                        = fp_prototype o).
        { unfold putFilteredPage. simpl. case_decide; [done|].
          by rewrite decide_False by (by intros [? _]). }
        unfold prototypeProperty in *. rewrite Hsame. intros Hsome.
        apply Hmore. by apply Hproto.
Qed.

(** ** [mergePages] *)

Lemma mergePages_keys (l : list PageEntry) :
  NoDup (entry_src <$> mergePages l)
  ∧ (∀ path, path ∈ entry_src <$> mergePages l → path ∈ entry_src <$> l)
  ∧ (∀ path, path ∈ entry_src <$> l → path ≠ "__proto__" →
             path ∈ entry_src <$> mergePages l).
Proof.
  destruct (filteredPagesOf_keys l) as (Hnd & Hsub & Hall).
  assert (Hperm : entry_src <$> mergePages l
                  ≡ₚ entry_src <$> fp_own (filteredPagesOf l)).
  { unfold mergePages. by rewrite objectValues_Permutation. }
  split; [by rewrite Hperm|]. split.
  - intros path. rewrite Hperm. apply Hsub.
  - intros path. rewrite Hperm. apply Hall.
Qed.

Lemma mergePages_no_proto (l : list PageEntry) :
  protoSafe l → "__proto__" ∉ entry_src <$> mergePages l.
Proof.
  intros Hsafe. unfold mergePages. rewrite objectValues_Permutation.
  by apply filteredPagesOf_protoSafe.
Qed.


(** While no path is [__proto__], [mergePages] is a shallow merge in which a
    later non-absent value wins. *)
Lemma mergePages_laterWins (l : list PageEntry) (r : PageEntry) (f : string) :
  "__proto__" ∉ entry_src <$> l →
  r ∈ mergePages l → entry_props r !! f = laterWins (entry_src r) f l.
Proof.
  intros Hno. unfold mergePages. rewrite elem_of_objectValues.
  by apply filteredPagesOf_plain.
Qed.


Lemma pagesFromGlobs_props (s : Site) (page : PageEntry) (f : string) :
  page ∈ pagesFromGlobs s (siteConfig s) →
  f ≠ "searchable" → f ≠ "layout" → f ≠ "frontmatter" →
  entry_props page !! f = None.
Proof.
  unfold pagesFromGlobs. intros Hin Hs Hl Hf.
  apply list_elem_of_bind in Hin as (spec & Hin & _).
  apply list_elem_of_fmap in Hin as (filePath & -> & _). simpl.
  by rewrite !lookup_insert_ne.
Qed.

Lemma protoSafe_globs_then_src (s : Site) :
  NoDup (entry_src <$> pagesFromSrc (siteConfig s)) →
  protoSafe (pagesFromGlobs s (siteConfig s) ++ pagesFromSrc (siteConfig s)).
Proof.
  intros Hnd before page after Hsplit Hkey Hprop later Hlater Hlk.
  set (globbed := pagesFromGlobs s (siteConfig s)) in *.
  set (explicit := pagesFromSrc (siteConfig s)) in *.
  apply list_elem_of_lookup in Hlater as [k Hk].
  assert (Hi : (globbed ++ explicit) !! length before = Some page).
  { rewrite Hsplit. by rewrite list_lookup_middle. }
  assert (Hj : (globbed ++ explicit) !! (length before + S k) = Some later).
  { rewrite Hsplit, lookup_app_r by lia.
    by replace (length before + S k - length before) with (S k) by lia. }
  destruct (decide (length before < length globbed)) as [Hlt|Hge].
  - rewrite lookup_app_l in Hi by done. apply list_elem_of_lookup_2 in Hi.
    rewrite (pagesFromGlobs_props s page "__proto__") in Hprop by done.
    by destruct Hprop.
  - rewrite lookup_app_r in Hi, Hj by lia.
    pose proof (proj1 (NoDup_alt _) Hnd) as Halt.
    assert (Heq : length before - length globbed
                  = length before + S k - length globbed).
    { apply (Halt _ _ "__proto__"); rewrite list_lookup_fmap.
      - by rewrite Hi, <- Hkey.
      - by rewrite Hj, <- Hlk. }
    lia.
Qed.

(** The paths of the addressable pages: every path found by a glob or given
    as a [src], once, but for the path [__proto__], which gets no page. *)
Lemma collectAddressablePages_keys (s : Site) (addressable : list PageEntry) :
  collectAddressablePages s = inr addressable →
  addressable = mergePages (pagesFromGlobs s (siteConfig s) ++ pagesFromSrc (siteConfig s))
  ∧ NoDup (entry_src <$> pagesFromSrc (siteConfig s))
  ∧ NoDup (entry_src <$> addressable)
  ∧ ("__proto__" ∉ entry_src <$> addressable)
  ∧ ∀ path, path ∈ entry_src <$> addressable
            ↔ path ≠ "__proto__"
              ∧ (path ∈ entry_src <$> pagesFromGlobs s (siteConfig s)
                 ∨ path ∈ entry_src <$> pagesFromSrc (siteConfig s)).
Proof.
  unfold collectAddressablePages. case_decide as Hlen; [done|]. intros [= <-].
  set (globbed := pagesFromGlobs s (siteConfig s)) in *.
  set (explicit := pagesFromSrc (siteConfig s)) in *.
  assert (Hnd : NoDup (entry_src <$> explicit)).
  { apply duplicatePages_nil_iff. apply nil_length_inv. lia. }
  destruct (mergePages_keys (globbed ++ explicit)) as (Hnd' & Hsub & Hall).
  pose proof (mergePages_no_proto _ (protoSafe_globs_then_src s Hnd)) as Hno.
  fold globbed explicit in Hno. split_and!; try done.
  intros path. split.
  - intros Hin. split; [by intros ->|].
    apply Hsub in Hin. by rewrite fmap_app, elem_of_app in Hin.
  - intros [Hne Hin]. apply Hall; [|done]. by rewrite fmap_app, elem_of_app.
Qed.


(** X19: [collectAddressablePages] throws the duplicate error exactly when two
    of the explicit entries, taken one per path, have the same [src]; the
    message then names every such path, once.  Without such a pair it returns
    one addressable page for each distinct path found by a glob or given as
    a [src], but for the path [__proto__], which gets no page. *)
Theorem collectAddressablePages_duplicate_sources (s : Site) :
  let explicit := entry_src <$> pagesFromSrc (siteConfig s) in
  let globbed := entry_src <$> pagesFromGlobs s (siteConfig s) in
  let twice path :=
    ∃ i j, i ≠ j ∧ explicit !! i = Some path ∧ explicit !! j = Some path in
  ((∃ path, twice path)
   ↔ ∃ msg, collectAddressablePages s = inl msg)
  ∧ (∀ msg, collectAddressablePages s = inl msg →
       ∃ offending,
         msg = "Duplicate page entries found in site config: " +:+ join ", " offending
         ∧ NoDup offending ∧ ∀ path, path ∈ offending ↔ twice path)
  ∧ ((¬ ∃ path, twice path) →
       ∃ addressable,
         collectAddressablePages s = inr addressable
         ∧ NoDup (entry_src <$> addressable)
         ∧ ∀ path, path ∈ entry_src <$> addressable
                   ↔ path ≠ "__proto__" ∧ (path ∈ globbed ∨ path ∈ explicit)).
Proof.
  intros explicit globbed twice.
  assert (Hdup : ∀ path,
             path ∈ entry_src <$> duplicatePages ∅ (pagesFromSrc (siteConfig s))
             ↔ twice path).
  { intros path. rewrite elem_of_duplicatePages. unfold twice, explicit. split.
    - intros (j & Hj & [?|(i & ? & Hi)]); [set_solver|].
      exists i, j. split; [lia|done].
    - intros (i & j & Hne & Hi & Hj). destruct (decide (i < j)).
      + exists j. split; [done|]. right. by exists i.
      + exists i. split; [done|]. right. exists j. split; [lia|done]. }
  assert (Hnone : (¬ ∃ path, twice path)
                  ↔ duplicatePages ∅ (pagesFromSrc (siteConfig s)) = []).
  { split.
    - intros Hno. destruct (duplicatePages _ _) as [|e dl] eqn:Hd; [done|].
      destruct Hno. exists (entry_src e). apply Hdup. csimpl. left.
    - intros Hnil (path & Ht). apply Hdup in Ht. rewrite Hnil in Ht.
      by apply elem_of_nil in Ht. }
  destruct (duplicatePages ∅ (pagesFromSrc (siteConfig s))) as [|e dl] eqn:Hd.
  - assert (Hcollect : collectAddressablePages s
                       = inr (mergePages (pagesFromGlobs s (siteConfig s)
                                          ++ pagesFromSrc (siteConfig s)))).
    { unfold collectAddressablePages. rewrite Hd. by rewrite decide_False by (simpl; lia). }
    destruct (collectAddressablePages_keys s _ Hcollect) as (_ & _ & Hnd & _ & Hmem).
    rewrite Hcollect. split; [|split].
    + split; [|by intros [? ?]]. intros Hex. by apply Hnone in Hex.
    + intros msg [=].
    + intros _. eexists; split; [done|]. split; [done|]. exact Hmem.
  - unfold collectAddressablePages. rewrite Hd.
    rewrite decide_True by (simpl; lia). split; [|split].
    + split; [eauto|]. intros _. exists (entry_src e). apply Hdup. csimpl. left.
    + intros msg [= <-]. eexists. split; [done|]. split; [apply NoDup_uniq|].
      intros path. rewrite elem_of_uniq. apply Hdup.
    + intros Hno. apply Hnone in Hno. done.
Qed.

(** ** The world under events *)

Lemma dispatched_cons (a : Action) (tr : list Action) :
  dispatched (a :: tr)
  = dispatched tr ++ match a with ActGenerate page => [page] | _ => [] end.
Proof.
  unfold dispatched. simpl. rewrite omap_app. simpl.
  destruct a; simpl; done.
Qed.

Lemma stopRequested_mono (start start' : nat) (w : World) :
  start ≤ start' → stopRequested start' w = true → stopRequested start w = true.
Proof.
  unfold stopRequested. rewrite !andb_true_iff, !Nat.ltb_lt. intros ? [? ?].
  split; [done|lia].
Qed.

Lemma stopRequested_stopOngoingBuilds (start : nat) (w : World) :
  clockOk w → stopRequested start w = true →
  stopRequested start (stopOngoingBuilds w) = true.
Proof.
  unfold clockOk, stopRequested. simpl. rewrite !andb_true_iff, !Nat.ltb_lt.
  intros ? [? ?]. split; [done|lia].
Qed.

Lemma stopOngoingBuilds_cancels (start : nat) (w : World) :
  backgroundBuildMode (site w) = true → start < clock w →
  stopRequested start (stopOngoingBuilds w) = true.
Proof.
  unfold stopRequested. simpl. intros -> ?. simpl. by apply Nat.ltb_lt.
Qed.

Lemma stopRequested_false_at_clock (w : World) :
  clockOk w → stopRequested (clock w) w = false.
Proof.
  unfold clockOk, stopRequested. intros ?.
  apply andb_false_iff. right. apply Nat.ltb_ge. lia.
Qed.

(** ** [generatePagesAsyncThrottled] *)

Lemma callGeneratePage_dispatches (page : Page) (w : World) (pl : Pool) :
  stopRequested (startTime pl) w = false →
  callGeneratePage page (w, pl)
  = (act (ActGenerate page) w,
     setInFlight (inFlight pl ++ [(page, AwaitGenerate)]) pl).
Proof. intros Hgo. unfold callGeneratePage. by rewrite Hgo. Qed.

Lemma generatePagesAsyncThrottled_first_from (l : list Page) (w : World) (pl : Pool) :
  stopRequested (startTime pl) w = false →
  foldl (λ st page, callGeneratePage page st) (w, pl) l
  = (mkWorld (site w) (clock w) (rev (ActGenerate <$> l) ++ trace w),
     setInFlight (inFlight pl ++ ((λ page, (page, AwaitGenerate)) <$> l)) pl).
Proof.
  revert w pl. induction l as [|page l IH]; intros w pl Hgo.
  - simpl. rewrite app_nil_r. by destruct w, pl.
  - cbn [foldl]. rewrite callGeneratePage_dispatches by done. rewrite IH by done. simpl.
    f_equal.
    + f_equal. by rewrite <- app_assoc.
    + unfold setInFlight. simpl. f_equal. by rewrite <- app_assoc.
Qed.

(** The executor dispatches the first [MAX_CONCURRENT_PAGE_GENERATION_PROMISES]
    pages, in order, and leaves the others queued. *)
Lemma generatePagesAsyncThrottled_first (pages : list Page) (w : World) :
  clockOk w →
  generatePagesAsyncThrottled pages w
  = (mkWorld (site w) (clock w)
       (rev (ActGenerate <$> take MAX_CONCURRENT_PAGE_GENERATION_PROMISES pages) ++ trace w),
     mkPool (clock w) 0 (length pages) true
       (drop MAX_CONCURRENT_PAGE_GENERATION_PROMISES pages)
       ((λ page, (page, AwaitGenerate))
          <$> take MAX_CONCURRENT_PAGE_GENERATION_PROMISES pages)
       None).
Proof.
  intros Hok. unfold generatePagesAsyncThrottled.
  rewrite generatePagesAsyncThrottled_first_from; [done|].
  simpl. by apply stopRequested_false_at_clock.
Qed.

Lemma dispatched_app_generate (l : list Page) (tr : list Action) :
  dispatched (rev (ActGenerate <$> l) ++ tr) = dispatched tr ++ l.
Proof.
  induction l as [|page l IH] using rev_ind; simpl.
  - by rewrite app_nil_r.
  - rewrite fmap_app, rev_app_distr. simpl. rewrite dispatched_cons, IH.
    by rewrite <- app_assoc.
Qed.

Lemma poolInv_start (pages : list Page) (w : World) :
  clockOk w →
  poolInv pages (dispatched (trace w)) (generatePagesAsyncThrottled pages w).
Proof.
  intros Hok. rewrite generatePagesAsyncThrottled_first by done.
  unfold poolInv. simpl.
  split; [done|]. split; [done|]. split.
  { rewrite take_ge; [done|]. lia. }
  split.
  { rewrite dispatched_app_generate. rewrite drop_ge; [|lia].
    simpl. by rewrite app_nil_r. }
  rewrite length_fmap, length_take, length_drop.
  split; [lia|]. split; [lia|]. split; [done|]. split; [|done].
  intros _ Hn. lia.
Qed.

Lemma stopRequested_sameSchedule (start : nat) (w w' : World) :
  sameSchedule w w' → stopRequested start w' = stopRequested start w.
Proof. intros (Hbg & Hth & _). unfold stopRequested. by rewrite Hbg, Hth. Qed.

Lemma sameSchedule_refl (w : World) : sameSchedule w w.
Proof. done. Qed.

Lemma sameSchedule_generated (page : Page) (w : World) :
  sameSchedule w (toRebuild_delete (normalizedSource page) (act (ActGenerated page) w)).
Proof.
  unfold sameSchedule. simpl. repeat split.
  rewrite !dispatched_cons. simpl. by rewrite !app_nil_r.
Qed.

Lemma last_take_drop_S {A} (l : list A) (m : nat) (x : A) :
  last (take (S m) l) = Some x → S m ≤ length l →
  removelast (take (S m) l) = take m l ∧ drop m l = x :: drop (S m) l.
Proof.
  intros Hlast Hm.
  assert (Hx : l !! m = Some x).
  { rewrite last_lookup, length_take, Nat.min_l in Hlast by done.
    simpl in Hlast. by rewrite lookup_take_lt in Hlast by lia. }
  split.
  - rewrite (take_S_r _ _ _ Hx). apply removelast_last.
  - by apply drop_S.
Qed.

(** Closes the clauses of [poolInv]: cases on what [settle] did to the
    promise, then arithmetic on the counters. *)
Local Ltac pool_clause :=
  intros; simpl in *;
  repeat match goal with
    | H : context [settle _ ?p] |- _ => destruct p eqn:?; simpl in H
    | |- context [settle _ ?p] => destruct p eqn:?; simpl
    | H : context [decide ?P] |- _ => destruct (decide P)
    | |- context [decide ?P] => destruct (decide P)
    end;
  simplify_eq;
  repeat match goal with
    | H : ?x = ?x → _ |- _ => specialize (H eq_refl)
    | H : ∀ r, Some ?s = Some r → _ |- _ => specialize (H s eq_refl)
    | H : ?P → _, H' : ?P |- _ => specialize (H H')
    end;
  destruct_and?;
  try done; try lia; try congruence.

(** A callback that has come back from its [await]s reports to
    [generateProgressBarStatus]. *)
Lemma poolInv_progress (pages before : list Page) (w w' : World) (pl : Pool)
    (i : nat) (x : Page * Await) :
  poolInv pages before (w, pl) → inFlight pl !! i = Some x → sameSchedule w w' →
  poolInv pages before
    (generateProgressBarStatus (w', setInFlight (delete i (inFlight pl)) pl)).
Proof.
  intros (Hok & HN & Hq & Hd & Hacc & HK & Hnone & HnoneN & Htrue & Hfalse & Hstrict)
    Hi Hsame.
  simpl in *.
  assert (Hlen : length (delete i (inFlight pl)) = length (inFlight pl) - 1)
    by (apply length_delete; eauto).
  assert (Hpos : 0 < length (inFlight pl)) by (apply lookup_lt_Some in Hi; lia).
  pose proof (stopRequested_sameSchedule (startTime pl) _ _ Hsame) as Hstop.
  destruct Hsame as (Hbg & Hth & Hclk & Htr).
  assert (Hok' : clockOk w') by (unfold clockOk in *; lia).
  unfold generateProgressBarStatus. cbn [setInFlight startTime numPagesGenerated
    numPagesToGenerate isCompleted pageGenerationQueue inFlight promise].
  destruct (stopRequested (startTime pl) w') eqn:Hguard.
  - (* the post-generate guard *)
    unfold stopPool, poolInv, setInFlight. simpl.
    destruct (isCompleted pl) eqn:Hc; simpl; rewrite Htr, Hlen;
      repeat split; pool_clause.
  - destruct (last (pageGenerationQueue pl)) as [page|] eqn:Hlast.
    + (* one replacement, from the tail of the queue *)
      destruct (length (pageGenerationQueue pl)) as [|m] eqn:Hm.
      { apply nil_length_inv in Hm. by rewrite Hm in Hlast. }
      assert (Hm' : S m ≤ length (drop MAX_CONCURRENT_PAGE_GENERATION_PROMISES pages)).
      { rewrite Hq in Hm. rewrite length_take in Hm. lia. }
      rewrite Hq in Hlast.
      destruct (last_take_drop_S _ _ _ Hlast Hm') as [Hrm Hdrop].
      assert (Hm'' : length (take m (drop MAX_CONCURRENT_PAGE_GENERATION_PROMISES pages)) = m).
      { rewrite length_take. lia. }
      unfold poolInv. simpl. rewrite Hq, Hrm, Hm'', dispatched_cons, Htr, Hd, Hdrop.
      rewrite length_app, Hlen. simpl.
      repeat split; pool_clause.
      by rewrite <- !app_assoc.
    + (* the queue is empty *)
      unfold poolInv. simpl. rewrite Htr, Hlen.
      repeat split; pool_clause.
Qed.

Lemma poolInv_step (pages before : list Page) (st : World * Pool) (e : Event) :
  poolInv pages before st → poolInv pages before (poolStep st e).
Proof.
  destruct st as [w pl]. intros Hinv.
  destruct e as [d| |i|i|i]; simpl.
  - (* the clock *)
    destruct Hinv as (Hok & ? & ? & ? & ? & ? & ? & ? & ? & ? & ?).
    unfold poolInv, clockOk in *. simpl in *. repeat split; pool_clause.
  - (* stopOngoingBuilds *)
    destruct Hinv as (Hok & ? & ? & ? & ? & ? & ? & ? & ? & Hfalse & ?).
    unfold poolInv in *. simpl in *. repeat split; pool_clause.
    + unfold clockOk. simpl. lia.
    + by apply stopRequested_stopOngoingBuilds.
  - destruct (inFlight pl !! i) as [[page []]|] eqn:Hi; try done.
    destruct (backgroundBuildMode (site w)).
    + destruct Hinv as (Hok & ? & ? & Hd & ? & ? & ? & ? & ? & Hfalse & ?).
      unfold poolInv in *. simpl in *.
      rewrite !dispatched_cons, length_insert. simpl. rewrite !app_nil_r.
      repeat split; pool_clause.
    + eapply poolInv_progress; [done|done|]. apply sameSchedule_generated.
  - destruct (inFlight pl !! i) as [[page []]|] eqn:Hi; try done.
    destruct Hinv as (Hok & ? & ? & Hd & ? & ? & ? & ? & ? & Hfalse & ?).
    assert (Hlen : length (delete i (inFlight pl)) = length (inFlight pl) - 1)
      by (apply length_delete; eauto).
    assert (Hpos : 0 < length (inFlight pl)) by (apply lookup_lt_Some in Hi; lia).
    unfold poolInv in *. simpl in *.
    rewrite dispatched_cons, Hlen. simpl. rewrite app_nil_r.
    repeat split; pool_clause.
  - destruct (inFlight pl !! i) as [[page []]|] eqn:Hi; try done.
    eapply poolInv_progress; [done|done|]. apply sameSchedule_refl.
Qed.

Lemma poolInv_run (pages before : list Page) (st : World * Pool) (events : list Event) :
  poolInv pages before st → poolInv pages before (run poolStep st events).
Proof.
  revert st. induction events as [|e events IH]; intros st Hinv; [done|].
  simpl. apply IH. by apply poolInv_step.
Qed.

Lemma poolAccount_progress (w : World) (pl : Pool) :
  (promise pl = None → isCompleted pl = true) →
  (promise pl = None →
   numPagesGenerated pl + length (inFlight pl) + length (pageGenerationQueue pl) + 1
   = numPagesToGenerate pl) →
  poolAccountInv (generateProgressBarStatus (w, pl)).
Proof.
  intros Hc Hacc. unfold generateProgressBarStatus, poolAccountInv.
  destruct (stopRequested (startTime pl) w) eqn:Hstop.
  - unfold stopPool. destruct (isCompleted pl) eqn:Hcompleted; simpl.
    + by destruct (promise pl).
    + intros Hp. specialize (Hc Hp). congruence.
  - destruct (last (pageGenerationQueue pl)) as [page|] eqn:Hlast.
    + apply last_Some in Hlast as [queue Hq].
      rewrite callGeneratePage_dispatches by done. simpl. intros Hp.
      specialize (Hacc Hp). rewrite Hq, removelast_last.
      rewrite Hq, length_app in Hacc. rewrite length_app. simpl in *. lia.
    + apply last_None in Hlast. simpl. rewrite Hlast in *. simpl in *.
      case_decide as Hn.
      * destruct (promise pl); done.
      * intros Hp. specialize (Hacc Hp). lia.
Qed.

Lemma poolAccount_step (pages before : list Page) (st : World * Pool) (e : Event) :
  poolInv pages before st → poolAccountInv st → poolAccountInv (poolStep st e).
Proof.
  destruct st as [w pl].
  intros (_ & _ & _ & _ & _ & _ & Hnone & _) Hinv.
  cbn [fst snd] in Hnone. unfold poolAccountInv in Hinv. cbn [fst snd] in Hinv.
  assert (Hdel : ∀ i x, inFlight pl !! i = Some x →
            length (delete i (inFlight pl)) + 1 = length (inFlight pl)).
  { intros i x Hi. rewrite length_delete by (by eexists).
    apply lookup_lt_Some in Hi. lia. }
  unfold poolStep. destruct e as [d| |i|i|i]; try done.
  - destruct (inFlight pl !! i) as [[page [| ]]|] eqn:Hi; try done.
    destruct (backgroundBuildMode (site w)).
    + unfold poolAccountInv. simpl. rewrite length_insert. done.
    + apply poolAccount_progress; simpl; [done|].
      intros Hp. specialize (Hinv Hp). specialize (Hdel i _ Hi). lia.
  - destruct (inFlight pl !! i) as [[page [| ]]|] eqn:Hi; try done.
    unfold poolAccountInv. simpl. by destruct (promise pl).
  - destruct (inFlight pl !! i) as [[page [| ]]|] eqn:Hi; try done.
    apply poolAccount_progress; simpl; [done|].
    intros Hp. specialize (Hinv Hp). specialize (Hdel i _ Hi). lia.
Qed.

Lemma poolAccount_start (pages : list Page) (w : World) :
  clockOk w → poolAccountInv (generatePagesAsyncThrottled pages w).
Proof.
  intros Hok. rewrite generatePagesAsyncThrottled_first by done.
  intros _. simpl. rewrite length_fmap, length_take, length_drop. lia.
Qed.

Lemma poolAccount_run (pages before : list Page) (st : World * Pool)
    (events : list Event) :
  poolInv pages before st → poolAccountInv st →
  poolAccountInv (run poolStep st events).
Proof.
  revert st. induction events as [|e events IH]; intros st Hinv Hc; [done|].
  simpl. apply IH; [by apply poolInv_step|by eapply poolAccount_step].
Qed.


(** *** Every page of a task that resolves to [true] has been generated *)

Lemma poolGenerated_progress (pages : list Page) (w0 w : World) (pl : Pool) :
  (promise pl = Some (Resolved true) → pageGenerationQueue pl = []) →
  poolGeneratedInv pages w0 (w, pl) →
  poolGeneratedInv pages w0 (generateProgressBarStatus (w, pl)).
Proof.
  intros Htrue (new & Htr & Hinv). cbn [fst snd] in Htr, Hinv.
  unfold generateProgressBarStatus.
  destruct (stopRequested (startTime pl) w) eqn:Hstop.
  - exists new. split; [done|]. unfold stopPool. cbn [fst snd].
    destruct (isCompleted pl) eqn:Hc; simpl; [|done].
    destruct (promise pl) as [r|] eqn:Hp; simpl; [done|]. intros [?|?]; done.
  - destruct (last (pageGenerationQueue pl)) as [page|] eqn:Hlast.
    + rewrite callGeneratePage_dispatches by done.
      exists (ActGenerate page :: new). split; [simpl; by rewrite Htr|].
      cbn [fst snd setInFlight promise pageGenerationQueue inFlight]. intros Hp p Hin.
      assert (Hp' : promise pl = None).
      { destruct Hp as [?|Hp]; [done|]. specialize (Htrue Hp).
        rewrite Htrue in Hlast. done. }
      destruct (Hinv (or_introl Hp') p Hin) as [Hq|[Hf|Hk]].
      * destruct (pageGenerationQueue pl) as [|x l] using rev_ind; [done|].
        rewrite last_snoc in Hlast. injection Hlast as ->.
        rewrite removelast_last.
        apply elem_of_app in Hq as [?|Hq]; [by left|].
        apply list_elem_of_singleton in Hq as ->.
        right. left. rewrite elem_of_app, list_elem_of_singleton. by right.
      * right. left. rewrite elem_of_app. by left.
      * right. right. by right.
    + exists new. split; [done|]. cbn [fst snd promise pageGenerationQueue inFlight].
      intros Hp p Hin.
      assert (Hp' : promise pl = None ∨ promise pl = Some (Resolved true)).
      { destruct (promise pl) as [r|]; [|by left]. right.
        simpl in Hp. case_decide; simpl in Hp; destruct Hp; done. }
      apply (Hinv Hp' p Hin).
Qed.

Lemma poolGenerated_step (pages before : list Page) (w0 : World) (st : World * Pool)
    (e : Event) :
  poolInv pages before st → poolGeneratedInv pages w0 st →
  poolGeneratedInv pages w0 (poolStep st e).
Proof.
  destruct st as [w pl].
  intros (_ & _ & _ & _ & Hacc & _ & Hnone & _ & Htrue & _) Hinv.
  cbn [fst snd] in Hacc, Hnone, Htrue.
  assert (Hq : promise pl = Some (Resolved true) → pageGenerationQueue pl = []).
  { intros Hp. destruct (Htrue Hp). apply nil_length_inv. lia. }
  assert (Hf : promise pl = Some (Resolved true) → inFlight pl = []).
  { intros Hp. destruct (Htrue Hp). apply nil_length_inv. lia. }
  unfold poolStep. destruct e as [d| |i|i|i]; try done.
  - destruct (inFlight pl !! i) as [[page [| ]]|] eqn:Hi; try done.
    assert (Hmid : ∀ l, (∀ p j, inFlight pl !! j = Some (p, AwaitGenerate) → j ≠ i →
                           (p, AwaitGenerate) ∈ l) →
              poolGeneratedInv pages w0
                (toRebuild_delete (normalizedSource page) (act (ActGenerated page) w),
                 setInFlight l pl)).
    { intros l Hl. destruct Hinv as (new & Htr & Hinv). cbn [fst snd] in Htr, Hinv.
      exists (ActDelete (normalizedSource page) :: ActGenerated page :: new).
      split; [simpl; by rewrite Htr|].
      cbn [fst snd setInFlight promise pageGenerationQueue inFlight]. intros Hp p Hin.
      destruct (Hinv Hp p Hin) as [?|[Hfl|Hk]]; [by left| |].
      - apply list_elem_of_lookup_1 in Hfl as [j Hj].
        destruct (decide (j = i)) as [->|Hne].
        + rewrite Hi in Hj. injection Hj as ->. right. right. right. left.
        + right. left. by eapply Hl.
      - right. right. right. by right. }
    destruct (backgroundBuildMode (site w)).
    + apply Hmid. intros p j Hj Hne.
      apply list_elem_of_lookup. exists j.
      by rewrite list_lookup_insert_ne.
    + apply poolGenerated_progress; [done|].
      apply Hmid. intros p j Hj Hne.
      apply list_elem_of_lookup.
      destruct (decide (j < i)).
      * exists j. by rewrite list_lookup_delete_lt.
      * exists (j - 1). rewrite list_lookup_delete_ge by lia.
        by replace (S (j - 1)) with j by lia.
  - destruct (inFlight pl !! i) as [[page [| ]]|] eqn:Hi; try done.
    destruct Hinv as (new & Htr & Hinv). cbn [fst snd] in Htr, Hinv.
    exists (ActGenerateFailed page :: new). split; [simpl; by rewrite Htr|].
    cbn [fst snd promise]. intros Hp p Hin.
    destruct (promise pl) as [r|] eqn:Hpl; simpl in Hp.
    + destruct Hp as [?|Hp]; [done|]. rewrite Hp in Hf. rewrite Hf in Hi; [done|done].
    + destruct Hp; done.
  - destruct (inFlight pl !! i) as [[page [| ]]|] eqn:Hi; try done.
    apply poolGenerated_progress; [done|].
    destruct Hinv as (new & Htr & Hinv). cbn [fst snd] in Htr, Hinv.
    exists new. split; [done|].
    cbn [fst snd setInFlight promise pageGenerationQueue inFlight]. intros Hp p Hin.
    destruct (Hinv Hp p Hin) as [?|[Hfl|Hk]]; [by left| |by right; right].
    right. left.
    apply list_elem_of_lookup_1 in Hfl as [j Hj].
    apply list_elem_of_lookup.
    destruct (decide (j < i)).
    + exists j. by rewrite list_lookup_delete_lt.
    + assert (j ≠ i) by (intros ->; congruence).
      exists (j - 1). rewrite list_lookup_delete_ge by lia.
      by replace (S (j - 1)) with j by lia.
Qed.

Lemma poolGenerated_start (pages : list Page) (w : World) :
  clockOk w → poolGeneratedInv pages w (generatePagesAsyncThrottled pages w).
Proof.
  intros Hok. rewrite generatePagesAsyncThrottled_first by done.
  eexists. split; [done|]. intros _ page Hin. simpl.
  rewrite <- (take_drop MAX_CONCURRENT_PAGE_GENERATION_PROMISES pages) in Hin.
  apply elem_of_app in Hin as [Hin|Hin]; [|by left].
  right. left. apply list_elem_of_fmap. by exists page.
Qed.

Lemma poolGenerated_run (pages before : list Page) (w0 : World) (st : World * Pool)
    (events : list Event) :
  poolInv pages before st → poolGeneratedInv pages w0 st →
  poolGeneratedInv pages w0 (run poolStep st events).
Proof.
  revert st. induction events as [|e events IH]; intros st Hinv Hc; [done|].
  simpl. apply IH; [by apply poolInv_step|by eapply poolGenerated_step].
Qed.

(** *** A task rejects only when a [generate] call fails *)

Lemma rejected_stopPool (pl : Pool) (msg : string) :
  promise (stopPool pl) = Some (Rejected msg) → promise pl = Some (Rejected msg).
Proof.
  unfold stopPool. destruct (isCompleted pl); [|done]. simpl.
  by destruct (promise pl).
Qed.

Lemma rejected_callGeneratePage (page : Page) (st : World * Pool) (msg : string) :
  promise (callGeneratePage page st).2 = Some (Rejected msg) →
  promise st.2 = Some (Rejected msg).
Proof.
  destruct st as [w pl]. unfold callGeneratePage.
  destruct (stopRequested (startTime pl) w); [apply rejected_stopPool|done].
Qed.

Lemma rejected_generateProgressBarStatus (st : World * Pool) (msg : string) :
  promise (generateProgressBarStatus st).2 = Some (Rejected msg) →
  promise st.2 = Some (Rejected msg).
Proof.
  destruct st as [w pl]. unfold generateProgressBarStatus.
  destruct (stopRequested (startTime pl) w); [apply rejected_stopPool|].
  destruct (last (pageGenerationQueue pl)) as [page|].
  - intros Hr. by apply rejected_callGeneratePage in Hr.
  - simpl. case_decide; [|done]. by destruct (promise pl).
Qed.

Lemma rejected_poolStep (st : World * Pool) (e : Event) (msg : string) :
  isGenerateFailed e = false →
  promise (poolStep st e).2 = Some (Rejected msg) → promise st.2 = Some (Rejected msg).
Proof.
  destruct st as [w pl]. unfold poolStep. destruct e as [d| |i|i|i]; try done; intros _.
  - destruct (inFlight pl !! i) as [[page [| ]]|]; try done.
    destruct (backgroundBuildMode (site w)); [done|].
    intros Hr. by apply rejected_generateProgressBarStatus in Hr.
  - destruct (inFlight pl !! i) as [[page [| ]]|]; try done.
    intros Hr. by apply rejected_generateProgressBarStatus in Hr.
Qed.

Lemma rejected_run (st : World * Pool) (events : list Event) (msg : string) :
  promise (run poolStep st events).2 = Some (Rejected msg) →
  promise st.2 = Some (Rejected msg) ∨ ∃ e, e ∈ events ∧ isGenerateFailed e = true.
Proof.
  revert st. induction events as [|e events IH]; intros st; [by left|].
  simpl. intros Hr. destruct (isGenerateFailed e) eqn:He.
  - right. exists e. split; [left|done].
  - destruct (IH _ Hr) as [Hst|(e' & Hin & He')].
    + left. by eapply rejected_poolStep.
    + right. exists e'. split; [by right|done].
Qed.

(** *** The refill *)

(** A callback that reaches its end while nobody has stopped the task counts
    its page and calls the callback at the tail of the queue, if any. *)
Lemma generateProgressBarStatus_refill (w : World) (pl : Pool) :
  stopRequested (startTime pl) w = false →
  let st' := generateProgressBarStatus (w, pl) in
  let next := option_list (last (pageGenerationQueue pl)) in
  numPagesGenerated st'.2 = numPagesGenerated pl + 1
  ∧ pageGenerationQueue st'.2 = removelast (pageGenerationQueue pl)
  ∧ inFlight st'.2 = inFlight pl ++ ((λ page, (page, AwaitGenerate)) <$> next)
  ∧ dispatched (trace st'.1) = dispatched (trace w) ++ next
  ∧ (pageGenerationQueue pl = [] → numPagesGenerated pl + 1 = numPagesToGenerate pl →
     promise pl = None → promise st'.2 = Some (Resolved true)).
Proof.
  intros Hstop st' next. subst st' next. unfold generateProgressBarStatus. rewrite Hstop.
  destruct (last (pageGenerationQueue pl)) as [page|] eqn:Hlast.
  - rewrite callGeneratePage_dispatches by done. simpl.
    rewrite dispatched_cons. simpl. split_and!; try done.
    intros Hnil. by rewrite Hnil in Hlast.
  - apply last_None in Hlast. simpl. rewrite Hlast. simpl.
    rewrite !app_nil_r. split_and!; try done.
    intros _ Hn Hp. rewrite decide_True by lia. by rewrite Hp.
Qed.


(** A callback that reaches its end after the task was stopped calls no
    other callback; the first one to do so resolves the task to [false]. *)
Lemma generateProgressBarStatus_stopped (w : World) (pl : Pool) :
  stopRequested (startTime pl) w = true → isCompleted pl = true → promise pl = None →
  let st' := generateProgressBarStatus (w, pl) in
  promise st'.2 = Some (Resolved false)
  ∧ pageGenerationQueue st'.2 = pageGenerationQueue pl
  ∧ trace st'.1 = trace w.
Proof.
  intros Hstop Hc Hp st'. subst st'. unfold generateProgressBarStatus, stopPool.
  rewrite Hstop, Hc. simpl. by rewrite Hp.
Qed.

(** C4: a concurrent task over [pages] first dispatches the first
    [MAX_CONCURRENT_PAGE_GENERATION_PROMISES] pages, in order; whatever
    happens next, never more than that many callbacks are suspended; the
    pages dispatched so far are the first ones followed by pages taken from
    the tail of the queue, the last page first, the queue holding the pages
    in between: a callback that reaches its end while the task is not
    stopped counts its page and calls the callback at the tail of the queue,
    if there is one, and no other; one that reaches its end after a stop
    calls none and resolves the pending task to [false].  The promise
    resolves to [true] at the very step in which the count of generated pages
    reaches the number of pages, and then every page has been dispatched and
    generated and no callback is left.  Conversely, once a task that has a
    page has no callback left, queued or suspended, it is settled: resolved
    to [true], unless it was stopped or a [generate] call failed. *)
Theorem generatePagesAsyncThrottled_pool (pages : list Page) (w : World)
    (events : list Event) (e : Event) :
  clockOk w →
  let K := MAX_CONCURRENT_PAGE_GENERATION_PROMISES in
  let st0 := generatePagesAsyncThrottled pages w in
  let st := run poolStep st0 events in
  let st' := poolStep st e in
  let queued := length (pageGenerationQueue st.2) in
  let completes i :=
    (e = EvSiteDataWritten i
     ∧ ∃ page, inFlight st.2 !! i = Some (page, AwaitWriteSiteData))
    ∨ (e = EvGenerated i ∧ backgroundBuildMode (site st.1) = false
       ∧ ∃ page, inFlight st.2 !! i = Some (page, AwaitGenerate)) in
  (dispatched (trace st0.1) = dispatched (trace w) ++ take K pages
   ∧ inFlight st0.2 = (λ page, (page, AwaitGenerate)) <$> take K pages
   ∧ pageGenerationQueue st0.2 = drop K pages)
  ∧ length (inFlight st.2) ≤ K
  ∧ (pageGenerationQueue st.2 = take queued (drop K pages)
     ∧ dispatched (trace st.1)
       = dispatched (trace w) ++ take K pages ++ rev (drop queued (drop K pages)))
  ∧ (∀ i, completes i → stopRequested (startTime st.2) st.1 = false →
       let next := option_list (last (pageGenerationQueue st.2)) in
       numPagesGenerated st'.2 = numPagesGenerated st.2 + 1
       ∧ pageGenerationQueue st'.2 = removelast (pageGenerationQueue st.2)
       ∧ inFlight st'.2
         = delete i (inFlight st.2) ++ ((λ page, (page, AwaitGenerate)) <$> next)
       ∧ dispatched (trace st'.1) = dispatched (trace st.1) ++ next)
  ∧ (∀ i, completes i → stopRequested (startTime st.2) st.1 = true →
       promise st.2 = None →
       promise st'.2 = Some (Resolved false)
       ∧ pageGenerationQueue st'.2 = pageGenerationQueue st.2
       ∧ dispatched (trace st'.1) = dispatched (trace st.1))
  ∧ ((promise st.2 ≠ Some (Resolved true) ∧ promise st'.2 = Some (Resolved true))
     ↔ (numPagesGenerated st.2 < length pages
        ∧ numPagesGenerated st'.2 = length pages))
  ∧ (promise st.2 = Some (Resolved true) →
       pages ≠ [] ∧ numPagesGenerated st.2 = length pages
       ∧ inFlight st.2 = [] ∧ pageGenerationQueue st.2 = []
       ∧ dispatched (trace st.1)
         = dispatched (trace w) ++ take K pages ++ rev (drop K pages)
       ∧ ∃ new, trace st.1 = new ++ trace w
                ∧ ∀ page, page ∈ pages → ActGenerated page ∈ new)
  ∧ (pages ≠ [] → inFlight st.2 = [] → pageGenerationQueue st.2 = [] →
       promise st.2 = Some (Resolved true)
       ∨ (promise st.2 = Some (Resolved false)
          ∧ stopRequested (startTime st.2) st.1 = true)
       ∨ (∃ msg failed, promise st.2 = Some (Rejected msg)
                        ∧ failed ∈ events ∧ isGenerateFailed failed = true)).
Proof.
  intros Hok K st0 st st' queued completes.
  pose proof (poolInv_start pages w Hok) as Hinv0. fold st0 in Hinv0.
  pose proof (poolInv_run _ _ _ events Hinv0) as Hinv. fold st in Hinv.
  pose proof (poolInv_step _ _ _ e Hinv) as Hinv'. fold st' in Hinv'.
  pose proof (poolAccount_run _ _ _ events Hinv0 (poolAccount_start pages w Hok)) as Hcount.
  fold st0 st in Hcount.
  pose proof (poolGenerated_run _ _ w _ events Hinv0 (poolGenerated_start pages w Hok))
    as (new & Hnew & Hgen).
  fold st0 st in Hnew, Hgen.
  destruct Hinv as (_ & HN & Hq & Hd & Hacc & HK & Hnone & HnoneN & Htrue & Hfalse & Hstrict).
  destruct Hinv' as (_ & _ & _ & _ & Hacc' & _ & _ & HnoneN' & Htrue' & _ & Hstrict').
  fold K in Hq, Hd, HK. fold queued in Hq, Hd.
  assert (Hend : ∀ i, completes i →
            st' = generateProgressBarStatus
                    (match e with
                     | EvGenerated _ =>
                         match inFlight st.2 !! i with
                         | Some (page, _) =>
                             toRebuild_delete (normalizedSource page)
                               (act (ActGenerated page) st.1)
                         | None => st.1
                         end
                     | _ => st.1
                     end,
                     setInFlight (delete i (inFlight st.2)) st.2)).
  { intros i [[-> [page Hi]]|(-> & Hfg & [page Hi])]; subst st'; destruct st as [w1 pl];
      cbn [fst snd] in *; unfold poolStep; rewrite Hi; [done|]. by rewrite Hfg. }
  assert (Hsame : ∀ i, completes i →
            let w1 := match e with
                      | EvGenerated _ =>
                          match inFlight st.2 !! i with
                          | Some (page, _) =>
                              toRebuild_delete (normalizedSource page)
                                (act (ActGenerated page) st.1)
                          | None => st.1
                          end
                      | _ => st.1
                      end in
            stopRequested (startTime st.2) w1 = stopRequested (startTime st.2) st.1
            ∧ dispatched (trace w1) = dispatched (trace st.1)).
  { intros i [[-> _]|(-> & _ & [page Hi])]; [done|]. rewrite Hi. simpl.
    split; [done|]. rewrite !dispatched_cons. simpl. by rewrite !app_nil_r. }
  split; [|split; [|split; [|split; [|split; [|split; [|split]]]]]].
  - unfold st0. rewrite generatePagesAsyncThrottled_first by done. simpl.
    by rewrite dispatched_app_generate.
  - done.
  - done.
  - intros i Hi Hstop next. rewrite (Hend i Hi).
    destruct (Hsame i Hi) as [Hstop' Hd'].
    destruct (generateProgressBarStatus_refill _
                (setInFlight (delete i (inFlight st.2)) st.2)
                ltac:(simpl; by rewrite Hstop', Hstop))
      as (Hn & Hqueue & Hfl & Hdisp & _).
    cbn [setInFlight numPagesGenerated pageGenerationQueue inFlight] in Hn, Hqueue, Hfl, Hdisp.
    rewrite Hn, Hqueue, Hfl, Hdisp, Hd'. done.
  - intros i Hi Hstop Hp. rewrite (Hend i Hi).
    destruct (Hsame i Hi) as [Hstop' Hd'].
    destruct (generateProgressBarStatus_stopped _
                (setInFlight (delete i (inFlight st.2)) st.2)
                ltac:(simpl; by rewrite Hstop', Hstop) (Hnone Hp) Hp)
      as (Hfalse' & Hqueue & Htrace).
    rewrite Hfalse', Hqueue, Htrace, Hd'. done.
  - split.
    + intros [Hno Hyes]. destruct (Htrue' Hyes) as [? ?]. split; [|done].
      destruct (decide (numPagesGenerated st.2 = length pages)) as [Heq|]; [|lia].
      destruct (promise st.2) as [r|] eqn:Hp.
      * assert (r ≠ Resolved true) as Hr by congruence.
        specialize (Hstrict r eq_refl Hr). lia.
      * specialize (HnoneN eq_refl Heq). lia.
    + intros [Hlt Heq]. split.
      * intros Hp. destruct (Htrue Hp). lia.
      * destruct (promise st'.2) as [r|] eqn:Hp'.
        -- destruct (decide (r = Resolved true)) as [->|Hr]; [done|].
           specialize (Hstrict' r eq_refl Hr). lia.
        -- specialize (HnoneN' eq_refl Heq). lia.
  - intros Hp. destruct (Htrue Hp) as [Heq Hpos].
    assert (Hin : length (inFlight st.2) = 0) by lia.
    assert (Hqu : queued = 0) by (unfold queued; lia).
    assert (Hfl : inFlight st.2 = []) by (by apply nil_length_inv).
    assert (Hqe : pageGenerationQueue st.2 = []) by (by apply nil_length_inv).
    split_and!; try done.
    + intros ->. simpl in Hpos. lia.
    + by rewrite Hd, Hqu.
    + exists new. split; [done|]. intros page Hpage.
      destruct (Hgen (or_intror Hp) page Hpage) as [Hx|[Hx|Hx]]; [| |done].
      * rewrite Hqe in Hx. by apply elem_of_nil in Hx.
      * rewrite Hfl in Hx. by apply elem_of_nil in Hx.
  - intros Hne Hfl Hqe.
    assert (Hpos : 0 < length pages) by (destruct pages; [done|simpl; lia]).
    destruct (promise st.2) as [[[|]|msg]|] eqn:Hp.
    + by left.
    + right. left. split; [done|]. by apply Hfalse.
    + right. right. destruct (rejected_run st0 events msg) as [Hst0|(failed & Hin & Hf)].
      * exact Hp.
      * exfalso. unfold st0 in Hst0.
        by rewrite generatePagesAsyncThrottled_first in Hst0 by done.
      * by exists msg, failed.
    + exfalso. specialize (Hcount Hp). rewrite Hfl, Hqe, HN in Hcount. simpl in Hcount.
      assert (Heq : numPagesGenerated st.2 = length pages) by lia.
      specialize (HnoneN eq_refl Heq). lia.
Qed.

(** ** [generatePagesSequential] *)

Lemma sequentialFrom_world (start : nat) (pages : list Page) (completed : bool)
    (w : World) :
  site (sequentialFrom start pages completed w).1 = site w
  ∧ clock (sequentialFrom start pages completed w).1 = clock w.
Proof.
  revert completed. induction pages as [|page rest IH]; intros completed; simpl.
  - done.
  - destruct (stopRequested start w); [apply IH|done].
Qed.

Lemma seqInv_sequentialFrom (start : nat) (pages : list Page) (completed : bool)
    (w : World) :
  clockOk w → (completed = false → stopRequested start w = true) →
  seqInv (sequentialFrom start pages completed w)
  ∧ seq_startTime (sequentialFrom start pages completed w).2 = start
  ∧ (∀ msg, seq_pc (sequentialFrom start pages completed w).2 ≠ SeqSettled (Rejected msg)).
Proof.
  intros Hok. revert completed.
  induction pages as [|page rest IH]; intros completed Hc; simpl.
  - unfold seqInv. simpl. repeat split; try done. by intros b [= ->].
  - destruct (stopRequested start w) eqn:Hstop; [by apply IH|].
    unfold seqInv. simpl. repeat split; try done.
    intros Hf. by specialize (Hc Hf).
Qed.

Lemma seqInv_start (pages : list Page) (w : World) :
  clockOk w →
  seqInv (generatePagesSequential pages w)
  ∧ seq_startTime (generatePagesSequential pages w).2 = clock w
  ∧ (∀ msg, seq_pc (generatePagesSequential pages w).2 ≠ SeqSettled (Rejected msg)).
Proof. intros Hok. by apply seqInv_sequentialFrom. Qed.

Lemma seqInv_step (st : World * SeqTask) (e : Event) :
  seqInv st →
  seqInv (seqStep st e) ∧ seq_startTime (seqStep st e).2 = seq_startTime st.2.
Proof.
  destruct st as [w t]. intros Hinv. pose proof Hinv as (Hok & Hc & Hb). simpl in *.
  assert (Hgen : ∀ page, clockOk (toRebuild_delete (normalizedSource page)
                                    (act (ActGenerated page) w))) by done.
  destruct e as [d| |[|i]|[|i]|[|i]]; simpl; try done.
  - unfold seqInv, clockOk in *. simpl. repeat split; try done. lia.
  - unfold seqInv. simpl. repeat split; try done.
    + unfold clockOk. simpl. lia.
    + intros Hf. apply stopRequested_stopOngoingBuilds; auto.
  - destruct (seq_pc t) as [page []|] eqn:Hpc; try done.
    destruct (backgroundBuildMode (site w)).
    + unfold seqInv. simpl. repeat split; try done.
    + destruct (seqInv_sequentialFrom (seq_startTime t) (seq_remaining t)
                  (seq_isCompleted t) _ (Hgen page)) as (? & ? & _); [|done].
      intros Hf. rewrite <- (Hc Hf).
      apply stopRequested_sameSchedule, sameSchedule_generated.
  - by destruct (seq_pc t) as [page []|] eqn:Hpc.
  - destruct (seq_pc t) as [page []|] eqn:Hpc; try done.
    destruct (seqInv_sequentialFrom (seq_startTime t) (seq_remaining t)
                (seq_isCompleted t) w Hok Hc) as (? & ? & _). done.
Qed.

Lemma poolStopInv_stopPool (w : World) (pl : Pool) :
  poolStopInv (w, pl) → stopRequested (startTime pl) w = true →
  poolStopInv (w, stopPool pl) ∧ startTime (stopPool pl) = startTime pl.
Proof.
  intros [Hok Hf] Hstop. unfold stopPool.
  destruct (isCompleted pl); unfold poolStopInv; simpl; done.
Qed.

Lemma poolStopInv_callGeneratePage (page : Page) (st : World * Pool) :
  poolStopInv st →
  poolStopInv (callGeneratePage page st)
  ∧ startTime (callGeneratePage page st).2 = startTime st.2
  ∧ site (callGeneratePage page st).1 = site st.1
  ∧ clock (callGeneratePage page st).1 = clock st.1.
Proof.
  destruct st as [w pl]. intros Hinv. unfold callGeneratePage.
  destruct (stopRequested (startTime pl) w) eqn:Hstop.
  - destruct (poolStopInv_stopPool _ _ Hinv Hstop). done.
  - destruct Hinv as [Hok Hf]. unfold poolStopInv. simpl. done.
Qed.

Lemma poolStopInv_progress (st : World * Pool) :
  poolStopInv st →
  poolStopInv (generateProgressBarStatus st)
  ∧ startTime (generateProgressBarStatus st).2 = startTime st.2.
Proof.
  destruct st as [w pl]. intros Hinv. unfold generateProgressBarStatus.
  destruct (stopRequested (startTime pl) w) eqn:Hstop.
  - by apply poolStopInv_stopPool.
  - destruct Hinv as [Hok Hf].
    destruct (last (pageGenerationQueue pl)) as [page|].
    + match goal with |- context [callGeneratePage page ?st] =>
        destruct (poolStopInv_callGeneratePage page st) as (? & ? & _) end; [|done].
      unfold poolStopInv. simpl. done.
    + unfold poolStopInv. simpl. split; [|done]. split; [done|].
      case_decide; [|done]. destruct (promise pl) as [r|] eqn:Hp; simpl; [|done].
      intros [= ->]. auto.
Qed.

Lemma poolStopInv_start (pages : list Page) (w : World) :
  clockOk w →
  poolStopInv (generatePagesAsyncThrottled pages w)
  ∧ startTime (generatePagesAsyncThrottled pages w).2 = clock w
  ∧ site (generatePagesAsyncThrottled pages w).1 = site w
  ∧ clock (generatePagesAsyncThrottled pages w).1 = clock w.
Proof.
  intros Hok. rewrite generatePagesAsyncThrottled_first by done.
  unfold poolStopInv. simpl. done.
Qed.

Lemma poolStopInv_step (st : World * Pool) (e : Event) :
  poolStopInv st →
  poolStopInv (poolStep st e) ∧ startTime (poolStep st e).2 = startTime st.2.
Proof.
  destruct st as [w pl]. intros Hinv.
  destruct e as [d| |i|i|i]; cbn -[generateProgressBarStatus].
  - destruct Hinv as [Hok Hf]. unfold poolStopInv, clockOk in *. simpl in *.
    split; [|done]. split; [lia|done].
  - destruct Hinv as [Hok Hf]. unfold poolStopInv in *. simpl in *.
    split; [|done]. split; [unfold clockOk; simpl; lia|].
    intros Hp. apply stopRequested_stopOngoingBuilds; auto.
  - destruct (inFlight pl !! i) as [[page []]|]; try done.
    destruct (backgroundBuildMode (site w)).
    + destruct Hinv as [Hok Hf]. unfold poolStopInv in *. simpl in *. done.
    + match goal with |- context [generateProgressBarStatus ?st] =>
        destruct (poolStopInv_progress st) as (? & ?) end; [|done].
      destruct Hinv as [Hok Hf]. unfold poolStopInv in *. simpl in *. done.
  - destruct (inFlight pl !! i) as [[page []]|]; try done.
    destruct Hinv as [Hok Hf]. unfold poolStopInv in *. simpl in *.
    split; [|done]. split; [done|].
    destruct (promise pl) as [r|] eqn:Hp; simpl; [|done]. intros [= ->]. auto.
  - destruct (inFlight pl !! i) as [[page []]|]; try done.
    match goal with |- context [generateProgressBarStatus ?st] =>
      destruct (poolStopInv_progress st) as (? & ?) end; [|done].
    destruct Hinv as [Hok Hf]. unfold poolStopInv in *. simpl in *. done.
Qed.

(** ** [runPageGenerationTasks] *)

Lemma cutShortLast_snoc (statuses : list TaskStatus) (s : TaskStatus) :
  cutShortLast statuses →
  (existsb cutShort statuses = true → s = NotStarted) →
  cutShortLast (statuses ++ [s]).
Proof.
  intros Hlast Hs i j s' Hij Hi Hc Hj. rewrite length_app in Hj. simpl in Hj.
  assert (Hi' : statuses !! i = Some s').
  { rewrite lookup_app_l in Hi; [done|]. lia. }
  destruct (decide (j < length statuses)) as [Hlt|Hge].
  - rewrite lookup_app_l by done. by eapply Hlast.
  - assert (j = length statuses) as -> by lia.
    rewrite lookup_app_r, Nat.sub_diag by lia. simpl. f_equal. apply Hs.
    apply existsb_exists. exists s'. split; [|done].
    apply list_elem_of_In. by eapply list_elem_of_lookup_2.
Qed.

Lemma runInv_runFrom (start : nat) (tasks : list Task) (completed : bool)
    (statuses : list TaskStatus) (w : World) :
  clockOk w → start ≤ clock w →
  (existsb cutShort statuses = true → stopRequested start w = true) →
  completed = negb (existsb cutShort statuses) →
  cutShortLast statuses →
  runInv (runFrom start tasks completed statuses w)
  ∧ run_startTime (runFrom start tasks completed statuses w).2 = start
  ∧ runCount (runFrom start tasks completed statuses w).2
    = length statuses + length tasks.
Proof.
  revert completed statuses w.
  induction tasks as [|task rest IH]; intros completed statuses w Hok Hstart Hcut Hc Hlast.
  - simpl. unfold runInv, runCount. simpl. repeat split; try done.
  - cbn [runFrom]. destruct (stopRequested start w) eqn:Hstop.
    { (* the task is not started *)
      destruct (IH false (statuses ++ [NotStarted]) w) as (? & ? & Hn); try done.
      - rewrite existsb_app. simpl. by rewrite orb_true_r.
      - by apply cutShortLast_snoc.
      - split; [done|]. split; [done|].
        rewrite Hn, length_app. simpl. lia. }
    assert (Hnone : existsb cutShort statuses = false).
    { apply not_true_is_false. intros Hex. specialize (Hcut Hex). congruence. }
    destruct (mode task).
    + (* a sequential task *)
      destruct (seqInv_start (task_pages task) w Hok) as (Hinv & Hst & Hrej).
      destruct (sequentialFrom_world (clock w) (task_pages task) true w) as [Hsite Hclock].
      fold (generatePagesSequential (task_pages task) w) in Hsite, Hclock.
      destruct (generatePagesSequential (task_pages task) w) as [w1 t] eqn:Hgen.
      simpl in *.
      destruct (seq_pc t) as [page a|[b|msg]] eqn:Hpc.
      * unfold runInv, runCount. simpl.
        pose proof Hinv as (Hok1 & ? & ?).
        repeat split; try done; try lia.
      * destruct Hinv as (Hok1 & Hf & Hb). simpl in *. specialize (Hb b Hpc).
        destruct (IH b (statuses ++ [Ran b]) w1) as (? & ? & Hn); try done.
        -- lia.
        -- rewrite existsb_app, Hnone. simpl. destruct b; [done|]. intros _.
           eapply stopRequested_mono; [|apply Hf; congruence]. lia.
        -- rewrite existsb_app, Hnone. simpl. by destruct b.
        -- apply cutShortLast_snoc; [done|]. congruence.
        -- split; [done|]. split; [done|]. rewrite Hn, length_app. simpl. lia.
      * by destruct (Hrej msg).
    + (* a concurrent task *)
      destruct (poolStopInv_start (task_pages task) w Hok) as (Hinv & Hst & Hsite & Hclock).
      destruct (generatePagesAsyncThrottled (task_pages task) w) as [w1 pl] eqn:Hgen.
      simpl in *.
      destruct (promise pl) as [[b|msg]|] eqn:Hp.
      * destruct Hinv as (Hok1 & Hf). simpl in *.
        destruct (IH b (statuses ++ [Ran b]) w1) as (? & ? & Hn); try done.
        -- lia.
        -- rewrite existsb_app, Hnone. simpl. destruct b; [done|]. intros _.
           eapply stopRequested_mono; [|apply Hf; congruence]. lia.
        -- rewrite existsb_app, Hnone. simpl. by destruct b.
        -- apply cutShortLast_snoc; [done|]. congruence.
        -- split; [done|]. split; [done|]. rewrite Hn, length_app. simpl. lia.
      * (* the executor cannot reject before its first [await] *)
        exfalso. revert Hgen Hp.
        rewrite generatePagesAsyncThrottled_first by done. by intros [= _ <-].
      * unfold runInv, runCount. simpl. pose proof Hinv as (Hok1 & ?).
        repeat split; try done; try lia.
Qed.

Lemma clock_sequentialFrom (start : nat) (pages : list Page) (completed : bool)
    (w : World) :
  clock (sequentialFrom start pages completed w).1 = clock w.
Proof. apply sequentialFrom_world. Qed.

Lemma clock_seqStep (st : World * SeqTask) (e : Event) :
  clock st.1 ≤ clock (seqStep st e).1.
Proof.
  destruct st as [w t].
  destruct e as [d| |[|i]|[|i]|[|i]]; simpl; try done; try lia.
  - destruct (seq_pc t) as [page []|]; try done.
    destruct (backgroundBuildMode (site w)); [done|].
    by rewrite clock_sequentialFrom.
  - by destruct (seq_pc t) as [page []|].
  - destruct (seq_pc t) as [page []|]; try done.
    by rewrite clock_sequentialFrom.
Qed.

Lemma clock_generateProgressBarStatus (st : World * Pool) :
  clock (generateProgressBarStatus st).1 = clock st.1.
Proof.
  destruct st as [w pl]. unfold generateProgressBarStatus.
  destruct (stopRequested (startTime pl) w); [done|].
  destruct (last (pageGenerationQueue pl)); [|done].
  unfold callGeneratePage. by destruct (stopRequested _ w).
Qed.

Lemma clock_poolStep (st : World * Pool) (e : Event) :
  clock st.1 ≤ clock (poolStep st e).1.
Proof.
  destruct st as [w pl].
  destruct e as [d| |i|i|i]; cbn -[generateProgressBarStatus]; try done; try lia.
  - destruct (inFlight pl !! i) as [[page []]|]; try done.
    destruct (backgroundBuildMode (site w)); [done|].
    by rewrite clock_generateProgressBarStatus.
  - by destruct (inFlight pl !! i) as [[page []]|].
  - destruct (inFlight pl !! i) as [[page []]|]; try done.
    by rewrite clock_generateProgressBarStatus.
Qed.

Lemma runInv_step (st : World * Run) (e : Event) :
  runInv st →
  runInv (runStep st e)
  ∧ run_startTime (runStep st e).2 = run_startTime st.2
  ∧ runCount (runStep st e).2 = runCount st.2.
Proof.
  destruct st as [w r]. intros (Hok & Hstart & Hlast & Hpc). cbn [fst snd] in *.
  unfold runStep. destruct (run_pc r) as [t|pl|res] eqn:Hrun.
  - (* suspended in a sequential task *)
    destruct Hpc as (Hinv & Hle & Hnone).
    destruct (seqInv_step _ e Hinv) as [Hinv' Hst].
    pose proof (clock_seqStep (w, t) e) as Hclock.
    destruct (seqStep (w, t) e) as [w1 t1]. simpl in *.
    destruct (seq_pc t1) as [page a|[b|msg]] eqn:Hpc1.
    + unfold runInv, runCount. simpl. rewrite Hrun.
      pose proof Hinv' as (? & _). split_and!; try done; try lia.
    + destruct Hinv' as (Hok1 & Hf & Hb). simpl in *. specialize (Hb b Hpc1).
      destruct (runInv_runFrom (run_startTime r) (run_remaining r) b
                  (run_statuses r ++ [Ran b]) w1) as (? & ? & Hn); try done.
      * lia.
      * rewrite existsb_app, Hnone. simpl. destruct b; [done|]. intros _.
        eapply stopRequested_mono; [|apply Hf; congruence]. lia.
      * rewrite existsb_app, Hnone. simpl. by destruct b.
      * apply cutShortLast_snoc; [done|]. congruence.
      * split; [done|]. split; [done|]. rewrite Hn, length_app.
        unfold runCount. rewrite Hrun. simpl. lia.
    + unfold runInv, runCount. simpl. rewrite Hrun.
      destruct Hinv' as (? & _). split_and!; try done; try lia.
  - (* suspended in a concurrent task *)
    destruct Hpc as (Hinv & Hle & Hnone).
    destruct (poolStopInv_step _ e Hinv) as [Hinv' Hst].
    pose proof (clock_poolStep (w, pl) e) as Hclock.
    destruct (poolStep (w, pl) e) as [w1 pl1]. simpl in *.
    destruct (promise pl1) as [[b|msg]|] eqn:Hp1.
    + destruct Hinv' as (Hok1 & Hf). simpl in *.
      destruct (runInv_runFrom (run_startTime r) (run_remaining r) b
                  (run_statuses r ++ [Ran b]) w1) as (? & ? & Hn); try done.
      * lia.
      * rewrite existsb_app, Hnone. simpl. destruct b; [done|]. intros _.
        eapply stopRequested_mono; [|apply Hf; congruence]. lia.
      * rewrite existsb_app, Hnone. simpl. by destruct b.
      * apply cutShortLast_snoc; [done|]. congruence.
      * split; [done|]. split; [done|]. rewrite Hn, length_app.
        unfold runCount. rewrite Hrun. simpl. lia.
    + unfold runInv, runCount. simpl. rewrite Hrun.
      destruct Hinv' as (? & _). split_and!; try done; try lia.
    + unfold runInv, runCount. simpl. rewrite Hrun.
      pose proof Hinv' as (? & _). split_and!; try done; try lia.
  - (* settled *)
    assert (Hsame : ∀ w', clockOk w' → clock w ≤ clock w' →
              runInv (w', r) ∧ run_startTime r = run_startTime r
              ∧ runCount r = runCount r).
    { intros w' Hok' Hle. split; [|done]. unfold runInv. simpl. rewrite Hrun.
      split_and!; try done; try lia. }
    destruct e as [d| |i|i|i]; simpl; try (by apply Hsame).
    + apply Hsame; [unfold clockOk in *|]; simpl; lia.
    + apply Hsame; [unfold clockOk in *|]; simpl; lia.
Qed.

Lemma runInv_run (st : World * Run) (events : list Event) :
  runInv st →
  runInv (run runStep st events)
  ∧ runCount (run runStep st events).2 = runCount st.2.
Proof.
  revert st. induction events as [|e events IH]; intros st Hinv; [done|].
  simpl. destruct (runInv_step st e Hinv) as (Hinv' & _ & Hn).
  destruct (IH _ Hinv') as [? Hn']. split; [done|]. by rewrite Hn', Hn.
Qed.

(** ** A failing page *)











(** ** Cancellation *)

Lemma sequentialFrom_cancelled (start : nat) (pages : list Page) (completed : bool)
    (w : World) :
  stopRequested start w = true →
  sequentialFrom start pages completed w
  = (w, mkSeqTask start (match pages with [] => completed | _ => false end) []
          (SeqSettled (Resolved (match pages with [] => completed | _ => false end)))).
Proof.
  intros Hstop. revert completed.
  induction pages as [|page rest IH]; intros completed; simpl; [done|].
  rewrite Hstop, IH. by destruct rest.
Qed.

Lemma cancelled_clock (start : nat) (D : list Page) (w : World) (d : nat) :
  cancelled start D w → cancelled start D (advanceClock d w).
Proof.
  intros (Hok & Hstop & Hd). unfold cancelled, clockOk in *. simpl.
  split; [lia|done].
Qed.

Lemma cancelled_stop (start : nat) (D : list Page) (w : World) :
  cancelled start D w → cancelled start D (stopOngoingBuilds w).
Proof.
  intros (Hok & Hstop & Hd). split; [unfold clockOk; simpl; lia|].
  split; [by apply stopRequested_stopOngoingBuilds|done].
Qed.

Lemma cancelled_generated (start : nat) (D : list Page) (w : World) (page : Page) :
  cancelled start D w →
  cancelled start D (toRebuild_delete (normalizedSource page) (act (ActGenerated page) w)).
Proof.
  intros (Hok & Hstop & Hd). split; [done|]. split.
  - rewrite <- Hstop. apply stopRequested_sameSchedule, sameSchedule_generated.
  - simpl. rewrite !dispatched_cons. simpl. by rewrite !app_nil_r.
Qed.

Lemma cancelled_failed (start : nat) (D : list Page) (w : World) (page : Page) :
  cancelled start D w → cancelled start D (act (ActGenerateFailed page) w).
Proof.
  intros (Hok & Hstop & Hd). split; [done|]. split; [done|].
  simpl. rewrite dispatched_cons. simpl. by rewrite app_nil_r.
Qed.

Lemma cancelled_background (start : nat) (D : list Page) (w : World) :
  cancelled start D w → backgroundBuildMode (site w) = true.
Proof.
  intros (_ & Hstop & _). unfold stopRequested in Hstop.
  by destruct (backgroundBuildMode _).
Qed.

(** A cancelled sequential task dispatches nothing; if pages remain, it
    does not return [true]. *)
Lemma seqStep_cancelled (D : list Page) (st : World * SeqTask) (e : Event) :
  cancelled (seq_startTime st.2) D st.1 →
  cancelled (seq_startTime (seqStep st e).2) D (seqStep st e).1
  ∧ (((∃ page a, seq_pc st.2 = SeqAwait page a) ∧ seq_remaining st.2 ≠ []
      ∨ (∃ r, seq_pc st.2 = SeqSettled r ∧ r ≠ Resolved true)) →
     ((∃ page a, seq_pc (seqStep st e).2 = SeqAwait page a)
      ∧ seq_remaining (seqStep st e).2 ≠ []
      ∨ (∃ r, seq_pc (seqStep st e).2 = SeqSettled r ∧ r ≠ Resolved true))).
Proof.
  destruct st as [w t]. cbn [fst snd]. intros Hc.
  pose proof (cancelled_background _ _ _ Hc) as Hbg.
  pose proof Hc as (_ & Hstop & _).
  destruct e as [d| |[|i]|[|i]|[|i]]; simpl; try done.
  - split; [by apply cancelled_clock|done].
  - split; [by apply cancelled_stop|done].
  - destruct (seq_pc t) as [page []|] eqn:Hpc;
      try (split; [done|]; simpl; rewrite Hpc; tauto).
    rewrite Hbg. simpl. split; [by apply cancelled_generated|].
    intros [[_ ?]|(r & [=] & _)]. left. eauto.
  - destruct (seq_pc t) as [page []|] eqn:Hpc;
      try (split; [done|]; simpl; rewrite Hpc; tauto).
    simpl. split; [by apply cancelled_failed|]. intros _. right. eauto.
  - destruct (seq_pc t) as [page []|] eqn:Hpc;
      try (split; [done|]; simpl; rewrite Hpc; tauto).
    rewrite sequentialFrom_cancelled by done. simpl. split; [done|].
    intros [[_ Hrem]|(r & [=] & _)]. right.
    destruct (seq_remaining t); [done|]. eauto.
Qed.

Lemma seq_run_cancelled (D : list Page) (st : World * SeqTask) (events : list Event) :
  cancelled (seq_startTime st.2) D st.1 →
  cancelled (seq_startTime (run seqStep st events).2) D (run seqStep st events).1
  ∧ (((∃ page a, seq_pc st.2 = SeqAwait page a) ∧ seq_remaining st.2 ≠ []
      ∨ (∃ r, seq_pc st.2 = SeqSettled r ∧ r ≠ Resolved true)) →
     ((∃ page a, seq_pc (run seqStep st events).2 = SeqAwait page a)
      ∧ seq_remaining (run seqStep st events).2 ≠ []
      ∨ (∃ r, seq_pc (run seqStep st events).2 = SeqSettled r ∧ r ≠ Resolved true))).
Proof.
  revert st. induction events as [|e events IH]; intros st Hc; [done|].
  simpl. destruct (seqStep_cancelled D st e Hc) as [Hc' Hpc'].
  destruct (IH _ Hc') as [Hc'' Hpc'']. split; [done|]. auto.
Qed.

Lemma cancelled_stopPool (D : list Page) (w : World) (pl : Pool) :
  cancelled (startTime pl) D w → cancelled (startTime (stopPool pl)) D w.
Proof. unfold stopPool. by destruct (isCompleted pl). Qed.

Lemma promise_stopPool_not_true (pl : Pool) :
  promise pl ≠ Some (Resolved true) → promise (stopPool pl) ≠ Some (Resolved true).
Proof.
  unfold stopPool. destruct (isCompleted pl); [|done]. simpl.
  by destruct (promise pl).
Qed.

(** A cancelled concurrent task dispatches nothing and does not resolve to
    [true]. *)
Lemma poolStep_cancelled (D : list Page) (st : World * Pool) (e : Event) :
  cancelled (startTime st.2) D st.1 →
  cancelled (startTime (poolStep st e).2) D (poolStep st e).1
  ∧ (promise st.2 ≠ Some (Resolved true) →
     promise (poolStep st e).2 ≠ Some (Resolved true)).
Proof.
  destruct st as [w pl]. cbn [fst snd]. intros Hc.
  pose proof (cancelled_background _ _ _ Hc) as Hbg.
  pose proof Hc as (_ & Hstop & _).
  destruct e as [d| |i|i|i]; simpl.
  - split; [by apply cancelled_clock|done].
  - split; [by apply cancelled_stop|done].
  - destruct (inFlight pl !! i) as [[page []]|]; try done.
    rewrite Hbg. simpl. split; [by apply cancelled_generated|done].
  - destruct (inFlight pl !! i) as [[page []]|]; try done.
    simpl. split; [by apply cancelled_failed|]. by destruct (promise pl).
  - destruct (inFlight pl !! i) as [[page []]|]; try done.
    simpl. rewrite Hstop. simpl.
    split; [by apply (cancelled_stopPool D w (setInFlight _ pl))|].
    apply (promise_stopPool_not_true (setInFlight _ pl)).
Qed.

Lemma pool_run_cancelled (D : list Page) (st : World * Pool) (events : list Event) :
  cancelled (startTime st.2) D st.1 →
  cancelled (startTime (run poolStep st events).2) D (run poolStep st events).1
  ∧ (promise st.2 ≠ Some (Resolved true) →
     promise (run poolStep st events).2 ≠ Some (Resolved true)).
Proof.
  revert st. induction events as [|e events IH]; intros st Hc; [done|].
  simpl. destruct (poolStep_cancelled D st e Hc) as [Hc' Hp'].
  destruct (IH _ Hc') as [Hc'' Hp'']. split; [done|]. auto.
Qed.

Lemma seqInv_run (st : World * SeqTask) (events : list Event) :
  seqInv st → seqInv (run seqStep st events).
Proof.
  revert st. induction events as [|e events IH]; intros st Hinv; [done|].
  simpl. apply IH. by apply seqInv_step.
Qed.

(** C2, as amended: in background build mode, once [stopOngoingBuilds] has
    set the threshold to a time after the start time of a task, the task
    dispatches no further page.  A sequential task with pages left does not
    return [true], and returns [false] as soon as the page it is suspended in
    is done; a concurrent task does not resolve to [true], and a pending one
    resolves to [false] at the next completion of a page. *)
Theorem stopOngoingBuilds_cancels_background_tasks (pages : list Page) (w0 : World)
    (events0 events : list Event) :
  clockOk w0 →
  (let st := run seqStep (generatePagesSequential pages w0) events0 in
   backgroundBuildMode (site st.1) = true → seq_startTime st.2 < clock st.1 →
   let st2 := run seqStep (seqStep st EvStopOngoingBuilds) events in
   dispatched (trace st2.1) = dispatched (trace st.1)
   ∧ (∀ page a, seq_pc st.2 = SeqAwait page a → seq_remaining st.2 ≠ [] →
        seq_pc st2.2 ≠ SeqSettled (Resolved true))
   ∧ (∀ page, seq_pc st2.2 = SeqAwait page AwaitWriteSiteData →
        seq_remaining st2.2 ≠ [] →
        seq_pc (seqStep st2 (EvSiteDataWritten 0)).2 = SeqSettled (Resolved false)))
  ∧ (let st := run poolStep (generatePagesAsyncThrottled pages w0) events0 in
     backgroundBuildMode (site st.1) = true → startTime st.2 < clock st.1 →
     let st2 := run poolStep (poolStep st EvStopOngoingBuilds) events in
     dispatched (trace st2.1) = dispatched (trace st.1)
     ∧ (promise st.2 ≠ Some (Resolved true) → promise st2.2 ≠ Some (Resolved true))
     ∧ (∀ i page, inFlight st2.2 !! i = Some (page, AwaitWriteSiteData) →
          promise st2.2 = None →
          promise (poolStep st2 (EvSiteDataWritten i)).2 = Some (Resolved false))).
Proof.
  intros Hok. split.
  - intros st Hbg Hlt st2.
    destruct (seqInv_start pages w0 Hok) as (Hinv0 & _).
    pose proof (seqInv_run _ events0 Hinv0) as (Hokst & _). fold st in Hokst.
    assert (Hc : cancelled (seq_startTime (seqStep st EvStopOngoingBuilds).2)
                   (dispatched (trace st.1)) (seqStep st EvStopOngoingBuilds).1).
    { destruct st as [w t]. simpl in *. split; [unfold clockOk; simpl; lia|].
      split; [by apply stopOngoingBuilds_cancels|done]. }
    destruct (seq_run_cancelled _ _ events Hc) as [(Hok2 & Hstop2 & Hd2) Hpc2].
    fold st2 in Hok2, Hstop2, Hd2, Hpc2. split_and!.
    + done.
    + intros page a Hpc Hrem Hres.
      destruct Hpc2 as [[(page' & a' & Hpc') _]|(r & Hr & Hne)]; [|congruence..].
      left. split; [|by destruct st]. destruct st. simpl in *. eauto.
    + intros page Hpc Hrem. destruct st2 as [w2 t2]. simpl in *. rewrite Hpc.
      rewrite sequentialFrom_cancelled by done. simpl.
      by destruct (seq_remaining t2).
  - intros st Hbg Hlt st2.
    pose proof (poolInv_run _ _ _ events0 (poolInv_start pages w0 Hok)) as Hinv.
    fold st in Hinv.
    pose proof (poolInv_run _ _ _ events (poolInv_step _ _ _ EvStopOngoingBuilds Hinv))
      as Hinv2.
    fold st2 in Hinv2.
    assert (Hc : cancelled (startTime (poolStep st EvStopOngoingBuilds).2)
                   (dispatched (trace st.1)) (poolStep st EvStopOngoingBuilds).1).
    { destruct Hinv as (Hokst & _). destruct st as [w pl]. simpl in *.
      split; [unfold clockOk; simpl; lia|].
      split; [by apply stopOngoingBuilds_cancels|done]. }
    destruct (pool_run_cancelled _ _ events Hc) as [(Hok2 & Hstop2 & Hd2) Hp2].
    fold st2 in Hok2, Hstop2, Hd2, Hp2. split_and!.
    + done.
    + intros Hp. apply Hp2. by destruct st.
    + intros i page Hi Hp.
      destruct Hinv2 as (_ & _ & _ & _ & _ & _ & Hnone & _).
      specialize (Hnone Hp).
      destruct st2 as [w2 pl2]. simpl in *. rewrite Hi. simpl.
      rewrite Hstop2. unfold stopPool. simpl. rewrite Hnone. simpl. by rewrite Hp.
Qed.

(** ** When a key leaves [toRebuild] *)

Lemma traceInv_start (w : World) : traceInv w [] w.
Proof.
  exists []. split_and!; try done.
  - intros newer page older Heq. by destruct newer.
  - unfold deletedKeys. simpl. set_solver.
  - by intros page ?%elem_of_nil.
Qed.

Lemma traceInv_weaken (w0 w : World) (awaiting awaiting' : list Page) :
  awaiting' ⊆ awaiting → traceInv w0 awaiting w → traceInv w0 awaiting' w.
Proof.
  intros Hsub (new & ? & ? & ? & ? & Hin). exists new. split_and!; try done.
  intros page Hp. apply Hin. by apply Hsub.
Qed.

Lemma traceInv_world (w0 w w' : World) (awaiting : list Page) :
  trace w' = trace w → toRebuild (site w') = toRebuild (site w) →
  traceInv w0 awaiting w → traceInv w0 awaiting w'.
Proof.
  intros Htr Hset (new & ? & ? & ? & ? & Hin). exists new.
  rewrite Htr, Hset. done.
Qed.

Lemma traceInv_dispatch (w0 w : World) (awaiting : list Page) (page : Page) :
  traceInv w0 awaiting w → traceInv w0 (page :: awaiting) (act (ActGenerate page) w).
Proof.
  intros (new & Htr & Hdel & Hgen & Hset & Hin).
  exists (ActGenerate page :: new). simpl. split_and!.
  - by rewrite Htr.
  - done.
  - intros newer q older Heq. destruct newer as [|a newer]; [done|].
    simpl in Heq. simplify_eq. by eapply Hgen.
  - done.
  - intros q [->|Hq]%elem_of_cons; [left|]. right. by apply Hin.
Qed.

Lemma traceInv_generated (w0 w : World) (awaiting : list Page) (page : Page) :
  traceInv w0 awaiting w → page ∈ awaiting →
  traceInv w0 awaiting
    (toRebuild_delete (normalizedSource page) (act (ActGenerated page) w)).
Proof.
  intros (new & Htr & Hdel & Hgen & Hset & Hin) Hpage.
  exists (ActDelete (normalizedSource page) :: ActGenerated page :: new).
  simpl. split_and!.
  - by rewrite Htr.
  - by rewrite bool_decide_eq_true_2.
  - intros newer q older Heq. destruct newer as [|a newer]; [done|].
    simpl in Heq. simplify_eq. destruct newer as [|a newer].
    + simpl in *. simplify_eq. by apply Hin.
    + simpl in *. simplify_eq. by eapply Hgen.
  - rewrite Hset. unfold deletedKeys. simpl. set_solver.
  - intros q Hq. right. right. by apply Hin.
Qed.

Lemma traceInv_failed (w0 w : World) (awaiting : list Page) (page : Page) :
  traceInv w0 awaiting w → traceInv w0 awaiting (act (ActGenerateFailed page) w).
Proof.
  intros (new & Htr & Hdel & Hgen & Hset & Hin).
  exists (ActGenerateFailed page :: new). simpl. split_and!.
  - by rewrite Htr.
  - done.
  - intros newer q older Heq. destruct newer as [|a newer]; [done|].
    simpl in Heq. simplify_eq. by eapply Hgen.
  - done.
  - intros q Hq. right. by apply Hin.
Qed.

Lemma elem_of_awaitingGenerate (suspended : list (Page * Await)) (page : Page) :
  page ∈ awaitingGenerate suspended ↔ (page, AwaitGenerate) ∈ suspended.
Proof.
  unfold awaitingGenerate. rewrite list_elem_of_omap. split.
  - intros ([q a] & Hin & Heq). simpl in Heq. destruct a; [|done]. by injection Heq as ->.
  - intros Hin. by exists (page, AwaitGenerate).
Qed.

Lemma awaitingGenerate_delete (suspended : list (Page * Await)) (i : nat) :
  awaitingGenerate (delete i suspended) ⊆ awaitingGenerate suspended.
Proof.
  intros page. rewrite !elem_of_awaitingGenerate.
  apply sublist_subseteq, sublist_delete.
Qed.

Lemma awaitingGenerate_written (suspended : list (Page * Await)) (i : nat) (page : Page) :
  awaitingGenerate (<[i := (page, AwaitWriteSiteData)]> suspended)
  ⊆ awaitingGenerate suspended.
Proof.
  intros q. rewrite !elem_of_awaitingGenerate.
  intros (j & Hj)%list_elem_of_lookup_1.
  destruct (decide (i = j)) as [->|Hne].
  - destruct (decide (j < length suspended)).
    + rewrite list_lookup_insert_eq in Hj by done. done.
    + rewrite list_insert_ge in Hj by lia. by eapply list_elem_of_lookup_2.
  - rewrite list_lookup_insert_ne in Hj by done. by eapply list_elem_of_lookup_2.
Qed.

Lemma traceInv_callGeneratePage (w0 : World) (page : Page) (st : World * Pool) :
  traceInv w0 (awaitingGenerate (inFlight st.2)) st.1 →
  traceInv w0 (awaitingGenerate (inFlight (callGeneratePage page st).2))
    (callGeneratePage page st).1.
Proof.
  destruct st as [w pl]. unfold callGeneratePage. cbn [fst snd].
  destruct (stopRequested _ w).
  - unfold stopPool. by destruct (isCompleted pl).
  - intros Hinv. simpl. eapply traceInv_weaken; [|by apply traceInv_dispatch].
    intros q. rewrite elem_of_awaitingGenerate, elem_of_app, list_elem_of_singleton.
    intros [Hq|[= ->]]; [right|left]. by apply elem_of_awaitingGenerate.
Qed.

Lemma traceInv_generateProgressBarStatus (w0 : World) (st : World * Pool) :
  traceInv w0 (awaitingGenerate (inFlight st.2)) st.1 →
  traceInv w0 (awaitingGenerate (inFlight (generateProgressBarStatus st).2))
    (generateProgressBarStatus st).1.
Proof.
  destruct st as [w pl]. unfold generateProgressBarStatus. cbn [fst snd].
  destruct (stopRequested _ w).
  - unfold stopPool. by destruct (isCompleted pl).
  - destruct (last (pageGenerationQueue pl)); [|done].
    intros Hinv. by apply traceInv_callGeneratePage.
Qed.

Lemma traceInv_poolStep (w0 : World) (st : World * Pool) (e : Event) :
  traceInv w0 (awaitingGenerate (inFlight st.2)) st.1 →
  traceInv w0 (awaitingGenerate (inFlight (poolStep st e).2)) (poolStep st e).1.
Proof.
  destruct st as [w pl]. cbn [fst snd]. intros Hinv.
  destruct e as [d| |i|i|i]; cbn -[generateProgressBarStatus].
  - by apply (traceInv_world w0 w).
  - by apply (traceInv_world w0 w).
  - destruct (inFlight pl !! i) as [[page []]|] eqn:Hi; try done.
    assert (Hpage : page ∈ awaitingGenerate (inFlight pl)).
    { apply elem_of_awaitingGenerate. by eapply list_elem_of_lookup_2. }
    pose proof (traceInv_generated _ _ _ _ Hinv Hpage) as Hinv'.
    destruct (backgroundBuildMode (site w)).
    + simpl. eapply traceInv_weaken; [apply awaitingGenerate_written|done].
    + apply traceInv_generateProgressBarStatus. simpl.
      eapply traceInv_weaken; [apply awaitingGenerate_delete|done].
  - destruct (inFlight pl !! i) as [[page []]|] eqn:Hi; try done.
    simpl. eapply traceInv_weaken; [apply awaitingGenerate_delete|].
    by apply traceInv_failed.
  - destruct (inFlight pl !! i) as [[page []]|] eqn:Hi; try done.
    apply traceInv_generateProgressBarStatus. simpl.
    eapply traceInv_weaken; [apply awaitingGenerate_delete|done].
Qed.

Lemma traceInv_pool_start (pages : list Page) (w : World) :
  traceInv w (awaitingGenerate (inFlight (generatePagesAsyncThrottled pages w).2))
    (generatePagesAsyncThrottled pages w).1.
Proof.
  unfold generatePagesAsyncThrottled.
  set (pl := mkPool _ _ _ _ _ _ _).
  assert (Hinv : traceInv w (awaitingGenerate (inFlight (w, pl).2)) (w, pl).1)
    by apply traceInv_start.
  revert Hinv. generalize (w, pl).
  induction (take MAX_CONCURRENT_PAGE_GENERATION_PROMISES pages) as [|page l IH];
    intros st Hinv; [done|].
  cbn [foldl]. apply IH. by apply traceInv_callGeneratePage.
Qed.

Lemma traceInv_sequentialFrom (w0 : World) (start : nat) (pages : list Page)
    (completed : bool) (w : World) :
  traceInv w0 [] w →
  traceInv w0 (seqAwaitingGenerate (sequentialFrom start pages completed w).2)
    (sequentialFrom start pages completed w).1.
Proof.
  intros Hinv. revert completed.
  induction pages as [|page rest IH]; intros completed; simpl; [done|].
  destruct (stopRequested start w); [apply IH|].
  simpl. by apply traceInv_dispatch.
Qed.

Lemma traceInv_seqStep (w0 : World) (st : World * SeqTask) (e : Event) :
  traceInv w0 (seqAwaitingGenerate st.2) st.1 →
  traceInv w0 (seqAwaitingGenerate (seqStep st e).2) (seqStep st e).1.
Proof.
  destruct st as [w t]. cbn [fst snd]. intros Hinv.
  assert (Hnil : traceInv w0 [] w).
  { eapply traceInv_weaken; [|done]. by intros q ?%elem_of_nil. }
  destruct e as [d| |[|i]|[|i]|[|i]]; simpl; try done.
  - unfold seqAwaitingGenerate in Hinv.
    destruct (seq_pc t) as [page []|] eqn:Hpc;
      try (unfold seqAwaitingGenerate; simpl; by rewrite Hpc).
    assert (Hpage : page ∈ [page]) by left.
    pose proof (traceInv_generated _ _ _ _ Hinv Hpage) as Hinv'.
    destruct (backgroundBuildMode (site w)).
    + eapply traceInv_weaken; [|done]. by intros q ?%elem_of_nil.
    + apply traceInv_sequentialFrom.
      eapply traceInv_weaken; [|done]. by intros q ?%elem_of_nil.
  - unfold seqAwaitingGenerate in Hinv.
    destruct (seq_pc t) as [page []|] eqn:Hpc;
      try (unfold seqAwaitingGenerate; simpl; by rewrite Hpc).
    eapply traceInv_weaken; [|by apply traceInv_failed].
    by intros q ?%elem_of_nil.
  - destruct (seq_pc t) as [page []|] eqn:Hpc;
      try (unfold seqAwaitingGenerate in *; simpl; by rewrite Hpc in * ).
    by apply traceInv_sequentialFrom.
Qed.

Lemma traceInv_seq_run (w0 : World) (st : World * SeqTask) (events : list Event) :
  traceInv w0 (seqAwaitingGenerate st.2) st.1 →
  traceInv w0 (seqAwaitingGenerate (run seqStep st events).2) (run seqStep st events).1.
Proof.
  revert st. induction events as [|e events IH]; intros st Hinv; [done|].
  simpl. apply IH. by apply traceInv_seqStep.
Qed.

Lemma traceInv_pool_run (w0 : World) (st : World * Pool) (events : list Event) :
  traceInv w0 (awaitingGenerate (inFlight st.2)) st.1 →
  traceInv w0 (awaitingGenerate (inFlight (run poolStep st events).2))
    (run poolStep st events).1.
Proof.
  revert st. induction events as [|e events IH]; intros st Hinv; [done|].
  simpl. apply IH. by apply traceInv_poolStep.
Qed.

Lemma rebuildViewedInv_callback (w0 : World) (urls : list string)
    (st : World * list (Page * Await)) (url : string) :
  rebuildViewedInv w0 urls st.1 →
  rebuildViewedInv w0 (urls ++ [url]) (rebuildViewedCallback st url).1.
Proof.
  destruct st as [w suspended]. cbn [fst snd].
  intros (new & Htr & Hdel & Hset & Hpages & Hkeys).
  unfold rebuildViewedCallback.
  destruct (find _ (pages (site w))) as [page|] eqn:Hfind.
  - apply find_some in Hfind as [Hin Hkey].
    apply bool_decide_eq_true in Hkey. apply list_elem_of_In in Hin.
    exists (ActGenerate page :: ActDelete url :: new). simpl. split_and!.
    + by rewrite Htr.
    + by rewrite bool_decide_eq_true_2.
    + rewrite Hset. unfold deletedKeys. simpl. set_solver.
    + done.
    + intros key. unfold deletedKeys in *. simpl.
      rewrite elem_of_union, elem_of_singleton, Hkeys, elem_of_app,
        list_elem_of_singleton.
      split.
      * intros [->|[? ?]]; [|tauto]. split; [by right|].
        exists page. by rewrite <- Hpages.
      * intros [[? | ->] ?]; [right|left]; done.
  - exists new. split_and!; try done.
    intros key. rewrite Hkeys, elem_of_app, list_elem_of_singleton. split; [tauto|].
    intros [[? | ->] (page & Hin & Hkey)]; [eauto|].
    rewrite <- Hpages in Hin. apply list_elem_of_In in Hin.
    eapply find_none in Hfind; [|exact Hin].
    apply bool_decide_eq_false in Hfind. done.
Qed.

Lemma rebuildViewedInv_start (urls : list string) (w : World) :
  rebuildViewedInv w urls (_rebuildPageBeingViewed urls w).1.
Proof.
  assert (Hgen : ∀ l done st,
            rebuildViewedInv w done st.1 →
            rebuildViewedInv w (done ++ l) (foldl rebuildViewedCallback st l).1).
  { induction l as [|url l IH]; intros done st Hinv; simpl.
    - by rewrite app_nil_r.
    - replace (done ++ url :: l) with ((done ++ [url]) ++ l) by (by rewrite <- app_assoc).
      apply IH. by apply rebuildViewedInv_callback. }
  assert (Hstart : rebuildViewedInv w [] (w, @nil (Page * Await)).1).
  { exists []. split_and!; try done.
    - unfold deletedKeys. simpl. set_solver.
    - intros key. unfold deletedKeys. simpl. split; [set_solver|].
      by intros [?%elem_of_nil _]. }
  destruct (Hgen (uniq urls) [] _ Hstart) as (new & ? & ? & ? & ? & Hkeys).
  exists new. split_and!; try done.
  intros key. rewrite Hkeys. simpl. by rewrite elem_of_uniq.
Qed.

Lemma rebuildViewedInv_step (w0 : World) (urls : list string)
    (st : World * list (Page * Await)) (e : Event) :
  rebuildViewedInv w0 urls st.1 →
  rebuildViewedInv w0 urls (rebuildViewedStep st e).1
  ∧ toRebuild (site (rebuildViewedStep st e).1) = toRebuild (site st.1).
Proof.
  destruct st as [w suspended]. cbn [fst snd].
  intros Hinv. pose proof Hinv as (new & Htr & Hdel & Hset & Hpages & Hkeys).
  destruct e as [d| |i|i|i]; simpl; try done.
  - destruct (suspended !! i) as [[page []]|]; try done.
    split; [|done]. exists (ActGenerated page :: new). simpl. rewrite Htr. done.
  - destruct (suspended !! i) as [[page []]|]; try done.
    split; [|done]. exists (ActGenerateFailed page :: new). simpl. rewrite Htr. done.
  - by destruct (suspended !! i) as [[page []]|].
Qed.

Lemma rebuildViewedInv_run (w0 : World) (urls : list string)
    (st : World * list (Page * Await)) (events : list Event) :
  rebuildViewedInv w0 urls st.1 →
  rebuildViewedInv w0 urls (run rebuildViewedStep st events).1
  ∧ toRebuild (site (run rebuildViewedStep st events).1) = toRebuild (site st.1).
Proof.
  revert st. induction events as [|e events IH]; intros st Hinv; [done|].
  simpl. destruct (rebuildViewedInv_step _ _ st e Hinv) as [Hinv' Hset].
  destruct (IH _ Hinv') as [? Hset']. split; [done|]. by rewrite Hset', Hset.
Qed.

(** C3, as amended: in a sequential and in a concurrent task,
    [toRebuild.delete] is called on the key of a page right after the
    [generate] call of that page has resolved, a call made earlier in the
    task, and at no other time: not when the call rejects.  In
    [_rebuildPageBeingViewed] it is called right before the [generate] call
    of the page is made, and the events that follow leave [toRebuild] as it
    is.  In all three the keys that have left [toRebuild] are the keys
    [delete] was called on. *)
Theorem toRebuild_delete_timing (ps : list Page) (normalizedUrls : list string)
    (w : World) (events : list Event) :
  (let w' := (run seqStep (generatePagesSequential ps w) events).1 in
   ∃ new, trace w' = new ++ trace w
          ∧ deletesFollowGenerated new = true
          ∧ generatedWereDispatched new
          ∧ toRebuild (site w') = toRebuild (site w) ∖ deletedKeys new)
  ∧ (let w' := (run poolStep (generatePagesAsyncThrottled ps w) events).1 in
     ∃ new, trace w' = new ++ trace w
            ∧ deletesFollowGenerated new = true
            ∧ generatedWereDispatched new
            ∧ toRebuild (site w') = toRebuild (site w) ∖ deletedKeys new)
  ∧ (let st0 := _rebuildPageBeingViewed normalizedUrls w in
     let w' := (run rebuildViewedStep st0 events).1 in
     ∃ new, trace w' = new ++ trace w
            ∧ deletesPrecedeGenerate new = true
            ∧ toRebuild (site w') = toRebuild (site w) ∖ deletedKeys new
            ∧ toRebuild (site w') = toRebuild (site st0.1)
            ∧ ∀ key, key ∈ deletedKeys new
                     ↔ key ∈ normalizedUrls
                       ∧ ∃ page, page ∈ pages (site w) ∧ normalizedSource page = key).
Proof.
  split_and!.
  - intros w'.
    assert (Hinv : traceInv w (seqAwaitingGenerate (generatePagesSequential ps w).2)
                     (generatePagesSequential ps w).1).
    { apply traceInv_sequentialFrom, traceInv_start. }
    destruct (traceInv_seq_run _ _ events Hinv) as (new & ? & ? & ? & ? & _).
    by exists new.
  - intros w'.
    destruct (traceInv_pool_run _ _ events (traceInv_pool_start ps w))
      as (new & ? & ? & ? & ? & _).
    by exists new.
  - intros st0 w'.
    destruct (rebuildViewedInv_run _ _ _ events (rebuildViewedInv_start normalizedUrls w))
      as [(new & ? & ? & ? & ? & ?) Hset].
    exists new. done.
Qed.

(** ** [runPageGenerationTasks] returns *)

Lemma run_app {S : Type} (step : S → Event → S) (st : S) (events events' : list Event) :
  run step st (events ++ events') = run step (run step st events) events'.
Proof. unfold run. by rewrite foldl_app. Qed.

Lemma runStep_sequential (w : World) (r : Run) (t : SeqTask) (e : Event) :
  run_pc r = RunSequential t →
  runStep (w, r) e = resumeSequential r (seqStep (w, t) e).
Proof.
  intros Hpc. unfold runStep, resumeSequential. rewrite Hpc.
  by destruct (seqStep (w, t) e) as [w1 t1].
Qed.

Lemma runStep_async (w : World) (r : Run) (pl : Pool) (e : Event) :
  run_pc r = RunAsync pl →
  runStep (w, r) e = resumeAsync r (poolStep (w, pl) e).
Proof.
  intros Hpc. unfold runStep, resumeAsync. rewrite Hpc.
  by destruct (poolStep (w, pl) e) as [w1 pl1].
Qed.

Lemma sameTimes_trans (w1 w2 w3 : World) :
  sameTimes w1 w2 → sameTimes w2 w3 → sameTimes w1 w3.
Proof. intros (? & ? & ?) (? & ? & ?). unfold sameTimes. split_and!; congruence. Qed.

Lemma stopRequested_sameTimes (start : nat) (w w' : World) :
  sameTimes w w' → stopRequested start w' = stopRequested start w.
Proof. intros (Hbg & Hth & _). unfold stopRequested. by rewrite Hbg, Hth. Qed.

Lemma clockOk_sameTimes (w w' : World) : sameTimes w w' → clockOk w → clockOk w'.
Proof. intros (_ & Hth & Hclk). unfold clockOk. by rewrite Hth, Hclk. Qed.

(** A sequential task nobody stops, whose pages all generate, returns. *)
Lemma sequential_returns (rest : list Page) (r : Run) (start : nat) (c : bool) (w : World) :
  stopRequested start w = false →
  ∃ events w',
    sameTimes w w'
    ∧ run runStep (resumeSequential r (sequentialFrom start rest c w)) events
      = runFrom (run_startTime r) (run_remaining r) c (run_statuses r ++ [Ran c]) w'.
Proof.
  revert r w. induction rest as [|page rest IH]; intros r w Hquiet.
  - exists [], w. done.
  - cbn [sequentialFrom]. rewrite Hquiet. unfold resumeSequential at 1. cbn [fst snd seq_pc].
    set (t1 := mkSeqTask start c rest (SeqAwait page AwaitGenerate)).
    set (w1 := act (ActGenerate page) w).
    set (r1 := mkRun (run_startTime r) (run_isCompleted r) (run_remaining r)
                 (RunSequential t1) (run_statuses r)).
    set (w2 := toRebuild_delete (normalizedSource page) (act (ActGenerated page) w1)).
    assert (Hquiet2 : stopRequested start w2 = false).
    { rewrite <- Hquiet. by apply stopRequested_sameTimes. }
    destruct (backgroundBuildMode (site w)) eqn:Hbg.
    + set (t2 := mkSeqTask start c rest (SeqAwait page AwaitWriteSiteData)).
      set (r2 := mkRun (run_startTime r) (run_isCompleted r) (run_remaining r)
                   (RunSequential t2) (run_statuses r)).
      destruct (IH r2 w2 Hquiet2) as (events & w' & Hsame & Hrun).
      exists (EvGenerated 0 :: EvSiteDataWritten 0 :: events), w'.
      split; [done|].
      cbn [run foldl]. rewrite (runStep_sequential w1 r1 t1) by done.
      assert (Hstep1 : seqStep (w1, t1) (EvGenerated 0) = (w2, t2)).
      { simpl. by rewrite Hbg. }
      rewrite Hstep1. unfold resumeSequential at 1. cbn [fst snd seq_pc t2].
      rewrite (runStep_sequential w2 _ t2) by done.
      exact Hrun.
    + destruct (IH r1 w2 Hquiet2) as (events & w' & Hsame & Hrun).
      exists (EvGenerated 0 :: events), w'. split; [done|].
      cbn [run foldl]. rewrite (runStep_sequential w1 r1 t1) by done.
      assert (Hstep1 : seqStep (w1, t1) (EvGenerated 0)
                       = sequentialFrom start rest c w2).
      { simpl. by rewrite Hbg. }
      rewrite Hstep1. exact Hrun.
Qed.

Lemma progress_running (w : World) (pl : Pool) :
  stopRequested (startTime pl) w = false → promise pl = None →
  numPagesGenerated pl + length (inFlight pl) + length (pageGenerationQueue pl) + 1
  = numPagesToGenerate pl →
  sameTimes w (generateProgressBarStatus (w, pl)).1
  ∧ (promise (generateProgressBarStatus (w, pl)).2 = Some (Resolved true)
     ∨ poolRunning (generateProgressBarStatus (w, pl))
       ∧ awaitsLeft (generateProgressBarStatus (w, pl)).2 ≤ awaitsLeft pl).
Proof.
  intros Hquiet Hp Hsum. unfold generateProgressBarStatus. rewrite Hquiet.
  destruct (last (pageGenerationQueue pl)) as [page|] eqn:Hlast.
  - apply last_Some in Hlast as [queue Hq].
    rewrite callGeneratePage_dispatches by done. rewrite Hq, removelast_last.
    rewrite Hq, length_app in Hsum. simpl in Hsum.
    split; [done|]. right. unfold poolRunning, awaitsLeft. simpl.
    rewrite sum_list_with_app, ?Hq, !length_app. simpl.
    split_and!; try done; try lia.
    by destruct (inFlight pl).
  - apply last_None in Hlast. rewrite Hlast in *. simpl in *.
    split; [done|]. case_decide as Hn.
    + left. by rewrite Hp.
    + right. unfold poolRunning, awaitsLeft. simpl. rewrite Hlast. simpl.
      split_and!; try done; try lia.
      intros Hnil. rewrite Hnil in Hsum. simpl in Hsum. lia.
Qed.

(** A concurrent task nobody stops, whose pages all generate, resolves to
    [true]. *)
Lemma async_returns (n : nat) (r : Run) (w : World) (pl : Pool) :
  awaitsLeft pl ≤ n → poolRunning (w, pl) →
  ∃ events w',
    sameTimes w w'
    ∧ run runStep
        (w, mkRun (run_startTime r) (run_isCompleted r) (run_remaining r)
              (RunAsync pl) (run_statuses r))
        events
      = runFrom (run_startTime r) (run_remaining r) true (run_statuses r ++ [Ran true]) w'.
Proof.
  revert r w pl. induction n as [|n IH]; intros r w pl Hn (Hquiet & Hp & Hne & Hsum);
    cbn [fst snd] in *; destruct (inFlight pl) as [|[page a] rest] eqn:Hin; try done.
  { unfold awaitsLeft in Hn. rewrite Hin in Hn. simpl in Hn. destruct a; lia. }
  set (r0 := mkRun (run_startTime r) (run_isCompleted r) (run_remaining r)
               (RunAsync pl) (run_statuses r)).
  set (w1 := toRebuild_delete (normalizedSource page) (act (ActGenerated page) w)).
  assert (Hquiet1 : stopRequested (startTime pl) w1 = false).
  { rewrite <- Hquiet. by apply stopRequested_sameTimes. }
  (* what is left to do once the callback of [page] has reported *)
  assert (Hreport : ∀ w0, sameTimes w w0 →
            stopRequested (startTime pl) w0 = false →
            awaitsLeft (setInFlight rest pl) ≤ n →
            ∃ events w',
              sameTimes w w'
              ∧ run runStep (resumeAsync r0 (generateProgressBarStatus
                                               (w0, setInFlight rest pl))) events
                = runFrom (run_startTime r) (run_remaining r) true
                    (run_statuses r ++ [Ran true]) w').
  { intros w0 Hsame0 Hquiet0 Hn0.
    destruct (progress_running w0 (setInFlight rest pl)) as [Hsame Hcases]; try done.
    { simpl. simpl in Hsum. lia. }
    destruct (generateProgressBarStatus (w0, setInFlight rest pl)) as [w2 pl2].
    cbn [fst snd] in *. unfold resumeAsync. cbn [fst snd].
    destruct Hcases as [Hdone|[Hrunning Hless]].
    - rewrite Hdone. exists [], w2. split; [by eapply sameTimes_trans|done].
    - pose proof Hrunning as (_ & Hp2 & _). cbn [fst snd] in Hp2. rewrite Hp2.
      destruct (IH r0 w2 pl2) as (events & w' & Hsame' & Hrun); [lia|done|].
      exists events, w'. split; [|done].
      eapply sameTimes_trans; [|done]. by eapply sameTimes_trans. }
  assert (Hleft : awaitsLeft pl
                  = match a with AwaitGenerate => 2 | AwaitWriteSiteData => 1 end
                    + awaitsLeft (setInFlight rest pl)).
  { unfold awaitsLeft. rewrite Hin. simpl. lia. }
  destruct a.
  - destruct (backgroundBuildMode (site w)) eqn:Hbg.
    + (* the page is generated, the site data is still to be written *)
      set (pl1 := setInFlight ((page, AwaitWriteSiteData) :: rest) pl).
      destruct (IH r0 w1 pl1) as (events & w' & Hsame & Hrun).
      * unfold pl1, awaitsLeft in *. simpl in *. lia.
      * unfold poolRunning, pl1. simpl. simpl in Hsum. done.
      * exists (EvGenerated 0 :: events), w'. split; [done|].
        cbn [run foldl]. rewrite (runStep_async w r0 pl) by done.
        assert (Hstep : poolStep (w, pl) (EvGenerated 0) = (w1, pl1)).
        { cbn -[generateProgressBarStatus]. rewrite Hin. simpl. by rewrite Hbg. }
        rewrite Hstep. unfold resumeAsync. cbn [fst snd pl1 setInFlight promise].
        rewrite Hp. exact Hrun.
    + destruct (Hreport w1) as (events & w' & Hsame & Hrun); [done|done|lia|].
      exists (EvGenerated 0 :: events), w'. split; [done|].
      cbn [run foldl]. rewrite (runStep_async w r0 pl) by done.
      assert (Hstep : poolStep (w, pl) (EvGenerated 0)
                      = generateProgressBarStatus (w1, setInFlight rest pl)).
      { cbn -[generateProgressBarStatus]. rewrite Hin. simpl. by rewrite Hbg. }
      rewrite Hstep. exact Hrun.
  - destruct (Hreport w) as (events & w' & Hsame & Hrun); [done|done|lia|].
    exists (EvSiteDataWritten 0 :: events), w'. split; [done|].
    cbn [run foldl]. rewrite (runStep_async w r0 pl) by done.
    assert (Hstep : poolStep (w, pl) (EvSiteDataWritten 0)
                    = generateProgressBarStatus (w, setInFlight rest pl)).
    { cbn -[generateProgressBarStatus]. by rewrite Hin. }
    rewrite Hstep. exact Hrun.
Qed.

Lemma runFrom_returns (tasks : list Task) (start : nat) (statuses : list TaskStatus)
    (w : World) :
  0 < MAX_CONCURRENT_PAGE_GENERATION_PROMISES →
  (∀ task, task ∈ tasks → mode task = Async → task_pages task ≠ []) →
  clockOk w → stopRequested start w = false →
  ∃ events,
    run_pc (run runStep (runFrom start tasks true statuses w) events).2
    = RunSettled (Resolved true).
Proof.
  intros HK. revert statuses w.
  induction tasks as [|task rest IH]; intros statuses w Hpages Hok Hquiet.
  - by exists [].
  - assert (Hrest : ∀ task', task' ∈ rest → mode task' = Async → task_pages task' ≠ []).
    { intros task' Hin. apply Hpages. by right. }
    set (r0 := mkRun start true rest (RunSettled (Resolved true)) statuses).
    assert (Hgo : ∀ events1 w',
              sameTimes w w' →
              run runStep (runFrom start (task :: rest) true statuses w) events1
              = runFrom start rest true (statuses ++ [Ran true]) w' →
              ∃ events,
                run_pc (run runStep (runFrom start (task :: rest) true statuses w) events).2
                = RunSettled (Resolved true)).
    { intros events1 w' Hsame Hrun.
      destruct (IH (statuses ++ [Ran true]) w' Hrest) as [events2 Hdone].
      - by eapply clockOk_sameTimes.
      - rewrite <- Hquiet. by apply stopRequested_sameTimes.
      - exists (events1 ++ events2). by rewrite run_app, Hrun. }
    destruct (mode task) eqn:Hmode.
    + (* a sequential task *)
      assert (Heq : runFrom start (task :: rest) true statuses w
                    = resumeSequential r0 (generatePagesSequential (task_pages task) w)).
      { cbn [runFrom]. rewrite Hquiet, Hmode. unfold resumeSequential.
        destruct (generatePagesSequential (task_pages task) w) as [w1 t]. simpl.
        by destruct (seq_pc t) as [?|[?|?]]. }
      destruct (sequential_returns (task_pages task) r0 (clock w) true w)
        as (events1 & w' & Hsame & Hrun); [by apply stopRequested_false_at_clock|].
      apply (Hgo events1 w' Hsame). rewrite Heq. exact Hrun.
    + (* a concurrent task *)
      assert (Hne : task_pages task ≠ []) by (apply Hpages; [left|done]).
      pose proof (generatePagesAsyncThrottled_first (task_pages task) w Hok) as Hfirst.
      set (w1 := mkWorld (site w) (clock w)
                   (rev (ActGenerate
                           <$> take MAX_CONCURRENT_PAGE_GENERATION_PROMISES (task_pages task))
                    ++ trace w)) in *.
      set (pl := mkPool (clock w) 0 (length (task_pages task)) true
                   (drop MAX_CONCURRENT_PAGE_GENERATION_PROMISES (task_pages task))
                   ((λ page, (page, AwaitGenerate))
                      <$> take MAX_CONCURRENT_PAGE_GENERATION_PROMISES (task_pages task))
                   None) in *.
      assert (Heq : runFrom start (task :: rest) true statuses w
                    = (w1, mkRun (run_startTime r0) (run_isCompleted r0) (run_remaining r0)
                             (RunAsync pl) (run_statuses r0))).
      { cbn [runFrom]. by rewrite Hquiet, Hmode, Hfirst. }
      assert (Hrunning : poolRunning (w1, pl)).
      { unfold poolRunning. simpl. split_and!.
        - exact (stopRequested_false_at_clock w Hok).
        - done.
        - destruct (task_pages task) as [|page l]; [done|].
          destruct MAX_CONCURRENT_PAGE_GENERATION_PROMISES; [lia|done].
        - rewrite length_fmap, length_take, length_drop. lia. }
      destruct (async_returns (awaitsLeft pl) r0 w1 pl (Nat.le_refl _) Hrunning)
        as (events1 & w' & Hsame & Hrun).
      apply (Hgo events1 w'); [done|]. rewrite Heq. exact Hrun.
Qed.

(** X20: when [runPageGenerationTasks] returns, every task has been reached;
    it returns [false] if one of them was cut short by cancellation (it was
    not started, or it resolved to [false]) and [true] otherwise.  A task
    that is cut short is never followed by a task that runs to completion:
    after it, no task is started.  And it does return, [true], when nobody
    stops the build and the pages all generate, provided every concurrent
    task has a page to start with. *)
Theorem runPageGenerationTasks_completed (tasks : list Task) (w : World) :
  clockOk w →
  (∀ events b,
     let r := (run runStep (runPageGenerationTasks tasks w) events).2 in
     run_pc r = RunSettled (Resolved b) →
     length (run_statuses r) = length tasks
     ∧ b = negb (existsb cutShort (run_statuses r))
     ∧ (∀ i j s, i < j < length tasks → run_statuses r !! i = Some s →
          cutShort s = true → run_statuses r !! j = Some NotStarted))
  ∧ (0 < MAX_CONCURRENT_PAGE_GENERATION_PROMISES →
     (∀ task, task ∈ tasks → mode task = Async → task_pages task ≠ []) →
     ∃ events,
       run_pc (run runStep (runPageGenerationTasks tasks w) events).2
       = RunSettled (Resolved true)).
Proof.
  intros Hok. split.
  - intros events b r Hpc.
    destruct (runInv_runFrom (clock w) tasks true [] w) as (Hinv0 & _ & Hn0);
      try done.
    fold (runPageGenerationTasks tasks w) in Hinv0, Hn0.
    destruct (runInv_run _ events Hinv0) as [(_ & _ & Hlast & Hinv) Hn].
    fold r in Hlast, Hinv, Hn. simpl in Hinv. rewrite Hpc in Hinv.
    destruct Hinv as [Hb Hrem].
    assert (Hlen : length (run_statuses r) = length tasks).
    { rewrite Hn0 in Hn. unfold runCount in Hn. rewrite Hpc, Hrem in Hn.
      simpl in Hn. lia. }
    split; [done|]. split; [done|].
    intros i j s [Hij Hj] Hi Hs. eapply Hlast; try done. lia.
  - intros HK Hpages. apply runFrom_returns; try done.
    by apply stopRequested_false_at_clock.
Qed.

End Properties.

(** * More properties: keeping the page set up to date *)

Section MaintenanceProperties.
Context `{!Collaborators} `{!PathCollaborators}.

(** ** [changeCurrentOpenedPages] *)

Lemma uniq_sublist (l : list string) : uniq l `sublist_of` l.
Proof.
  induction l as [|x l IH]; simpl; [done|].
  apply sublist_skip. etrans; [apply sublist_filter|done].
Qed.

Lemma head_uniq (l : list string) : head (uniq l) = head l.
Proof. by destruct l. Qed.

Lemma filter_lookup_lt {A} (P : A → Prop) `{!∀ x, Decision (P x)} (l : list A)
    (i j : nat) (p q : A) :
  i < j → filter P l !! i = Some p → filter P l !! j = Some q →
  ∃ i' j', i' < j' ∧ l !! i' = Some p ∧ l !! j' = Some q.
Proof.
  revert i j. induction l as [|x l IH]; intros i j Hij Hi Hj; [done|].
  rewrite filter_cons in Hi, Hj. destruct (decide (P x)) as [HP|HP].
  - destruct i as [|i], j as [|j]; try lia; simpl in *.
    + simplify_eq. apply list_elem_of_lookup_2, list_elem_of_filter in Hj as [_ Hq].
      apply list_elem_of_lookup in Hq as [j' Hj']. exists 0, (S j'). split_and!; [lia|done..].
    + destruct (IH i j) as (i' & j' & ? & ? & ?); [lia|done..|].
      exists (S i'), (S j'). split_and!; [lia|done..].
  - destruct (IH i j) as (i' & j' & ? & ? & ?); [lia|done..|].
    exists (S i'), (S j'). split_and!; [lia|done..].
Qed.

Lemma findIndex_cons_ne (x y : string) (l : list string) (n : nat) :
  y ≠ x → findIndex y l = Some n → findIndex y (x :: l) = Some (S n).
Proof.
  intros Hne Hn. unfold findIndex in *. simpl.
  rewrite decide_False by done. destruct (list_find _ l) as [[k z]|]; simplify_eq/=. done.
Qed.

Lemma findIndex_elem (y : string) (l : list string) :
  y ∈ l → ∃ n, findIndex y l = Some n.
Proof.
  intros Hin. destruct (findIndex y l) as [n|] eqn:Hf; [by exists n|].
  by apply findIndex_None in Hf.
Qed.

Lemma uniq_first_occurrence (l : list string) (i j : nat) (p q : string) :
  i < j → uniq l !! i = Some p → uniq l !! j = Some q →
  ∃ m n, m < n ∧ findIndex p l = Some m ∧ findIndex q l = Some n.
Proof.
  revert i j. induction l as [|x l IH]; intros i j Hij Hi Hj; [done|].
  simpl in Hi, Hj. destruct j as [|j]; [lia|]. simpl in Hj.
  assert (Hq : q ≠ x ∧ q ∈ l).
  { apply list_elem_of_lookup_2, list_elem_of_filter in Hj as [? ?].
    split; [done|]. by apply elem_of_uniq. }
  destruct Hq as [Hqx Hql]. destruct i as [|i]; simpl in Hi.
  - simplify_eq. destruct (findIndex_elem q l Hql) as [n Hn].
    exists 0, (S n). split_and!; [lia| |by apply findIndex_cons_ne].
    unfold findIndex. simpl. by rewrite decide_True.
  - assert (Hp : p ≠ x).
    { by apply list_elem_of_lookup_2, list_elem_of_filter in Hi as [? ?]. }
    destruct (filter_lookup_lt (λ y, y ≠ x) (uniq l) i j p q)
      as (i' & j' & Hlt & Hi' & Hj'); [lia|done..|].
    destruct (IH i' j' Hlt Hi' Hj') as (m & n & ? & ? & ?).
    exists (S m), (S n). split_and!; [lia|by apply findIndex_cons_ne..].
Qed.

(** X1: on a site built lazily [changeCurrentOpenedPages] replaces the list
    of opened pages by the resolved urls, each once, in the order of their
    first occurrence, so the most recently opened page stays first; on a
    site not built lazily it does nothing.  It never touches [toRebuild]. *)
Theorem changeCurrentOpenedPages_unique (normalizedUrls : list string) (s : Site) :
  let s' := changeCurrentOpenedPages normalizedUrls s in
  let openedPages := (λ url, path_join (rootPath s) url) <$> normalizedUrls in
  (onePagePath s = None → s' = s)
  ∧ (onePagePath s ≠ None →
       NoDup (currentOpenedPages s')
       ∧ (∀ pagePath, pagePath ∈ currentOpenedPages s' ↔ pagePath ∈ openedPages)
       ∧ (∀ i j p q,
            i < j → currentOpenedPages s' !! i = Some p →
            currentOpenedPages s' !! j = Some q →
            ∃ m n, m < n ∧ findIndex p openedPages = Some m
                   ∧ findIndex q openedPages = Some n)
       ∧ currentOpenedPages s' `sublist_of` openedPages
       ∧ head (currentOpenedPages s') = head openedPages)
  ∧ toRebuild s' = toRebuild s
  ∧ pages s' = pages s
  ∧ currentPageViewed s' = currentPageViewed s.
Proof.
  intros s' openedPages. subst s'. unfold changeCurrentOpenedPages.
  destruct (onePagePath s) as [o|] eqn:Hlazy; simpl.
  - split; [done|]. split; [|done]. intros _. split_and!.
    + apply NoDup_uniq.
    + intros pagePath. apply elem_of_uniq.
    + intros i j p q. apply uniq_first_occurrence.
    + apply uniq_sublist.
    + apply head_uniq.
  - split; [done|]. split; [|done]. by intros [].
Qed.

(** ** [lazyBuildAllPagesNotViewed] *)

Lemma elem_of_lazy_marks (viewed key : string) (l : list Page) (pending : gset string) :
  key ∈ foldl (λ pending page,
                 let normalizedUrl := normalizedSource page in
                 if decide (normalizedUrl ≠ viewed)
                 then {[normalizedUrl]} ∪ pending
                 else pending) pending l
  ↔ key ∈ pending
    ∨ (key ≠ viewed ∧ ∃ page, page ∈ l ∧ normalizedSource page = key).
Proof.
  revert pending. induction l as [|page l IH]; intros pending; simpl.
  - split; [auto|]. intros [?|(_ & ? & Hin & _)]; [done|]. by apply elem_of_nil in Hin.
  - rewrite IH. destruct (decide (normalizedSource page ≠ viewed)) as [Hne|Heq].
    + rewrite elem_of_union, elem_of_singleton. split.
      * intros [[->|?]|(? & p & ? & ?)]; [|auto|].
        -- right. split; [done|]. exists page. split; [left|done].
        -- right. split; [done|]. exists p. split; [by right|done].
      * intros [?|(Hk & p & Hin & Hp)]; [auto|].
        apply elem_of_cons in Hin as [->|Hin]; [auto|].
        right. eauto.
    + split.
      * intros [?|(? & p & ? & ?)]; [auto|]. right. split; [done|].
        exists p. split; [by right|done].
      * intros [?|(Hk & p & Hin & Hp)]; [auto|].
        apply elem_of_cons in Hin as [->|Hin]; [|right; eauto].
        destruct Heq. congruence.
Qed.

(** X2: [lazyBuildAllPagesNotViewed] marks exactly the pages whose key is
    not the page being viewed, keeps what was marked, and does not mark the
    page being viewed; doing it twice changes nothing more. *)
Theorem lazyBuildAllPagesNotViewed_marks (s : Site) :
  let s' := lazyBuildAllPagesNotViewed s in
  (∀ key, key ∈ toRebuild s'
          ↔ key ∈ toRebuild s
            ∨ (key ≠ currentPageViewed s
               ∧ ∃ page, page ∈ pages s ∧ normalizedSource page = key))
  ∧ (currentPageViewed s ∈ toRebuild s' ↔ currentPageViewed s ∈ toRebuild s)
  ∧ pages s' = pages s ∧ currentPageViewed s' = currentPageViewed s
  ∧ lazyBuildAllPagesNotViewed s' = s'.
Proof.
  intros s'.
  assert (Hiff : ∀ key, key ∈ toRebuild s'
          ↔ key ∈ toRebuild s
            ∨ (key ≠ currentPageViewed s
               ∧ ∃ page, page ∈ pages s ∧ normalizedSource page = key)).
  { intros key. apply elem_of_lazy_marks. }
  split; [done|]. split; [|split; [done|split; [done|]]].
  - rewrite Hiff. split; [|auto]. by intros [?|[? _]].
  - subst s'. unfold lazyBuildAllPagesNotViewed, set_toRebuild. simpl. f_equal.
    apply set_eq. intros key. rewrite !elem_of_lazy_marks. tauto.
Qed.

(** ** [_rebuildPageBeingViewed], url by url *)

Lemma rebuildViewed_foldl (urls : list string) (st : World * list (Page * Await)) :
  let st' := foldl rebuildViewedCallback st urls in
  let found :=
    omap (λ url, find (λ page, bool_decide (normalizedSource page = url))
                   (pages (site st.1))) urls in
  pages (site st'.1) = pages (site st.1)
  ∧ dispatched (trace st'.1) = dispatched (trace st.1) ++ found
  ∧ st'.2 = st.2 ++ ((λ page, (page, AwaitGenerate)) <$> found)
  ∧ toRebuild (site st'.1)
    = toRebuild (site st.1) ∖ list_to_set (normalizedSource <$> found).
Proof.
  revert st. induction urls as [|url urls IH]; intros [w suspended]; simpl.
  - rewrite !app_nil_r. split_and!; try done. set_solver.
  - destruct (find _ (pages (site w))) as [pageToRebuild|] eqn:Hfind; simpl.
    + destruct (IH (act (ActGenerate pageToRebuild) (toRebuild_delete url w),
                    suspended ++ [(pageToRebuild, AwaitGenerate)]))
        as (Hp & Hd & Hs & Hr).
      simpl in *. rewrite Hp, Hd, Hs, Hr. split_and!.
      * done.
      * rewrite !dispatched_cons. simpl. rewrite app_nil_r, <- app_assoc. done.
      * by rewrite <- app_assoc.
      * apply find_some in Hfind as [_ Hkey]. apply bool_decide_eq_true in Hkey.
        rewrite Hkey. set_solver.
    + destruct (IH (w, suspended)) as (Hp & Hd & Hs & Hr). simpl in *. done.
Qed.

Lemma found_keys_sublist (urls : list string) (ps : list Page) :
  normalizedSource
    <$> omap (λ url, find (λ page, bool_decide (normalizedSource page = url)) ps) urls
  `sublist_of` urls.
Proof.
  induction urls as [|url urls IH]; simpl; [done|].
  destruct (find _ ps) as [page|] eqn:Hfind; simpl.
  - apply find_some in Hfind as [_ Hkey]. apply bool_decide_eq_true in Hkey.
    rewrite Hkey. by apply sublist_skip.
  - by apply sublist_cons.
Qed.

(** X3: [_rebuildPageBeingViewed] calls [generate] once for each distinct
    url that is the key of a page, on the first page with that key, in the
    order of the urls, and takes just these keys out of [toRebuild]; a url
    that is the key of no page is skipped: nothing is generated for it and
    [toRebuild] stays as it is. *)
Theorem rebuildPageBeingViewed_once_per_url (normalizedUrls : list string) (w : World) :
  let st := _rebuildPageBeingViewed normalizedUrls w in
  let found :=
    omap (λ url, find (λ page, bool_decide (normalizedSource page = url))
                   (pages (site w))) (uniq normalizedUrls) in
  dispatched (trace st.1) = dispatched (trace w) ++ found
  ∧ st.2 = (λ page, (page, AwaitGenerate)) <$> found
  ∧ NoDup (normalizedSource <$> found)
  ∧ (∀ key, key ∈ toRebuild (site st.1)
            ↔ key ∈ toRebuild (site w) ∧ key ∉ normalizedSource <$> found)
  ∧ (∀ url, (∀ page, page ∈ pages (site w) → normalizedSource page ≠ url) →
            _rebuildPageBeingViewed [url] w = (w, [])).
Proof.
  intros st found.
  destruct (rebuildViewed_foldl (uniq normalizedUrls) (w, [])) as (_ & Hd & Hs & Hr).
  fold (_rebuildPageBeingViewed normalizedUrls w) in Hd, Hs, Hr. fold st in Hd, Hs, Hr.
  simpl in Hd, Hs, Hr. fold found in Hd, Hs, Hr. split_and!; try done.
  - apply (sublist_NoDup _ (uniq normalizedUrls)); [apply NoDup_uniq|].
    apply (found_keys_sublist (uniq normalizedUrls) (pages (site w))).
  - intros key. rewrite Hr, elem_of_difference, elem_of_list_to_set. done.
  - intros url Hnone. unfold _rebuildPageBeingViewed. simpl.
    destruct (find _ (pages (site w))) as [page|] eqn:Hfind; [|done].
    apply find_some in Hfind as [Hin Hkey]. apply bool_decide_eq_true in Hkey.
    apply list_elem_of_In in Hin. by destruct (Hnone page Hin).
Qed.

(** X4: on a site built lazily, after [lazyBuildAllPagesNotViewed] a visit
    to a page that is not the one being viewed asks for its rebuild; once
    [_rebuildPageBeingViewed] has started on it, its key is no longer marked
    and a second visit asks for nothing. *)
Theorem lazy_navigation_rebuilds_once (s : Site) (page : Page) (normalizedUrl : string)
    (now : nat) (tr : list Action) :
  page ∈ pages s →
  path_join (rootPath s) normalizedUrl = normalizedSource page →
  normalizedSource page ≠ currentPageViewed s →
  let visit := changeCurrentPage normalizedUrl (lazyBuildAllPagesNotViewed s) in
  let st := _rebuildPageBeingViewed [normalizedSource page] (mkWorld visit.1.1 now tr) in
  visit.1.2 = true
  ∧ visit.2 = [CallBeforeSiteGenerate; CallRebuildPageBeingViewed (normalizedSource page)]
  ∧ (∃ page', page' ∈ pages s ∧ normalizedSource page' = normalizedSource page
              ∧ dispatched (trace st.1) = dispatched tr ++ [page'])
  ∧ (changeCurrentPage normalizedUrl (site st.1)).1.2 = false
  ∧ (changeCurrentPage normalizedUrl (site st.1)).2 = [].
Proof.
  intros Hin Hurl Hne visit st.
  assert (Hmarked : normalizedSource page ∈ toRebuild (lazyBuildAllPagesNotViewed s)).
  { apply elem_of_lazy_marks. right. eauto. }
  assert (Hvisit : visit = (set_currentPageViewed (normalizedSource page)
                              (lazyBuildAllPagesNotViewed s), true,
                            [CallBeforeSiteGenerate;
                             CallRebuildPageBeingViewed (normalizedSource page)])).
  { subst visit. unfold changeCurrentPage. simpl. rewrite Hurl.
    by rewrite bool_decide_eq_true_2. }
  subst st. rewrite Hvisit. simpl. split; [done|]. split; [done|].
  destruct (find (λ p, bool_decide (normalizedSource p = normalizedSource page)) (pages s))
    as [page'|] eqn:Hfind.
  2:{ eapply find_none in Hfind; [|by apply list_elem_of_In].
      by rewrite bool_decide_eq_true_2 in Hfind. }
  pose proof Hfind as Hfind'.
  apply find_some in Hfind' as [Hin' Hkey]. apply bool_decide_eq_true in Hkey.
  apply list_elem_of_In in Hin'.
  unfold _rebuildPageBeingViewed, rebuildViewedCallback. simpl. rewrite Hfind. simpl.
  split.
  - exists page'. split; [done|]. split; [done|].
    rewrite dispatched_cons. simpl. rewrite dispatched_cons. simpl.
    by rewrite app_nil_r.
  - unfold changeCurrentPage. simpl. rewrite Hurl.
    rewrite bool_decide_eq_false_2; [done|]. set_solver.
Qed.

(** ** [regenerateAffectedPages]: the opened pages *)

Lemma definedPages_lookup {A} (arr : list (option A)) (k : nat) (q : A) :
  omap id arr !! k = Some q → ∃ n, arr !! n = Some (Some q).
Proof.
  intros Hk. apply list_elem_of_lookup_2 in Hk.
  apply list_elem_of_omap in Hk as (o & Hin & Ho). simpl in Ho. subst o.
  by apply list_elem_of_lookup_1 in Hin.
Qed.

Lemma definedPages_lookup_lt {A} (arr : list (option A)) (i j : nat) (p q : A) :
  i < j → omap id arr !! i = Some p → omap id arr !! j = Some q →
  ∃ m n, m < n ∧ arr !! m = Some (Some p) ∧ arr !! n = Some (Some q).
Proof.
  revert i j. induction arr as [|o arr IH]; intros i j Hij Hi Hj; [done|].
  destruct o as [x|]; simpl in Hi, Hj.
  - destruct i as [|i]; destruct j as [|j]; try lia; simpl in Hi, Hj.
    + injection Hi as ->. destruct (definedPages_lookup arr j q Hj) as [n Hn].
      exists 0, (S n). split; [lia|done].
    + destruct (IH i j) as (m & n & ? & ? & ?); [lia|done..|].
      exists (S m), (S n). split; [lia|done].
  - destruct (IH i j) as (m & n & ? & ? & ?); [lia|done..|].
    exists (S m), (S n). split; [lia|done].
Qed.

(** X5: on a site built lazily [regenerateAffectedPages] regenerates at
    once only affected pages that are opened, each key once, and in the
    order of [currentOpenedPages], the most recently opened first; no page
    goes to a concurrent task. *)
Theorem regenerateAffectedPages_opened_order (filePaths : list string) (s : Site) :
  onePagePath s ≠ None →
  let a := affectedPages filePaths s in
  let opened := definedPages (openedPagesToRegenerate a) in
  asyncPagesToRegenerate a = []
  ∧ (∀ i j p q, i < j → opened !! i = Some p → opened !! j = Some q →
       ∃ m n, m < n
              ∧ findIndex (normalizedSource p) (currentOpenedPages s) = Some m
              ∧ findIndex (normalizedSource q) (currentOpenedPages s) = Some n)
  ∧ NoDup (normalizedSource <$> opened)
  ∧ (∀ p, p ∈ opened →
       p ∈ pages s ∧ isAffected filePaths s p = true
       ∧ normalizedSource p ∈ currentOpenedPages s).
Proof.
  intros Hlazy a opened.
  destruct (onePagePath s) as [o|] eqn:Ho; [|done].
  destruct (affectedPages_lazy filePaths s o Ho) as (Hasync & _ & Hopen & _).
  fold a in Hasync, Hopen.
  assert (Horder : ∀ i j p q, i < j → opened !! i = Some p → opened !! j = Some q →
       ∃ m n, m < n
              ∧ findIndex (normalizedSource p) (currentOpenedPages s) = Some m
              ∧ findIndex (normalizedSource q) (currentOpenedPages s) = Some n).
  { intros i j p q Hij Hi Hj.
    destruct (definedPages_lookup_lt _ i j p q Hij Hi Hj) as (m & n & Hmn & Hm & Hn).
    exists m, n. split; [done|].
    destruct (Hopen m p Hm) as (_ & _ & ?). destruct (Hopen n q Hn) as (_ & _ & ?).
    done. }
  split; [done|]. split; [done|]. split.
  - apply NoDup_alt. intros i j key Hi Hj.
    apply list_lookup_fmap_Some in Hi as (p & -> & Hp).
    apply list_lookup_fmap_Some in Hj as (q & Hkey & Hq).
    destruct (decide (i = j)) as [|Hne]; [done|]. exfalso.
    destruct (decide (i < j)) as [Hlt|Hge].
    + destruct (Horder i j p q) as (m & n & ? & Hm & Hn); [done..|].
      rewrite <- Hkey, Hm in Hn. injection Hn as ->. lia.
    + destruct (Horder j i q p) as (m & n & ? & Hm & Hn); [lia|done..|].
      rewrite Hkey, Hm in Hn. injection Hn as ->. lia.
  - intros p Hp. apply elem_of_definedPages in Hp as [i Hi].
    destruct (Hopen i p Hi) as (? & ? & Hidx). split; [done|]. split; [done|].
    apply findIndex_Some in Hidx. by eapply list_elem_of_lookup_2.
Qed.

(** ** [isFilepathAPage] *)

Lemma pagesFromSrc_sources (cfg : SiteConfig) :
  entry_src <$> pagesFromSrc cfg = srcesFromPages cfg.
Proof.
  unfold pagesFromSrc, srcesFromPages.
  induction (filter _ (config_pages cfg)) as [|page l IH]; [done|].
  rewrite !bind_cons, fmap_app, IH. f_equal.
  unfold splitSrc. destruct (spec_src page) as [[p|ps]|]; simpl; try done.
  rewrite <- list_fmap_compose. simpl. by rewrite list_fmap_id.
Qed.

Lemma pagesFromGlobs_sources (s : Site) :
  entry_src <$> pagesFromGlobs s (siteConfig s)
  = filter (λ page, truthy (prop (spec_props page) "glob") = true)
      (config_pages (siteConfig s))
    ≫= (λ page, getPageGlobPaths s page (pagesExclude (siteConfig s))).
Proof.
  unfold pagesFromGlobs.
  induction (filter _ (config_pages (siteConfig s))) as [|page l IH]; [done|].
  rewrite !bind_cons, fmap_app, IH. f_equal.
  rewrite <- list_fmap_compose. simpl. by rewrite list_fmap_id.
Qed.

Lemma isFilepathAPage_true (filePath : string) (s : Site) :
  isFilepathAPage filePath s = true
  ↔ relativePosix (rootPath s) filePath ∈ entry_src <$> pagesFromSrc (siteConfig s)
    ∨ relativePosix (rootPath s) filePath
      ∈ entry_src <$> pagesFromGlobs s (siteConfig s).
Proof.
  unfold isFilepathAPage. rewrite pagesFromSrc_sources, pagesFromGlobs_sources.
  case_bool_decide as Hsrc.
  - split; [auto|done].
  - rewrite existsb_exists. split.
    + intros (fp & Hin & Heq). apply bool_decide_eq_true in Heq. subst fp.
      right. by apply list_elem_of_In.
    + intros [?|Hin]; [done|]. eexists. split; [by apply list_elem_of_In|].
      by apply bool_decide_eq_true.
Qed.

(** X6: [isFilepathAPage] agrees with [collectAddressablePages] on every
    path but [__proto__]: when the configuration has no duplicate, a file is
    a page exactly when its path relative to the root is the [src] of an
    addressable page, or is [__proto__] and is given as a [src] or found by
    a glob; [__proto__] itself is never the [src] of an addressable page. *)
Theorem isFilepathAPage_addressable (filePath : string) (s : Site)
    (addressable : list PageEntry) :
  collectAddressablePages s = inr addressable →
  (isFilepathAPage filePath s = true
   ↔ relativePosix (rootPath s) filePath ∈ entry_src <$> addressable
     ∨ (relativePosix (rootPath s) filePath = "__proto__"
        ∧ ("__proto__" ∈ entry_src <$> pagesFromSrc (siteConfig s)
           ∨ "__proto__" ∈ entry_src <$> pagesFromGlobs s (siteConfig s))))
  ∧ "__proto__" ∉ entry_src <$> addressable.
Proof.
  intros Hcollect.
  destruct (collectAddressablePages_keys s addressable Hcollect)
    as (_ & _ & _ & Hno & Hmem).
  split; [|done]. rewrite isFilepathAPage_true, Hmem.
  destruct (decide (relativePosix (rootPath s) filePath = "__proto__")) as [->|Hne].
  - tauto.
  - tauto.
Qed.

(** ** [updateAddressablePages] *)

Lemma filter_none {A} (P : A → Prop) `{!∀ x, Decision (P x)} (l : list A) :
  (∀ x, x ∈ l → ¬ P x) → filter P l = [].
Proof.
  induction l as [|x l IH]; intros Hno; [done|].
  rewrite filter_cons_False by (apply Hno; left).
  apply IH. intros y Hy. apply Hno. by right.
Qed.

Lemma difference_self (l : list string) : difference l l = [].
Proof. unfold difference. apply filter_none. intros x Hx Hn. by apply Hn. Qed.

(** X7: [updateAddressablePages] throws what [collectAddressablePages]
    throws; otherwise it stores the new addressable pages and returns the
    [.html] path of each source that was addressable and is no longer found
    by a glob nor named by an entry, in their old order (a source
    [__proto__], which gets no page, counts as no longer found).  Called
    again with the configuration unchanged, it returns nothing. *)
Theorem updateAddressablePages_removed (s : Site) :
  (∀ msg, collectAddressablePages s = inl msg → updateAddressablePages s = inl msg)
  ∧ (∀ s' removed, updateAddressablePages s = inr (s', removed) →
       collectAddressablePages s = inr (addressablePages s')
       ∧ removed
         = (λ filePath, setExtension filePath ".html")
             <$> filter (λ src,
                           src = "__proto__"
                           ∨ (src ∉ entry_src <$> pagesFromGlobs s (siteConfig s))
                             ∧ (src ∉ entry_src <$> pagesFromSrc (siteConfig s)))
                   (entry_src <$> addressablePages s)
       ∧ toRebuild s' = toRebuild s ∧ pages s' = pages s
       ∧ updateAddressablePages s' = inr (s', [])).
Proof.
  unfold updateAddressablePages. split.
  - intros msg Hc. by rewrite Hc.
  - intros s' removed.
    destruct (collectAddressablePages s) as [msg|addressable] eqn:Hc; [done|].
    intros [= <- <-]. simpl. split; [done|]. split; [|split; [done|split; [done|]]].
    + f_equal. unfold difference. apply list_filter_iff. intros src.
      destruct (collectAddressablePages_keys s addressable Hc) as (_ & _ & _ & _ & Hmem).
      rewrite Hmem. destruct (decide (src = "__proto__")); tauto.
    + replace (collectAddressablePages (set_addressablePages addressable s))
        with (collectAddressablePages s) by done.
      rewrite Hc. by rewrite difference_self.
Qed.

(** ** [reloadSiteConfig] *)

Lemma existsb_isNewPage (page : PageEntry) (l : list PageEntry) :
  (∀ a b, isEqual a b = true → entry_src a = entry_src b) →
  existsb (isNewPage page) l = false ↔ entry_src page ∉ entry_src <$> l.
Proof.
  intros Hsrc. rewrite <- not_true_iff_false, existsb_exists. split.
  - intros Hno Hin. apply list_elem_of_fmap in Hin as (o & Ho & Hin).
    apply Hno. exists o. split; [by apply list_elem_of_In|].
    unfold isNewPage. rewrite (bool_decide_eq_true_2 _ Ho). by rewrite orb_true_r.
  - intros Hno (o & Hin & Hnew). apply Hno, list_elem_of_fmap. exists o.
    split; [|by apply list_elem_of_In].
    unfold isNewPage in Hnew. apply orb_true_iff in Hnew as [?|Heq]; [auto|].
    by apply bool_decide_eq_true in Heq.
Qed.

Lemma existsb_if_negb {A} (f : A → bool) (l : list A) :
  existsb (λ x, if negb (f x) then false else true) l = existsb f l.
Proof.
  induction l as [|x l IH]; [done|]. simpl. rewrite IH. by destruct (f x).
Qed.

(** X8: what [reloadSiteConfig] does with the new configuration, [isEqual]
    being a comparison of objects that have a [src].  It rebuilds the source
    files exactly when some [src] has come or gone, and then removes the
    [.html] of each [src] that has gone; otherwise the pages it regenerates
    are the new entries equal to no old entry, each of which has an old
    entry with its [src]; a configuration that gives the addressable pages
    the site already has regenerates nothing. *)
Theorem reloadSiteConfig_plan (newConfig : SiteConfig) (s : Site) :
  (∀ a b, isEqual a b = true → entry_src a = entry_src b) →
  (∀ a, isEqual a a = true) →
  let old := addressablePages s in
  (∀ s' plan, reloadSiteConfig newConfig s = inr (s', plan) →
     let new := addressablePages s' in
     collectAddressablePages (set_siteConfig newConfig s) = inr new
     ∧ siteConfig s' = newConfig
     ∧ match plan with
       | RebuildSourceFiles removed =>
           removed
           = (λ src, setExtension src ".html")
               <$> filter (λ src, src ∉ entry_src <$> new) (entry_src <$> old)
           ∧ ((∃ page, page ∈ new ∧ entry_src page ∉ entry_src <$> old)
              ∨ (∃ page, page ∈ old ∧ entry_src page ∉ entry_src <$> new))
       | RegenerateEdited edited =>
           (∀ src, src ∈ entry_src <$> new ↔ src ∈ entry_src <$> old)
           ∧ edited = filter (λ page, existsb (isEqual page) old = false) new
           ∧ ∀ page, page ∈ edited →
               ∃ oldPage, oldPage ∈ old ∧ entry_src oldPage = entry_src page
                          ∧ isEqual page oldPage = false
       end)
  ∧ (collectAddressablePages (set_siteConfig newConfig s) = inr old →
     ∃ s', reloadSiteConfig newConfig s = inr (s', RegenerateEdited [])).
Proof.
  intros Hsrc Hrefl old.
  assert (Hadded : ∀ new, addedPages old new
                          = filter (λ page, entry_src page ∉ entry_src <$> old) new).
  { intros new. unfold addedPages, differenceWith. apply list_filter_iff.
    intros page. by apply existsb_isNewPage. }
  assert (Hgone : ∀ new, differenceWith old new isNewPage
                         = filter (λ page, entry_src page ∉ entry_src <$> new) old).
  { intros new. unfold differenceWith. apply list_filter_iff.
    intros page. by apply existsb_isNewPage. }
  assert (Hfmap_filter : ∀ (new l : list PageEntry),
            entry_src <$> filter (λ page, entry_src page ∉ entry_src <$> new) l
            = filter (λ src, src ∉ entry_src <$> new) (entry_src <$> l)).
  { intros new l. induction l as [|x l IH]; [done|].
    rewrite fmap_cons, !filter_cons. case_decide; csimpl; by rewrite IH. }
  assert (Hedited : ∀ new,
            (∀ page, page ∈ new → entry_src page ∈ entry_src <$> old) →
            editedPages old new = filter (λ page, existsb (isEqual page) old = false) new).
  { intros new Hin. unfold editedPages, differenceWith.
    induction new as [|page new IH]; [done|].
    rewrite !filter_cons.
    assert (Hsame : existsb (λ oldPage,
                       if negb (isEqual page oldPage)
                       then negb (bool_decide (entry_src page ∈ entry_src <$> old))
                       else true) old
                    = existsb (isEqual page) old).
    { rewrite (bool_decide_eq_true_2 (entry_src page ∈ entry_src <$> old))
        by (apply Hin; left). simpl.
      apply existsb_if_negb. }
    rewrite Hsame. rewrite IH by (intros p Hp; apply Hin; by right). done. }
  split.
  - intros s' plan. unfold reloadSiteConfig.
    destruct (collectAddressablePages (set_siteConfig newConfig s))
      as [msg|addressable] eqn:Hc; [done|].
    fold old. rewrite Hadded. unfold removedPages. rewrite Hgone.
    set (added := filter (λ page, entry_src page ∉ entry_src <$> old) addressable).
    set (gone := filter (λ page, entry_src page ∉ entry_src <$> addressable) old).
    destruct (negb (bool_decide (added = []))
              || negb (bool_decide ((λ filePath, setExtension (entry_src filePath) ".html")
                                      <$> gone = []))) eqn:Hchanged.
    + intros [= <- <-]. simpl. split; [done|]. split; [done|]. split.
      * unfold gone. rewrite <- Hfmap_filter, <- list_fmap_compose. done.
      * apply orb_true_iff in Hchanged as [Ha|Hg].
        -- left. apply negb_true_iff, bool_decide_eq_false in Ha.
           destruct added as [|page l] eqn:Hl; [done|]. exists page.
           assert (Hin : page ∈ added) by (rewrite Hl; left).
           apply list_elem_of_filter in Hin as [? ?]. done.
        -- right. apply negb_true_iff, bool_decide_eq_false in Hg.
           destruct gone as [|page l] eqn:Hl; [done|]. exists page.
           assert (Hin : page ∈ gone) by (rewrite Hl; left).
           apply list_elem_of_filter in Hin as [? ?]. done.
    + intros [= <- <-]. simpl. split; [done|]. split; [done|].
      apply orb_false_iff in Hchanged as [Ha Hg].
      apply negb_false_iff, bool_decide_eq_true in Ha, Hg.
      apply fmap_nil_inv in Hg.
      assert (Hnew : ∀ page, page ∈ addressable → entry_src page ∈ entry_src <$> old).
      { intros page Hin. destruct (decide (entry_src page ∈ entry_src <$> old)); [done|].
        assert (Hin' : page ∈ added) by (by apply list_elem_of_filter).
        rewrite Ha in Hin'. by apply elem_of_nil in Hin'. }
      assert (Hold : ∀ page, page ∈ old → entry_src page ∈ entry_src <$> addressable).
      { intros page Hin.
        destruct (decide (entry_src page ∈ entry_src <$> addressable)); [done|].
        assert (Hin' : page ∈ gone) by (by apply list_elem_of_filter).
        rewrite Hg in Hin'. by apply elem_of_nil in Hin'. }
      split_and!.
      * intros src. split.
        -- intros (page & -> & Hin)%list_elem_of_fmap. by apply Hnew.
        -- intros (page & -> & Hin)%list_elem_of_fmap. by apply Hold.
      * by apply Hedited.
      * intros page Hin. rewrite Hedited in Hin by done.
        apply list_elem_of_filter in Hin as [Hno Hin].
        pose proof (Hnew page Hin) as Hhas.
        apply list_elem_of_fmap in Hhas as (oldPage & Hkey & Hin').
        exists oldPage. split; [done|]. split; [done|].
        destruct (isEqual page oldPage) eqn:Heq; [|done].
        rewrite <- not_true_iff_false in Hno. destruct Hno.
        apply existsb_exists. exists oldPage. split; [by apply list_elem_of_In|done].
  - intros Hc. unfold reloadSiteConfig. rewrite Hc. fold old.
    rewrite Hadded. unfold removedPages. rewrite Hgone.
    assert (Hnone : ∀ l, filter (λ page, entry_src page ∉ entry_src <$> old) l = []
                         ∨ ¬ l ⊆ old).
    { intros l. destruct (filter _ l) as [|page k] eqn:Hl; [by left|]. right.
      intros Hsub. assert (Hin : page ∈ filter (λ page, entry_src page ∉ entry_src <$> old) l)
        by (rewrite Hl; left).
      apply list_elem_of_filter in Hin as [Hno Hin]. apply Hno.
      apply list_elem_of_fmap_2. by apply Hsub. }
    destruct (Hnone old) as [->|Hno]; [|by destruct Hno]. simpl.
    eexists. f_equal. f_equal. f_equal.
    rewrite Hedited by (intros page Hin; by apply list_elem_of_fmap_2).
    apply filter_none. intros page Hin Hno.
    rewrite <- not_true_iff_false in Hno. apply Hno, existsb_exists.
    exists page. split; [by apply list_elem_of_In|done].
Qed.

(** ** Pages found by globs only *)

Lemma laterWins_none (key f : string) (l : list PageEntry) :
  (∀ page, page ∈ l → entry_src page = key → entry_props page !! f = None) →
  laterWins key f l = None.
Proof.
  induction l as [|page l IH] using rev_ind; intros Hnone; [done|].
  rewrite laterWins_snoc, IH.
  - unfold laterWinsStep. case_decide as Hkey; [|done].
    rewrite (Hnone page); [done| |done]. rewrite elem_of_app, list_elem_of_singleton. auto.
  - intros p Hin. apply Hnone. rewrite elem_of_app. auto.
Qed.

(** X9: a page that only globs find gets from its entries nothing but
    [searchable], [layout] and [frontmatter]: any other property of a glob
    entry, such as [title] or [externalScripts], is dropped.  So it is when
    no path found by a glob or given as a [src] is [__proto__]. *)
Theorem collectAddressablePages_glob_properties (s : Site)
    (addressable : list PageEntry) (r : PageEntry) (f : string) :
  collectAddressablePages s = inr addressable →
  ("__proto__" ∉ entry_src <$> pagesFromGlobs s (siteConfig s)
                              ++ pagesFromSrc (siteConfig s)) →
  r ∈ addressable →
  entry_src r ∉ entry_src <$> pagesFromSrc (siteConfig s) →
  f ≠ "searchable" → f ≠ "layout" → f ≠ "frontmatter" →
  entry_src r ∈ entry_src <$> pagesFromGlobs s (siteConfig s)
  ∧ entry_props r !! f = None.
Proof.
  intros Hcollect Hplain Hr Hno Hs Hl Hf.
  destruct (collectAddressablePages_keys s addressable Hcollect)
    as (-> & _ & _ & _ & Hmem).
  split.
  - assert (Hin : entry_src r ∈ entry_src <$> mergePages
                    (pagesFromGlobs s (siteConfig s) ++ pagesFromSrc (siteConfig s)))
      by (by apply list_elem_of_fmap_2).
    apply Hmem in Hin as [_ [?|?]]; done.
  - rewrite (mergePages_laterWins _ _ _ Hplain Hr). apply laterWins_none.
    intros page Hin Hkey. apply elem_of_app in Hin as [Hin|Hin].
    + by apply (pagesFromGlobs_props s).
    + destruct Hno. rewrite <- Hkey. by apply list_elem_of_fmap_2.
Qed.

End MaintenanceProperties.

(** * More properties: the scheduler and the pages marked to be rebuilt *)

Section SchedulerProperties.
Context `{!Collaborators}.

(** ** Builds that no stop reaches *)

Lemma clockOk_stopOngoingBuilds (w : World) : clockOk (stopOngoingBuilds w).
Proof. unfold clockOk. simpl. lia. Qed.

Lemma generatePagesSequential_first (pages : list Page) (w : World) :
  clockOk w →
  dispatched (trace (generatePagesSequential pages w).1)
  = dispatched (trace w) ++ take 1 pages
  ∧ seq_pc (generatePagesSequential pages w).2
    = match pages with
      | [] => SeqSettled (Resolved true)
      | page :: _ => SeqAwait page AwaitGenerate
      end.
Proof.
  intros Hok. unfold generatePagesSequential.
  destruct pages as [|page rest]; simpl.
  - by rewrite app_nil_r.
  - rewrite (stopRequested_false_at_clock w Hok). simpl.
    by rewrite dispatched_cons.
Qed.

(** X10: a stop does not reach the tasks started after it, in the same
    millisecond or later: right after [stopOngoingBuilds] a concurrent task
    dispatches its first pages and a sequential task its first page, as if
    nobody had ever stopped a build. *)
Theorem stopOngoingBuilds_spares_later_tasks (pages : list Page) (w : World) :
  let K := MAX_CONCURRENT_PAGE_GENERATION_PROMISES in
  let pool := generatePagesAsyncThrottled pages (stopOngoingBuilds w) in
  let sequential := generatePagesSequential pages (stopOngoingBuilds w) in
  dispatched (trace pool.1) = dispatched (trace w) ++ take K pages
  ∧ inFlight pool.2 = (λ page, (page, AwaitGenerate)) <$> take K pages
  ∧ promise pool.2 = None
  ∧ dispatched (trace sequential.1) = dispatched (trace w) ++ take 1 pages
  ∧ seq_pc sequential.2 ≠ SeqSettled (Resolved false).
Proof.
  intros K pool sequential.
  pose proof (clockOk_stopOngoingBuilds w) as Hok.
  pose proof (generatePagesAsyncThrottled_first pages _ Hok) as Hpool.
  destruct (generatePagesSequential_first pages _ Hok) as [Hd Hpc].
  fold pool in Hpool. fold sequential in Hd, Hpc.
  rewrite Hpool. simpl. split_and!; try done.
  - by rewrite dispatched_app_generate.
  - rewrite Hpc. by destruct pages.
Qed.

(** ** Outside background build mode *)

Lemma foreground_stopRequested (start : nat) (w : World) :
  backgroundBuildMode (site w) = false → stopRequested start w = false.
Proof. intros Hfg. unfold stopRequested. by rewrite Hfg. Qed.

Lemma foreground_sequentialFrom (start : nat) (pages : list Page) (w : World) :
  backgroundBuildMode (site w) = false →
  let r := sequentialFrom start pages true w in
  backgroundBuildMode (site r.1) = false
  ∧ seq_isCompleted r.2 = true
  ∧ seq_startTime r.2 = start
  ∧ (seq_pc r.2 = SeqSettled (Resolved true) ∨ ∃ page a, seq_pc r.2 = SeqAwait page a).
Proof.
  intros Hfg. destruct pages as [|page rest]; simpl.
  - split_and!; auto.
  - rewrite (foreground_stopRequested start w Hfg). simpl. split_and!; eauto.
Qed.

Lemma foreground_progress (w : World) (pl : Pool) :
  backgroundBuildMode (site w) = false → promise pl = None →
  let r := generateProgressBarStatus (w, pl) in
  backgroundBuildMode (site r.1) = false
  ∧ (promise r.2 = None ∨ promise r.2 = Some (Resolved true)).
Proof.
  intros Hfg Hp. unfold generateProgressBarStatus, callGeneratePage, stopRequested.
  rewrite Hfg. simpl.
  destruct (last (pageGenerationQueue pl)) as [page|]; simpl.
  - auto.
  - rewrite Hp. simpl. split; [done|]. case_decide; auto.
Qed.

Lemma foreground_runFrom (start : nat) (tasks : list Task) (statuses : list TaskStatus)
    (w : World) :
  backgroundBuildMode (site w) = false →
  (∀ s, s ∈ statuses → s = Ran true) →
  foregroundInv (runFrom start tasks true statuses w).
Proof.
  revert statuses w. induction tasks as [|task rest IH]; intros statuses w Hfg Hst.
  - simpl. split; [done|]. split; [done|]. done.
  - cbn [runFrom]. rewrite (foreground_stopRequested start w Hfg).
    assert (Hst' : ∀ s, s ∈ statuses ++ [Ran true] → s = Ran true).
    { intros s [?|Hin%list_elem_of_singleton]%elem_of_app; auto. }
    destruct (mode task).
    + unfold generatePagesSequential.
      destruct (foreground_sequentialFrom (clock w) (task_pages task) w Hfg)
        as (Hfg1 & Hc & _ & Hpc).
      destruct (sequentialFrom (clock w) (task_pages task) true w) as [w1 t].
      simpl in *. destruct Hpc as [->|(page & a & Hpc)].
      * by apply IH.
      * rewrite Hpc. split; [done|]. split; [done|]. simpl. eauto.
    + unfold generatePagesAsyncThrottled.
      rewrite generatePagesAsyncThrottled_first_from
        by (by apply foreground_stopRequested).
      simpl. split; [done|]. split; [done|]. done.
Qed.

Lemma foreground_seqStep (w : World) (t : SeqTask) (e : Event) :
  backgroundBuildMode (site w) = false → seq_isCompleted t = true →
  let st1 := seqStep (w, t) e in
  backgroundBuildMode (site st1.1) = false
  ∧ seq_isCompleted st1.2 = true
  ∧ (seq_pc st1.2 = seq_pc t
     ∨ seq_pc st1.2 = SeqSettled (Resolved true)
     ∨ (∃ page a, seq_pc st1.2 = SeqAwait page a)
     ∨ ∃ msg, seq_pc st1.2 = SeqSettled (Rejected msg)).
Proof.
  intros Hfg Hc.
  assert (Hgo : ∀ w1, backgroundBuildMode (site w1) = false →
            let st1 := sequentialFrom (seq_startTime t) (seq_remaining t)
                         (seq_isCompleted t) w1 in
            backgroundBuildMode (site st1.1) = false
            ∧ seq_isCompleted st1.2 = true
            ∧ (seq_pc st1.2 = seq_pc t
               ∨ seq_pc st1.2 = SeqSettled (Resolved true)
               ∨ (∃ page a, seq_pc st1.2 = SeqAwait page a)
               ∨ ∃ msg, seq_pc st1.2 = SeqSettled (Rejected msg))).
  { intros w1 Hfg1. rewrite Hc.
    destruct (foreground_sequentialFrom (seq_startTime t) (seq_remaining t) w1 Hfg1)
      as (? & ? & _ & [?|?]); split_and!; auto. }
  unfold seqStep.
  destruct e as [d| |[|i]|[|i]|[|i]]; try (split_and!; by auto).
  - destruct (seq_pc t) as [page [| ]|res] eqn:Hpc; try (split_and!; by auto).
    rewrite Hfg. apply Hgo. done.
  - destruct (seq_pc t) as [page [| ]|res] eqn:Hpc; try (split_and!; by auto).
    simpl. split_and!; eauto 6.
  - destruct (seq_pc t) as [page [| ]|res] eqn:Hpc; try (split_and!; by auto).
    by apply Hgo.
Qed.

Lemma foreground_poolStep (w : World) (pl : Pool) (e : Event) :
  backgroundBuildMode (site w) = false → promise pl = None →
  let st1 := poolStep (w, pl) e in
  backgroundBuildMode (site st1.1) = false
  ∧ (promise st1.2 = None
     ∨ promise st1.2 = Some (Resolved true)
     ∨ ∃ msg, promise st1.2 = Some (Rejected msg)).
Proof.
  intros Hfg Hp.
  assert (Hgo : ∀ w1 l, backgroundBuildMode (site w1) = false →
            let st1 := generateProgressBarStatus (w1, setInFlight l pl) in
            backgroundBuildMode (site st1.1) = false
            ∧ (promise st1.2 = None
               ∨ promise st1.2 = Some (Resolved true)
               ∨ ∃ msg, promise st1.2 = Some (Rejected msg))).
  { intros w1 l Hfg1.
    destruct (foreground_progress w1 (setInFlight l pl) Hfg1 Hp) as [? [?|?]]; auto. }
  unfold poolStep. destruct e as [d| |i|i|i]; try (split; by auto).
  - destruct (inFlight pl !! i) as [[page [| ]]|]; try (split; by auto).
    rewrite Hfg. by apply Hgo.
  - destruct (inFlight pl !! i) as [[page [| ]]|]; try (split; by auto).
    simpl. rewrite Hp. simpl. split; eauto.
  - destruct (inFlight pl !! i) as [[page [| ]]|]; try (split; by auto).
    by apply Hgo.
Qed.

Lemma foreground_runStep (st : World * Run) (e : Event) :
  foregroundInv st → foregroundInv (runStep st e).
Proof.
  destruct st as [w r]. intros (Hfg & Hst & Hpc). simpl in Hfg, Hst, Hpc.
  assert (Hst' : ∀ s, s ∈ run_statuses r ++ [Ran true] → s = Ran true).
  { intros s [?|Hin%list_elem_of_singleton]%elem_of_app; auto. }
  destruct (run_pc r) as [t|pl|res] eqn:Hr.
  - destruct Hpc as (Hc & page & a & Ht).
    rewrite (runStep_sequential w r t e Hr). unfold resumeSequential.
    destruct (foreground_seqStep w t e Hfg Hc) as (Hfg1 & Hc1 & Hpc1).
    destruct (seqStep (w, t) e) as [w1 t1]. simpl in *.
    destruct Hpc1 as [Hpc1|[Hpc1|[(page1 & a1 & Hpc1)|[msg Hpc1]]]]; rewrite Hpc1.
    + rewrite Ht. split; [done|]. split; [done|]. simpl. rewrite Hpc1, Ht. eauto.
    + by apply foreground_runFrom.
    + split; [done|]. split; [done|]. simpl. rewrite Hpc1. eauto.
    + split; [done|]. split; [done|]. simpl. done.
  - rewrite (runStep_async w r pl e Hr). unfold resumeAsync.
    destruct (foreground_poolStep w pl e Hfg Hpc) as (Hfg1 & Hp1).
    destruct (poolStep (w, pl) e) as [w1 pl1]. simpl in *.
    destruct Hp1 as [Hp1|[Hp1|[msg Hp1]]]; rewrite Hp1.
    + split; [done|]. split; [done|]. simpl. done.
    + by apply foreground_runFrom.
    + split; [done|]. split; [done|]. simpl. done.
  - unfold runStep. rewrite Hr.
    destruct e; simpl; (split; [done|]); (split; [done|]); simpl; by rewrite Hr.
Qed.

(** X11: outside background build mode nothing cancels a build: whatever
    happens, and however often [stopOngoingBuilds] is called,
    [runPageGenerationTasks] skips no task, no task resolves to [false], and
    the run never returns [false]. *)
Theorem foreground_build_never_cancelled (tasks : list Task) (w : World)
    (events : list Event) :
  backgroundBuildMode (site w) = false →
  let st := run runStep (runPageGenerationTasks tasks w) events in
  run_pc st.2 ≠ RunSettled (Resolved false)
  ∧ ∀ s, s ∈ run_statuses st.2 → s = Ran true.
Proof.
  intros Hfg st.
  assert (Hinv : foregroundInv st).
  { subst st. unfold run.
    assert (H0 : foregroundInv (runPageGenerationTasks tasks w)).
    { apply foreground_runFrom; [done|]. intros s Hin. by apply elem_of_nil in Hin. }
    revert H0. generalize (runPageGenerationTasks tasks w).
    induction events as [|e events IH]; intros st0 H0; [done|].
    simpl. apply IH. by apply foreground_runStep. }
  destruct Hinv as (_ & Hst & Hpc). split; [|done].
  destruct (run_pc st.2); [done|done|congruence].
Qed.

(** ** A concurrent task over no page *)

Lemma empty_pool_step (w : World) (pl : Pool) (e : Event) :
  inFlight pl = [] → (poolStep (w, pl) e).2 = pl.
Proof. intros Hin. destruct e; simpl; try done; by rewrite Hin. Qed.

Lemma empty_task_pending (st : World * Run) (events : list Event) (pl : Pool) :
  run_pc st.2 = RunAsync pl → inFlight pl = [] → promise pl = None →
  run_pc (run runStep st events).2 = RunAsync pl
  ∧ run_remaining (run runStep st events).2 = run_remaining st.2
  ∧ run_statuses (run runStep st events).2 = run_statuses st.2
  ∧ trace (run runStep st events).1 = trace st.1.
Proof.
  intros Hpc Hin Hp. revert st Hpc.
  induction events as [|e events IH]; intros [w r] Hpc; [done|].
  simpl in Hpc.
  change (run runStep (w, r) (e :: events)) with (run runStep (runStep (w, r) e) events).
  assert (Hstep : run_pc (runStep (w, r) e).2 = RunAsync pl
                  ∧ run_remaining (runStep (w, r) e).2 = run_remaining r
                  ∧ run_statuses (runStep (w, r) e).2 = run_statuses r
                  ∧ trace (runStep (w, r) e).1 = trace w).
  { unfold runStep. rewrite Hpc.
    pose proof (empty_pool_step w pl e Hin) as Hpl.
    destruct (poolStep (w, pl) e) as [w1 pl1] eqn:Hstep. simpl in Hpl. subst pl1.
    rewrite Hp. simpl. split; [done|]. split; [done|]. split; [done|].
    destruct e; simpl in Hstep; try rewrite Hin in Hstep; simpl in Hstep;
      injection Hstep as <-; done. }
  destruct Hstep as (Hpc' & Hrem & Htr & Hset).
  destruct (IH (runStep (w, r) e) Hpc') as (? & ? & ? & ?).
  cbn [fst snd]. split; [done|]. split; [congruence|]. split; congruence.
Qed.

(** X12: a concurrent task over no page never settles, so
    [runPageGenerationTasks] never returns from it and never reaches the
    tasks after it.  This is what happens to [generatePagesMarkedToRebuild]
    when keys are marked but no page of the site has a marked key, while
    [_backgroundBuildNotViewedFiles] returns [false] at once when no key is
    marked. *)
Theorem empty_concurrent_task_never_returns (rest : list Task) (w : World)
    (events : list Event) :
  clockOk w →
  (let st := run runStep (runPageGenerationTasks (mkTask Async [] :: rest) w) events in
   (∃ pl, run_pc st.2 = RunAsync pl ∧ promise pl = None)
   ∧ run_remaining st.2 = rest ∧ run_statuses st.2 = []
   ∧ trace st.1 = trace w)
  ∧ ((∀ page, page ∈ pages (site w) → normalizedSource page ∉ toRebuild (site w)) →
     ∃ pl, run_pc (run runStep (generatePagesMarkedToRebuild w) events).2 = RunAsync pl
           ∧ promise pl = None)
  ∧ (toRebuild (site w) = ∅ → _backgroundBuildNotViewedFiles w = (w, inl false)).
Proof.
  intros Hok.
  assert (Hstart : ∀ rest',
            runPageGenerationTasks (mkTask Async [] :: rest') w
            = (w, mkRun (clock w) true rest'
                    (RunAsync (mkPool (clock w) 0 0 true [] [] None)) [])).
  { intros rest'. unfold runPageGenerationTasks. cbn [runFrom].
    rewrite (stopRequested_false_at_clock w Hok). simpl.
    unfold generatePagesAsyncThrottled. by rewrite take_nil, drop_nil. }
  assert (Hrun : ∀ rest',
            let st := run runStep (runPageGenerationTasks (mkTask Async [] :: rest') w)
                        events in
            (∃ pl, run_pc st.2 = RunAsync pl ∧ promise pl = None)
            ∧ run_remaining st.2 = rest' ∧ run_statuses st.2 = []
            ∧ trace st.1 = trace w).
  { intros rest' st. subst st. rewrite Hstart.
    set (pl := mkPool (clock w) 0 0 true [] [] None).
    set (st0 := (w, mkRun (clock w) true rest' (RunAsync pl) [])).
    destruct (empty_task_pending st0 events pl)
      as (Hpc & Hrem & Hst & Htr); try done.
    split; [by exists pl|]. done. }
  split; [apply Hrun|]. split.
  - intros Hnone. unfold generatePagesMarkedToRebuild.
    assert (Hnil : filter (λ page, normalizedSource page ∈ toRebuild (site w))
                     (pages (site w)) = []).
    { induction (pages (site w)) as [|page l IH]; [done|].
      rewrite filter_cons_False by (apply Hnone; left).
      apply IH. intros p Hp. apply Hnone. by right. }
    rewrite Hnil. destruct (Hrun []) as [? _]. done.
  - intros Hempty. unfold _backgroundBuildNotViewedFiles.
    rewrite Hempty, size_empty. done.
Qed.

(** ** The tasks of [regenerateAffectedPages] *)

(** X13: [regenerateAffectedPages] never hands an empty task to
    [runPageGenerationTasks]: on a site built lazily it runs at most one
    task, sequential, over the opened pages that are affected; otherwise at
    most one task, concurrent, over the affected pages; and with no page to
    regenerate it returns without running anything.  So when nobody stops
    the build and the pages all generate, its run returns [true]. *)
Theorem regenerateAffectedPages_tasks (filePaths : list string) (w : World) :
  let a := affectedPages filePaths (site w) in
  let opened := definedPages (openedPagesToRegenerate a) in
  let tasks := regenerationTasks a in
  (∀ task, task ∈ tasks → task_pages task ≠ [])
  ∧ (onePagePath (site w) ≠ None → tasks = [] ∨ tasks = [mkTask Sequential opened])
  ∧ (onePagePath (site w) = None →
       tasks = []
       ∨ tasks = [mkTask Async (filter (λ page, isAffected filePaths (site w) page = true)
                                  (pages (site w)))])
  ∧ ((regenerateAffectedPages filePaths w).2 = NothingToRebuild ↔ tasks = [])
  ∧ (clockOk w → 0 < MAX_CONCURRENT_PAGE_GENERATION_PROMISES →
     ∀ r, (regenerateAffectedPages filePaths w).2 = Regenerating r →
          ∃ events,
            run_pc (run runStep ((regenerateAffectedPages filePaths w).1, r) events).2
            = RunSettled (Resolved true)).
Proof.
  intros a opened tasks.
  assert (Hne : ∀ task, task ∈ tasks → task_pages task ≠ []).
  { intros task. unfold tasks, regenerationTasks. fold opened.
    rewrite elem_of_app. intros [Hin|Hin].
    - case_decide as Hlen; [|by apply elem_of_nil in Hin].
      apply list_elem_of_singleton in Hin as ->. simpl.
      intros Heq. rewrite Heq in Hlen. simpl in Hlen. lia.
    - case_decide as Hlen; [|by apply elem_of_nil in Hin].
      apply list_elem_of_singleton in Hin as ->. simpl.
      intros Heq. rewrite Heq in Hlen. simpl in Hlen. lia. }
  split; [done|]. split; [|split; [|split]].
  - intros Hlazy. destruct (onePagePath (site w)) as [o|] eqn:Ho; [|done].
    destruct (affectedPages_lazy filePaths (site w) o Ho) as (Hasync & _).
    fold a in Hasync. unfold tasks, regenerationTasks. fold opened.
    rewrite Hasync. simpl. rewrite app_nil_r. case_decide; auto.
  - intros Heager. unfold tasks, regenerationTasks.
    unfold opened, a. rewrite (affectedPages_eager _ _ Heager). simpl.
    case_decide; auto.
  - unfold regenerateAffectedPages. fold a. fold opened.
    unfold tasks, regenerationTasks. fold opened.
    destruct (decide (length opened + length (asyncPagesToRegenerate a) = 0))
      as [Hzero|Hsome].
    + simpl. split; [|done]. intros _.
      rewrite !decide_False by lia. done.
    + destruct (runPageGenerationTasks _ _) as [w2 r]. simpl. split; [done|].
      intros Hnil. apply app_eq_nil in Hnil as [H1 H2].
      destruct (decide (0 < length opened)); [done|].
      destruct (decide (0 < length (asyncPagesToRegenerate a))); [done|]. lia.
  - intros Hok HK r. unfold regenerateAffectedPages. fold a. fold opened.
    destruct (decide (length opened + length (asyncPagesToRegenerate a) = 0));
      [done|].
    fold tasks.
    set (w1 := mkWorld (set_toRebuild (aff_toRebuild a) (site w)) (clock w) (trace w)).
    destruct (runPageGenerationTasks tasks w1) as [w2 r2] eqn:Hrun. simpl.
    intros [= <-]. rewrite <- Hrun. unfold runPageGenerationTasks.
    apply runFrom_returns; try done.
    + intros task Hin _. by apply Hne.
    + exact (stopRequested_false_at_clock w1 Hok).
Qed.

(** ** Tasks and the keys marked to be rebuilt *)

Lemma dispatched_app (new old : list Action) :
  dispatched (new ++ old) = dispatched old ++ dispatched new.
Proof. unfold dispatched. by rewrite rev_app_distr, omap_app. Qed.

Lemma elem_of_dispatched (page : Page) (tr : list Action) :
  page ∈ dispatched tr ↔ ActGenerate page ∈ tr.
Proof.
  unfold dispatched. rewrite list_elem_of_omap. split.
  - intros (a & Hin & Ha). destruct a; simplify_eq.
    apply list_elem_of_In. apply in_rev. by apply list_elem_of_In.
  - intros Hin. exists (ActGenerate page). split; [|done].
    apply list_elem_of_In. apply in_rev. rewrite rev_involutive. by apply list_elem_of_In.
Qed.

Lemma elem_of_deletedKeys (key : string) (tr : list Action) :
  key ∈ deletedKeys tr ↔ ActDelete key ∈ tr.
Proof.
  unfold deletedKeys. rewrite elem_of_list_to_set, list_elem_of_omap. split.
  - intros (a & Hin & Ha). by destruct a; simplify_eq.
  - intros Hin. by exists (ActDelete key).
Qed.

Lemma deletes_generated_le (n : nat) (tr : list Action) (key : string) :
  length tr ≤ n → deletesFollowGenerated tr = true → ActDelete key ∈ tr →
  ∃ page, normalizedSource page = key ∧ ActGenerated page ∈ tr.
Proof.
  revert tr. induction n as [|n IH]; intros tr Hlen Hok Hin.
  - destruct tr; [by apply elem_of_nil in Hin|simpl in Hlen; lia].
  - destruct tr as [|a tr]; [by apply elem_of_nil in Hin|]. simpl in Hlen.
    assert (Hrest : deletesFollowGenerated tr = true → ActDelete key ∈ tr →
              ∃ page, normalizedSource page = key ∧ ActGenerated page ∈ a :: tr).
    { intros Hok' Hin'. destruct (IH tr) as (page & ? & ?); [lia|done..|].
      exists page. split; [done|by right]. }
    destruct a as [page|page|page|key'].
    + simpl in Hok. apply elem_of_cons in Hin as [?|Hin]; [done|]. by apply Hrest.
    + simpl in Hok. done.
    + simpl in Hok. apply elem_of_cons in Hin as [?|Hin]; [done|]. by apply Hrest.
    + simpl in Hok. destruct tr as [|[page|page|page|key''] tr]; try done.
      apply andb_true_iff in Hok as [Hkey Hok]. apply bool_decide_eq_true in Hkey.
      apply elem_of_cons in Hin as [[= ->]|Hin].
      * exists page. split; [done|]. right. left.
      * apply elem_of_cons in Hin as [?|Hin]; [done|].
        destruct (IH tr) as (page' & ? & ?); [simpl in Hlen; lia|done..|].
        exists page'. split; [done|]. right. by right.
Qed.

(** What a task has taken out of [toRebuild]. *)
Lemma traceInv_removed (w0 w : World) (awaiting : list Page) :
  traceInv w0 awaiting w →
  toRebuild (site w) ⊆ toRebuild (site w0)
  ∧ ∃ new,
      trace w = new ++ trace w0
      ∧ ∀ key, key ∈ toRebuild (site w0) → key ∉ toRebuild (site w) →
          ∃ page, normalizedSource page = key ∧ ActGenerated page ∈ new
                  ∧ page ∈ dispatched new.
Proof.
  intros (new & Htr & Hdel & Hgen & Hset & _). split.
  - rewrite Hset. set_solver.
  - exists new. split; [done|].
    intros key Hin Hout. rewrite Hset in Hout.
    assert (Hk : key ∈ deletedKeys new) by set_solver.
    apply elem_of_deletedKeys in Hk.
    destruct (deletes_generated_le (length new) new key) as (page & Hkey & Hg);
      [done..|].
    exists page. split; [done|]. split; [done|].
    apply elem_of_dispatched.
    pose proof Hg as Hg'. apply list_elem_of_split in Hg' as (newer & older & Hsplit).
    rewrite Hsplit, elem_of_app. right. right. by eapply Hgen.
Qed.

Lemma cleared_mono (ps : list Page) (w w' : World) :
  toRebuild (site w') ⊆ toRebuild (site w) → cleared ps w → cleared ps w'.
Proof. intros Hsub Hc page Hin Hk. by apply (Hc page Hin), Hsub. Qed.

Lemma cleared_generated (ps : list Page) (page : Page) (w : World) :
  cleared ps w →
  cleared (ps ++ [page]) (toRebuild_delete (normalizedSource page) (act (ActGenerated page) w)).
Proof.
  intros Hc p Hin. simpl. apply elem_of_app in Hin as [Hin|Hin].
  - specialize (Hc p Hin). set_solver.
  - apply list_elem_of_singleton in Hin as ->. set_solver.
Qed.

(** ** A sequential task goes through its pages in order *)

Lemma take_snoc_middle {A} (done rest : list A) (x : A) :
  take (length (done ++ [x])) (done ++ x :: rest) = done ++ [x].
Proof.
  replace (done ++ x :: rest) with ((done ++ [x]) ++ rest) by (by rewrite <- app_assoc).
  apply take_app_length.
Qed.

Lemma elem_of_rev {A} (x : A) (l : list A) : x ∈ rev l ↔ x ∈ l.
Proof. rewrite !list_elem_of_In. symmetry. apply in_rev. Qed.

Lemma seqOrder_sequentialFrom (pages before done rest : list Page) (start : nat)
    (w : World) :
  pages = done ++ rest → dispatched (trace w) = before ++ done → cleared done w →
  seqOrderInv pages before (sequentialFrom start rest true w).
Proof.
  intros Hpages Hd Hc. destruct rest as [|page rest].
  - simpl. unfold seqOrderInv. simpl. rewrite app_nil_r in Hpages. by subst.
  - destruct (stopRequested start w) eqn:Hstop.
    + rewrite sequentialFrom_cancelled by done. unfold seqOrderInv. simpl.
      exists (length done). by rewrite Hpages, take_app_length.
    + simpl. rewrite Hstop. unfold seqOrderInv. simpl. split; [done|].
      exists done. split; [done|]. split; [|done].
      rewrite dispatched_cons. simpl. by rewrite Hd, app_assoc.
Qed.

Lemma seqOrder_step (pages before : list Page) (st : World * SeqTask) (e : Event) :
  seqOrderInv pages before st → seqOrderInv pages before (seqStep st e).
Proof.
  destruct st as [w t]. unfold seqOrderInv at 1. simpl. intros Hinv.
  assert (Hsame : ∀ w', trace w' = trace w → toRebuild (site w') = toRebuild (site w) →
            seqOrderInv pages before (w', t)).
  { intros w' Htr Hset. unfold seqOrderInv. simpl.
    destruct (seq_pc t) as [page a|[[|]|msg]].
    - destruct Hinv as (Hc & done & Hp & Hd & Hcl). split; [done|].
      exists done. split; [done|]. rewrite Htr. split; [done|].
      eapply cleared_mono; [|exact Hcl]. by rewrite Hset.
    - destruct Hinv as [Hd Hcl]. rewrite Htr. split; [done|].
      eapply cleared_mono; [|exact Hcl]. by rewrite Hset.
    - by rewrite Htr.
    - by rewrite Htr. }
  destruct e as [d| |[|i]|[|i]|[|i]]; simpl; try (by apply Hsame).
  - destruct (seq_pc t) as [page [| ]|res] eqn:Hpc; try (by apply Hsame).
    destruct Hinv as (Hc & done & Hp & Hd & Hcl).
    assert (Hd1 : dispatched (trace (toRebuild_delete (normalizedSource page)
                                       (act (ActGenerated page) w)))
                  = before ++ done ++ [page]).
    { simpl. rewrite !dispatched_cons. simpl. by rewrite !app_nil_r. }
    destruct (backgroundBuildMode (site w)).
    + unfold seqOrderInv. cbn [fst snd seq_pc seq_isCompleted seq_remaining].
      split; [done|]. exists done. split; [done|]. split; [done|].
      by apply cleared_generated.
    + rewrite Hc. apply (seqOrder_sequentialFrom pages before (done ++ [page])).
      * by rewrite <- app_assoc.
      * by rewrite Hd1, app_assoc.
      * by apply cleared_generated.
  - destruct (seq_pc t) as [page [| ]|res] eqn:Hpc; try (by apply Hsame).
    destruct Hinv as (Hc & done & Hp & Hd & Hcl).
    unfold seqOrderInv. simpl. exists (length (done ++ [page])).
    rewrite dispatched_cons. simpl. rewrite app_nil_r, Hd, Hp.
    by rewrite take_snoc_middle.
  - destruct (seq_pc t) as [page [| ]|res] eqn:Hpc; try (by apply Hsame).
    destruct Hinv as (Hc & done & Hp & Hd & Hcl).
    rewrite Hc. apply (seqOrder_sequentialFrom pages before (done ++ [page])).
    + by rewrite <- app_assoc.
    + by rewrite Hd, app_assoc.
    + done.
Qed.

Lemma seqOrder_run (pages before : list Page) (st : World * SeqTask)
    (events : list Event) :
  seqOrderInv pages before st → seqOrderInv pages before (run seqStep st events).
Proof.
  revert st. induction events as [|e events IH]; intros st Hinv; [done|].
  simpl. apply IH. by apply seqOrder_step.
Qed.

Lemma seqOrder_start (pages : list Page) (w : World) :
  seqOrderInv pages (dispatched (trace w)) (generatePagesSequential pages w).
Proof.
  apply (seqOrder_sequentialFrom pages _ []); [done|by rewrite app_nil_r|].
  intros page Hin. by apply elem_of_nil in Hin.
Qed.

(** X14: a sequential task calls [generate] on its pages one after the
    other in the order of the list: what it has dispatched is always an
    initial part of its pages.  It never marks a page, and a key it has
    unmarked is the key of one of the pages it has generated.  When it
    returns [true] it has dispatched them all and none of them is still
    marked to be rebuilt. *)
Theorem generatePagesSequential_in_order (pages : list Page) (w : World)
    (events : list Event) :
  let st := run seqStep (generatePagesSequential pages w) events in
  (∃ n, dispatched (trace st.1) = dispatched (trace w) ++ take n pages)
  ∧ toRebuild (site st.1) ⊆ toRebuild (site w)
  ∧ (∀ key, key ∈ toRebuild (site w) → key ∉ toRebuild (site st.1) →
       ∃ page, page ∈ pages ∧ normalizedSource page = key
               ∧ ActGenerated page ∈ trace st.1)
  ∧ (seq_pc st.2 = SeqSettled (Resolved true) →
       dispatched (trace st.1) = dispatched (trace w) ++ pages
       ∧ ∀ page, page ∈ pages → normalizedSource page ∉ toRebuild (site st.1)).
Proof.
  intros st.
  pose proof (seqOrder_run _ _ _ events (seqOrder_start pages w)) as Hinv.
  fold st in Hinv.
  assert (Hprefix : ∃ n, dispatched (trace st.1) = dispatched (trace w) ++ take n pages).
  { unfold seqOrderInv in Hinv. destruct (seq_pc st.2) as [page a|[[|]|msg]].
    - destruct Hinv as (_ & done & Hp & Hd & _). exists (length (done ++ [page])).
      by rewrite Hd, Hp, take_snoc_middle.
    - destruct Hinv as [Hd _]. exists (length pages). by rewrite firstn_all.
    - done.
    - done. }
  assert (Htrace : traceInv w (seqAwaitingGenerate st.2) st.1).
  { apply traceInv_seq_run. apply traceInv_sequentialFrom, traceInv_start. }
  destruct (traceInv_removed _ _ _ Htrace) as (Hsub & new & Hnew & Hkeys).
  split; [done|]. split; [done|]. split.
  - intros key Hin Hout. destruct (Hkeys key Hin Hout) as (page & Hkey & Hg & Hdisp).
    exists page. split; [|split; [done|]].
    + destruct Hprefix as [n Hn]. rewrite Hnew, dispatched_app in Hn.
      apply app_inv_head in Hn. rewrite Hn in Hdisp.
      by apply (subseteq_take n pages).
    + rewrite Hnew, elem_of_app. by left.
  - intros Hpc. unfold seqOrderInv in Hinv. by rewrite Hpc in Hinv.
Qed.

(** ** A concurrent task and the keys marked to be rebuilt *)

Lemma poolClear_progress (pages before : list Page) (w : World) (pl : Pool) :
  (promise pl = None → isCompleted pl = true) →
  (promise pl = Some (Resolved true) → pageGenerationQueue pl = []) →
  poolClearInv pages (w, pl) → poolClearInv pages (generateProgressBarStatus (w, pl)).
Proof.
  intros Hnone Htrue Hinv. unfold generateProgressBarStatus.
  destruct (stopRequested (startTime pl) w) eqn:Hstop.
  - unfold poolClearInv, stopPool. simpl.
    destruct (isCompleted pl) eqn:Hc; simpl; [|done].
    destruct (promise pl) as [r|] eqn:Hp; simpl.
    + intros Hr. apply Hinv. simpl. by rewrite Hp.
    + intros [?|?]; done.
  - destruct (last (pageGenerationQueue pl)) as [page|] eqn:Hlast.
    + unfold callGeneratePage. simpl. rewrite Hstop.
      unfold poolClearInv. simpl. intros Hp p Hin.
      assert (Hp' : promise pl = None).
      { destruct Hp as [?|Hp]; [done|]. specialize (Htrue Hp).
        rewrite Htrue in Hlast. done. }
      destruct (Hinv (or_introl Hp') p Hin) as [Hq|[Hf|Hk]]; simpl in *.
      * destruct (pageGenerationQueue pl) as [|x l] using rev_ind; [done|].
        rewrite last_snoc in Hlast. injection Hlast as ->.
        rewrite removelast_last.
        apply elem_of_app in Hq as [?|Hq]; [by left|].
        apply list_elem_of_singleton in Hq as ->.
        right. left. rewrite elem_of_app, list_elem_of_singleton. by right.
      * right. left. rewrite elem_of_app. by left.
      * by right; right.
    + unfold poolClearInv. simpl. intros Hp p Hin.
      assert (Hp' : promise pl = None ∨ promise pl = Some (Resolved true)).
      { destruct (promise pl) as [r|]; [|by left]. right.
        simpl in Hp. case_decide; simpl in Hp; destruct Hp; done. }
      apply (Hinv Hp' p Hin).
Qed.

Lemma poolClear_step (pages before : list Page) (st : World * Pool) (e : Event) :
  poolInv pages before st → poolClearInv pages st → poolClearInv pages (poolStep st e).
Proof.
  destruct st as [w pl].
  intros (_ & _ & _ & _ & Hacc & _ & Hnone & _ & Htrue & _) Hinv.
  cbn [fst snd] in Hacc, Hnone, Htrue.
  assert (Hq : promise pl = Some (Resolved true) → pageGenerationQueue pl = []).
  { intros Hp. destruct (Htrue Hp). apply nil_length_inv. lia. }
  assert (Hf : promise pl = Some (Resolved true) → inFlight pl = []).
  { intros Hp. destruct (Htrue Hp). apply nil_length_inv. lia. }
  unfold poolStep. destruct e as [d| |i|i|i]; try done.
  - destruct (inFlight pl !! i) as [[page [| ]]|] eqn:Hi; try done.
    assert (Hmid : ∀ l, (∀ p j, inFlight pl !! j = Some (p, AwaitGenerate) → j ≠ i →
                           (p, AwaitGenerate) ∈ l) →
              poolClearInv pages
                (toRebuild_delete (normalizedSource page) (act (ActGenerated page) w),
                 setInFlight l pl)).
    { intros l Hl Hp p Hin. simpl in *.
      destruct (Hinv Hp p Hin) as [?|[Hfl|Hk]]; [by left| |].
      - apply list_elem_of_lookup_1 in Hfl as [j Hj]. simpl in Hj.
        destruct (decide (j = i)) as [->|Hne].
        + rewrite Hi in Hj. injection Hj as ->. right. right. set_solver.
        + right. left. by eapply Hl.
      - right. right. set_solver. }
    destruct (backgroundBuildMode (site w)).
    + apply Hmid. intros p j Hj Hne.
      apply list_elem_of_lookup. exists j.
      by rewrite list_lookup_insert_ne.
    + apply (poolClear_progress pages before); [done|done|].
      apply Hmid. intros p j Hj Hne.
      apply list_elem_of_lookup.
      destruct (decide (j < i)).
      * exists j. by rewrite list_lookup_delete_lt.
      * exists (j - 1). rewrite list_lookup_delete_ge by lia.
        by replace (S (j - 1)) with j by lia.
  - destruct (inFlight pl !! i) as [[page [| ]]|] eqn:Hi; try done.
    unfold poolClearInv. simpl. intros Hp p Hin.
    destruct (promise pl) as [r|] eqn:Hpl; simpl in Hp.
    + destruct Hp as [?|Hp]; [done|]. rewrite Hp in Hf. rewrite Hf in Hi; [done|done].
    + destruct Hp; done.
  - destruct (inFlight pl !! i) as [[page [| ]]|] eqn:Hi; try done.
    apply (poolClear_progress pages before); [done|done|].
    intros Hp p Hin. simpl in *.
    destruct (Hinv Hp p Hin) as [?|[Hfl|Hk]]; [by left| |by right; right].
    right. left.
    apply list_elem_of_lookup_1 in Hfl as [j Hj]. simpl in Hj.
    apply list_elem_of_lookup.
    destruct (decide (j < i)).
    + exists j. by rewrite list_lookup_delete_lt.
    + assert (j ≠ i) by (intros ->; congruence).
      exists (j - 1). rewrite list_lookup_delete_ge by lia.
      by replace (S (j - 1)) with j by lia.
Qed.

Lemma poolClear_start (pages : list Page) (w : World) :
  clockOk w → poolClearInv pages (generatePagesAsyncThrottled pages w).
Proof.
  intros Hok. rewrite generatePagesAsyncThrottled_first by done.
  intros _ page Hin. simpl.
  rewrite <- (take_drop MAX_CONCURRENT_PAGE_GENERATION_PROMISES pages) in Hin.
  apply elem_of_app in Hin as [Hin|Hin]; [|by left].
  right. left. apply list_elem_of_fmap. by exists page.
Qed.

Lemma poolClear_run (pages before : list Page) (st : World * Pool)
    (events : list Event) :
  poolInv pages before st → poolClearInv pages st →
  poolClearInv pages (run poolStep st events).
Proof.
  revert st. induction events as [|e events IH]; intros st Hinv Hc; [done|].
  simpl. apply IH; [by apply poolInv_step|by eapply poolClear_step].
Qed.

(** X15: a concurrent task never marks a page, and a key it has unmarked is
    the key of one of its pages, which it has generated; the count of
    generated pages never exceeds the number of pages; and when the task
    resolves to [true] none of its pages is still marked to be rebuilt. *)
Theorem generatePagesAsyncThrottled_unmarks (pages : list Page) (w : World)
    (events : list Event) :
  clockOk w →
  let st := run poolStep (generatePagesAsyncThrottled pages w) events in
  toRebuild (site st.1) ⊆ toRebuild (site w)
  ∧ (∀ key, key ∈ toRebuild (site w) → key ∉ toRebuild (site st.1) →
       ∃ page, page ∈ pages ∧ normalizedSource page = key
               ∧ ActGenerated page ∈ trace st.1)
  ∧ numPagesGenerated st.2 + length (inFlight st.2) + length (pageGenerationQueue st.2)
    ≤ length pages
  ∧ (promise st.2 = Some (Resolved true) →
       ∀ page, page ∈ pages → normalizedSource page ∉ toRebuild (site st.1)).
Proof.
  intros Hok st.
  pose proof (poolInv_run _ _ _ events (poolInv_start pages w Hok)) as Hinv.
  pose proof (poolClear_run _ _ _ events (poolInv_start pages w Hok)
                (poolClear_start pages w Hok)) as Hclear.
  fold st in Hinv, Hclear.
  assert (Htrace : traceInv w (awaitingGenerate (inFlight st.2)) st.1).
  { apply traceInv_pool_run, traceInv_pool_start. }
  destruct (traceInv_removed _ _ _ Htrace) as (Hsub & new & Hnew & Hkeys).
  destruct Hinv as (_ & _ & _ & Hd & Hacc & _ & _ & _ & Htrue & _).
  split; [done|]. split; [|split; [done|]].
  - intros key Hin Hout. destruct (Hkeys key Hin Hout) as (page & Hkey & Hg & Hdisp).
    exists page. split; [|split; [done|]].
    + rewrite Hnew, dispatched_app in Hd. apply app_inv_head in Hd.
      rewrite Hd in Hdisp. apply elem_of_app in Hdisp as [Hin'|Hin'].
      * by apply (subseteq_take MAX_CONCURRENT_PAGE_GENERATION_PROMISES pages).
      * apply (proj1 (elem_of_rev _ _)) in Hin'.
        apply (subseteq_drop MAX_CONCURRENT_PAGE_GENERATION_PROMISES pages).
        by apply (subseteq_drop (length (pageGenerationQueue st.2))
                    (drop MAX_CONCURRENT_PAGE_GENERATION_PROMISES pages)).
    + rewrite Hnew, elem_of_app. by left.
  - intros Hp page Hin. destruct (Htrue Hp) as [Hn _].
    destruct (Hclear (or_intror Hp) page Hin) as [Hq|[Hf|?]]; [| |done].
    + assert (Hlen : length (pageGenerationQueue st.2) = 0) by lia.
      apply nil_length_inv in Hlen. rewrite Hlen in Hq. by apply elem_of_nil in Hq.
    + assert (Hlen : length (inFlight st.2) = 0) by lia.
      apply nil_length_inv in Hlen. rewrite Hlen in Hf. by apply elem_of_nil in Hf.
Qed.

(** ** [runPageGenerationTasks] and the keys marked to be rebuilt *)

Lemma site_callGeneratePage (page : Page) (st : World * Pool) :
  site (callGeneratePage page st).1 = site st.1.
Proof.
  destruct st as [w pl]. unfold callGeneratePage.
  by destruct (stopRequested (startTime pl) w).
Qed.

Lemma site_generateProgressBarStatus (st : World * Pool) :
  site (generateProgressBarStatus st).1 = site st.1.
Proof.
  destruct st as [w pl]. unfold generateProgressBarStatus.
  destruct (stopRequested (startTime pl) w); [done|].
  destruct (last (pageGenerationQueue pl)); [|done].
  by rewrite site_callGeneratePage.
Qed.

Lemma site_generatePagesAsyncThrottled (pages : list Page) (w : World) :
  site (generatePagesAsyncThrottled pages w).1 = site w.
Proof.
  unfold generatePagesAsyncThrottled.
  generalize (mkPool (clock w) 0 (length pages) true
                (drop MAX_CONCURRENT_PAGE_GENERATION_PROMISES pages) [] None).
  generalize (take MAX_CONCURRENT_PAGE_GENERATION_PROMISES pages).
  intros l. revert w. induction l as [|page l IH]; intros w pl; [done|].
  cbn [foldl]. pose proof (site_callGeneratePage page (w, pl)) as Hs.
  destruct (callGeneratePage page (w, pl)) as [w1 pl1].
  rewrite IH. done.
Qed.

Lemma toRebuild_seqStep (st : World * SeqTask) (e : Event) :
  toRebuild (site (seqStep st e).1) ⊆ toRebuild (site st.1).
Proof.
  destruct st as [w t]. unfold seqStep.
  destruct e as [d| |[|i]|[|i]|[|i]]; try done.
  - destruct (seq_pc t) as [page [| ]|res]; try done.
    destruct (backgroundBuildMode (site w)).
    + simpl. set_solver.
    + destruct (sequentialFrom_world (seq_startTime t) (seq_remaining t)
                  (seq_isCompleted t)
                  (toRebuild_delete (normalizedSource page) (act (ActGenerated page) w)))
        as [-> _].
      simpl. set_solver.
  - by destruct (seq_pc t) as [page [| ]|res].
  - destruct (seq_pc t) as [page [| ]|res]; try done.
    destruct (sequentialFrom_world (seq_startTime t) (seq_remaining t)
                (seq_isCompleted t) w) as [-> _].
    done.
Qed.

Lemma toRebuild_poolStep (st : World * Pool) (e : Event) :
  toRebuild (site (poolStep st e).1) ⊆ toRebuild (site st.1).
Proof.
  destruct st as [w pl]. unfold poolStep.
  destruct e as [d| |i|i|i]; try done.
  - destruct (inFlight pl !! i) as [[page [| ]]|]; try done.
    destruct (backgroundBuildMode (site w)).
    + simpl. set_solver.
    + rewrite site_generateProgressBarStatus. simpl. set_solver.
  - by destruct (inFlight pl !! i) as [[page [| ]]|].
  - destruct (inFlight pl !! i) as [[page [| ]]|]; try done.
    by rewrite site_generateProgressBarStatus.
Qed.

Lemma site_runFrom (start : nat) (tasks : list Task) (completed : bool)
    (statuses : list TaskStatus) (w : World) :
  site (runFrom start tasks completed statuses w).1 = site w.
Proof.
  revert completed statuses w.
  induction tasks as [|task rest IH]; intros completed statuses w; [done|].
  cbn [runFrom]. destruct (stopRequested start w); [apply IH|].
  destruct (mode task).
  - unfold generatePagesSequential.
    destruct (sequentialFrom_world (clock w) (task_pages task) true w) as [Hs _].
    destruct (sequentialFrom (clock w) (task_pages task) true w) as [w1 t].
    simpl in Hs. destruct (seq_pc t) as [page a|[b|msg]]; simpl; try done.
    by rewrite IH.
  - pose proof (site_generatePagesAsyncThrottled (task_pages task) w) as Hs.
    destruct (generatePagesAsyncThrottled (task_pages task) w) as [w1 pl].
    simpl in Hs. destruct (promise pl) as [[b|msg]|]; simpl; try done.
    by rewrite IH.
Qed.

Lemma toRebuild_runStep (st : World * Run) (e : Event) :
  toRebuild (site (runStep st e).1) ⊆ toRebuild (site st.1).
Proof.
  destruct st as [w r]. destruct (run_pc r) as [t|pl|res] eqn:Hr.
  - rewrite (runStep_sequential w r t e Hr). unfold resumeSequential.
    pose proof (toRebuild_seqStep (w, t) e) as Hsub.
    destruct (seqStep (w, t) e) as [w1 t1]. simpl in *.
    destruct (seq_pc t1) as [page a|[b|msg]]; simpl; try done.
    by rewrite site_runFrom.
  - rewrite (runStep_async w r pl e Hr). unfold resumeAsync.
    pose proof (toRebuild_poolStep (w, pl) e) as Hsub.
    destruct (poolStep (w, pl) e) as [w1 pl1]. simpl in *.
    destruct (promise pl1) as [[b|msg]|]; simpl; try done.
    by rewrite site_runFrom.
  - unfold runStep. rewrite Hr. by destruct e.
Qed.

Lemma toRebuild_run (st : World * Run) (events : list Event) :
  toRebuild (site (run runStep st events).1) ⊆ toRebuild (site st.1).
Proof.
  revert st. induction events as [|e events IH]; intros st; [done|].
  simpl. etrans; [apply IH|apply toRebuild_runStep].
Qed.

Lemma runClear_runFrom (tasks doneTasks rest : list Task) (start : nat)
    (completed : bool) (statuses : list TaskStatus) (w : World) :
  clockOk w →
  tasks = doneTasks ++ rest → length doneTasks = length statuses →
  (∀ i task, doneTasks !! i = Some task → statuses !! i = Some (Ran true) →
             cleared (task_pages task) w) →
  runClearInv tasks (runFrom start rest completed statuses w).
Proof.
  revert doneTasks completed statuses w.
  induction rest as [|task rest IH]; intros doneTasks completed statuses w Hok Ht Hlen Hcl.
  - simpl. exists doneTasks. split; [done|]. split; [done|]. simpl.
    by rewrite app_nil_r in Ht.
  - assert (Hnext : ∀ s w1,
              clockOk w1 → toRebuild (site w1) ⊆ toRebuild (site w) →
              (s = Ran true → cleared (task_pages task) w1) →
              ∀ c, runClearInv tasks (runFrom start rest c (statuses ++ [s]) w1)).
    { intros s w1 Hok1 Hsub Hs c. apply (IH (doneTasks ++ [task])).
      - done.
      - by rewrite <- app_assoc.
      - rewrite !length_app. simpl. lia.
      - intros i task' Hi Hsi.
        destruct (decide (i < length doneTasks)) as [Hlt|Hge].
        + rewrite lookup_app_l in Hi by done.
          rewrite lookup_app_l in Hsi by lia.
          eapply cleared_mono; [exact Hsub|]. by eapply Hcl.
        + rewrite lookup_app_r in Hi by lia.
          rewrite lookup_app_r in Hsi by lia.
          rewrite Hlen in Hi.
          destruct (i - length statuses) as [|k]; simpl in Hi, Hsi; [|done].
          injection Hi as <-. injection Hsi as ->. by apply Hs. }
    cbn [runFrom]. destruct (stopRequested start w).
    { apply Hnext; done. }
    destruct (mode task).
    + pose proof (seqOrder_start (task_pages task) w) as Hseq.
      destruct (seqInv_start (task_pages task) w Hok) as ((Hok1 & _) & _).
      unfold generatePagesSequential in *.
      destruct (sequentialFrom_world (clock w) (task_pages task) true w) as [Hs _].
      destruct (sequentialFrom (clock w) (task_pages task) true w) as [w1 t].
      simpl in Hs, Hok1.
      destruct (seq_pc t) as [page a|[b|msg]] eqn:Hpc.
      * exists doneTasks. split; [done|]. split.
        -- intros i task' Hi Hsi. eapply cleared_mono; [|by eapply Hcl].
           simpl. by rewrite Hs.
        -- simpl. exists task, (dispatched (trace w)). done.
      * apply Hnext; [done|by rewrite Hs|].
        intros [= ->]. unfold seqOrderInv in Hseq. simpl in Hseq.
        rewrite Hpc in Hseq. by destruct Hseq.
      * exists doneTasks. split; [done|]. split; [|done].
        intros i task' Hi Hsi. eapply cleared_mono; [|by eapply Hcl].
        simpl. by rewrite Hs.
    + pose proof (poolInv_start (task_pages task) w Hok) as Hinv.
      pose proof (poolClear_start (task_pages task) w Hok) as Hclear.
      rewrite (generatePagesAsyncThrottled_first _ _ Hok) in *. simpl.
      exists doneTasks. split; [done|]. split; [done|].
      simpl. exists task, (dispatched (trace w)). done.
Qed.

Lemma runClear_step (tasks : list Task) (st : World * Run) (e : Event) :
  runInv st → runClearInv tasks st → runClearInv tasks (runStep st e).
Proof.
  destruct st as [w r]. intros (Hok & _ & _ & Hrun) (doneTasks & Hlen & Hcl & Hpc).
  simpl in Hok, Hrun, Hlen, Hcl, Hpc.
  assert (Hkeep : ∀ w1, toRebuild (site w1) ⊆ toRebuild (site w) →
            ∀ i task, doneTasks !! i = Some task →
                      run_statuses r !! i = Some (Ran true) →
                      cleared (task_pages task) w1).
  { intros w1 Hsub i task Hi Hsi. eapply cleared_mono; [exact Hsub|]. by eapply Hcl. }
  assert (Hnext : ∀ cur b w1,
            tasks = doneTasks ++ cur :: run_remaining r →
            clockOk w1 → toRebuild (site w1) ⊆ toRebuild (site w) →
            (b = true → cleared (task_pages cur) w1) →
            runClearInv tasks
              (runFrom (run_startTime r) (run_remaining r) b
                 (run_statuses r ++ [Ran b]) w1)).
  { intros cur b w1 Ht Hok1 Hsub Hb. apply (runClear_runFrom tasks (doneTasks ++ [cur])).
    - done.
    - by rewrite <- app_assoc.
    - rewrite !length_app. simpl. lia.
    - intros i task' Hi Hsi.
      destruct (decide (i < length doneTasks)) as [Hlt|Hge].
      + rewrite lookup_app_l in Hi by done.
        rewrite lookup_app_l in Hsi by lia. by eapply Hkeep.
      + rewrite lookup_app_r in Hi by lia.
        rewrite lookup_app_r in Hsi by lia.
        rewrite Hlen in Hi.
        destruct (i - length (run_statuses r)) as [|k]; simpl in Hi, Hsi; [|done].
        injection Hi as <-. injection Hsi as ->. by apply Hb. }
  destruct (run_pc r) as [t|pl|res] eqn:Hr.
  - destruct Hpc as (cur & before & Ht & Hseq).
    destruct Hrun as (Hsinv & _).
    rewrite (runStep_sequential w r t e Hr). unfold resumeSequential.
    pose proof (seqOrder_step _ _ _ e Hseq) as Hseq1.
    destruct (seqInv_step _ e Hsinv) as ((Hok1 & _) & _).
    pose proof (toRebuild_seqStep (w, t) e) as Hsub.
    destruct (seqStep (w, t) e) as [w1 t1]. simpl in Hok1, Hsub. simpl.
    destruct (seq_pc t1) as [page a|[b|msg]] eqn:Hpc1.
    + exists doneTasks. split; [done|]. split; [by apply Hkeep|].
      simpl. exists cur, before. done.
    + apply (Hnext cur); try done.
      intros ->. unfold seqOrderInv in Hseq1. simpl in Hseq1.
      rewrite Hpc1 in Hseq1. by destruct Hseq1.
    + exists doneTasks. split; [done|]. split; [by apply Hkeep|done].
  - destruct Hpc as (cur & before & Ht & Hpinv & Hclear).
    rewrite (runStep_async w r pl e Hr). unfold resumeAsync.
    pose proof (poolInv_step _ _ _ e Hpinv) as Hpinv1.
    pose proof (poolClear_step _ _ _ e Hpinv Hclear) as Hclear1.
    pose proof (toRebuild_poolStep (w, pl) e) as Hsub.
    destruct (poolStep (w, pl) e) as [w1 pl1]. simpl in Hsub. simpl.
    pose proof Hpinv1 as (Hok1 & _ & _ & _ & Hacc & _ & _ & _ & Htrue & _).
    simpl in Hok1, Hacc, Htrue.
    destruct (promise pl1) as [[b|msg]|] eqn:Hp1.
    + apply (Hnext cur); try done.
      intros -> page Hin.
      destruct (Htrue eq_refl) as [Hn _].
      destruct (Hclear1 (or_intror Hp1) page Hin) as [Hq|[Hf|?]]; [| |done].
      * assert (Hl : length (pageGenerationQueue pl1) = 0) by lia.
        apply nil_length_inv in Hl. simpl in Hq. rewrite Hl in Hq.
        by apply elem_of_nil in Hq.
      * assert (Hl : length (inFlight pl1) = 0) by lia.
        apply nil_length_inv in Hl. simpl in Hf. rewrite Hl in Hf.
        by apply elem_of_nil in Hf.
    + exists doneTasks. split; [done|]. split; [by apply Hkeep|done].
    + exists doneTasks. split; [done|]. split; [by apply Hkeep|].
      simpl. exists cur, before. done.
  - unfold runStep. rewrite Hr.
    destruct e; simpl; exists doneTasks; (split; [done|]);
      (split; [by apply Hkeep|]); simpl; by rewrite Hr.
Qed.

Lemma runClear_run (tasks : list Task) (st : World * Run) (events : list Event) :
  runInv st → runClearInv tasks st → runClearInv tasks (run runStep st events).
Proof.
  revert st. induction events as [|e events IH]; intros st Hinv Hc; [done|].
  simpl. apply IH; [by apply runInv_step|by apply runClear_step].
Qed.

Lemma run_true_unmarks (tasks : list Task) (w : World) (events : list Event) :
  clockOk w →
  let st := run runStep (runPageGenerationTasks tasks w) events in
  toRebuild (site st.1) ⊆ toRebuild (site w)
  ∧ (run_pc st.2 = RunSettled (Resolved true) →
     ∀ task page, task ∈ tasks → page ∈ task_pages task →
                  normalizedSource page ∉ toRebuild (site st.1)).
Proof.
  intros Hok st. split.
  - subst st. etrans; [apply toRebuild_run|].
    unfold runPageGenerationTasks. by rewrite site_runFrom.
  - intros Hpc task page Htask Hpage.
    destruct (runInv_runFrom (clock w) tasks true [] w) as (Hinv0 & _); try done.
    assert (Hc0 : runClearInv tasks (runPageGenerationTasks tasks w)).
    { apply (runClear_runFrom tasks []); try done. }
    pose proof (runInv_run _ events Hinv0) as [(_ & _ & _ & Hinv) _].
    pose proof (runClear_run tasks _ events Hinv0 Hc0)
      as (doneTasks & Hlen & Hcl & Hdone).
    fold (runPageGenerationTasks tasks w) in Hinv, Hlen, Hcl, Hdone.
    fold st in Hinv, Hlen, Hcl, Hdone.
    rewrite Hpc in Hinv, Hdone. destruct Hinv as [Hb _]. subst doneTasks.
    apply list_elem_of_lookup_1 in Htask as [i Hi].
    assert (Hlt : i < length (run_statuses st.2)).
    { rewrite <- Hlen. by eapply lookup_lt_Some. }
    apply lookup_lt_is_Some_2 in Hlt as [s Hs].
    assert (Hran : s = Ran true).
    { destruct s as [|[|]]; [|done|].
      - exfalso. symmetry in Hb. apply negb_true_iff in Hb.
        assert (Hex : existsb cutShort (run_statuses st.2) = true).
        { apply existsb_exists. exists NotStarted. split; [|done].
          apply list_elem_of_In. by eapply list_elem_of_lookup_2. }
        congruence.
      - exfalso. symmetry in Hb. apply negb_true_iff in Hb.
        assert (Hex : existsb cutShort (run_statuses st.2) = true).
        { apply existsb_exists. exists (Ran false). split; [|done].
          apply list_elem_of_In. by eapply list_elem_of_lookup_2. }
        congruence. }
    subst s. by apply (Hcl i task Hi Hs page).
Qed.

(** X16: [runPageGenerationTasks] marks no page, and when it returns [true]
    no page of any of its tasks is still marked to be rebuilt.  So when
    [generatePagesMarkedToRebuild] returns [true], no page of the site is. *)
Theorem runPageGenerationTasks_true_unmarks (tasks : list Task) (w : World)
    (events : list Event) :
  clockOk w →
  (let st := run runStep (runPageGenerationTasks tasks w) events in
   toRebuild (site st.1) ⊆ toRebuild (site w)
   ∧ (run_pc st.2 = RunSettled (Resolved true) →
      ∀ task page, task ∈ tasks → page ∈ task_pages task →
                   normalizedSource page ∉ toRebuild (site st.1)))
  ∧ (let st := run runStep (generatePagesMarkedToRebuild w) events in
     run_pc st.2 = RunSettled (Resolved true) →
     ∀ page, page ∈ pages (site w) → normalizedSource page ∉ toRebuild (site st.1)).
Proof.
  intros Hok.
  pose proof (λ tasks, run_true_unmarks tasks w events Hok) as Hall.
  split; [apply Hall|].
  intros st Hpc page Hin. subst st. unfold generatePagesMarkedToRebuild in *.
  set (pagesToRebuild := filter (λ page, normalizedSource page ∈ toRebuild (site w))
                           (pages (site w))) in *.
  destruct (Hall [mkTask Async pagesToRebuild]) as [Hsub Hclear].
  destruct (decide (normalizedSource page ∈ toRebuild (site w))) as [Hmarked|Hno].
  - apply (Hclear Hpc (mkTask Async pagesToRebuild) page); [left|].
    simpl. by apply list_elem_of_filter.
  - intros Hk. by apply Hno, Hsub.
Qed.

(** ** Marks that a run leaves alone *)

Lemma keepsMarks_site (allowed : list Page) (w0 w w' : World) :
  toRebuild (site w') = toRebuild (site w) →
  keepsMarks allowed w0 w → keepsMarks allowed w0 w'.
Proof. intros Hs Hk key Hin Hno. rewrite Hs. by apply Hk. Qed.

Lemma keepsMarks_generated (allowed : list Page) (w0 w : World) (page : Page) :
  page ∈ allowed → keepsMarks allowed w0 w →
  keepsMarks allowed w0
    (toRebuild_delete (normalizedSource page) (act (ActGenerated page) w)).
Proof.
  intros Hin Hk key Hkey Hno. simpl. apply elem_of_difference. split.
  - by apply Hk.
  - intros Heq%elem_of_singleton. by apply (Hno page Hin).
Qed.

Lemma within_sequentialFrom (allowed : list Page) (start : nat) (rest : list Page)
    (completed : bool) (w : World) :
  rest ⊆ allowed →
  let r := sequentialFrom start rest completed w in
  seq_remaining r.2 ⊆ allowed
  ∧ ∀ page a, seq_pc r.2 = SeqAwait page a → page ∈ allowed.
Proof.
  revert completed. induction rest as [|page rest IH]; intros completed Hsub.
  - simpl. split; [set_solver|done].
  - simpl. destruct (stopRequested start w).
    + apply IH. set_solver.
    + simpl. split; [set_solver|]. intros p a [= <- _]. set_solver.
Qed.

Lemma within_seqStep (allowed : list Page) (w0 w : World) (t : SeqTask) (e : Event) :
  seq_remaining t ⊆ allowed →
  (∀ page a, seq_pc t = SeqAwait page a → page ∈ allowed) →
  keepsMarks allowed w0 w →
  let st1 := seqStep (w, t) e in
  seq_remaining st1.2 ⊆ allowed
  ∧ (∀ page a, seq_pc st1.2 = SeqAwait page a → page ∈ allowed)
  ∧ keepsMarks allowed w0 st1.1.
Proof.
  intros Hrem Hcur Hk.
  assert (Hgo : ∀ w1, keepsMarks allowed w0 w1 →
            let st1 := sequentialFrom (seq_startTime t) (seq_remaining t)
                         (seq_isCompleted t) w1 in
            seq_remaining st1.2 ⊆ allowed
            ∧ (∀ page a, seq_pc st1.2 = SeqAwait page a → page ∈ allowed)
            ∧ keepsMarks allowed w0 st1.1).
  { intros w1 Hk1.
    destruct (within_sequentialFrom allowed (seq_startTime t) (seq_remaining t)
                (seq_isCompleted t) w1 Hrem) as [? ?].
    split; [done|]. split; [done|].
    eapply keepsMarks_site; [|exact Hk1].
    by destruct (sequentialFrom_world (seq_startTime t) (seq_remaining t)
                   (seq_isCompleted t) w1) as [-> _]. }
  unfold seqStep.
  destruct e as [d| |[|i]|[|i]|[|i]]; try (by cbn [fst snd]; split_and!; eauto).
  - destruct (seq_pc t) as [page [| ]|res] eqn:Hpc;
      try (by cbn [fst snd]; rewrite ?Hpc; split_and!; eauto).
    assert (Hin : page ∈ allowed) by (by eapply Hcur).
    destruct (backgroundBuildMode (site w)).
    + simpl. split; [done|]. split.
      * intros p a [= <- _]. done.
      * by apply keepsMarks_generated.
    + apply Hgo. by apply keepsMarks_generated.
  - destruct (seq_pc t) as [page [| ]|res] eqn:Hpc;
      try (by cbn [fst snd]; rewrite ?Hpc; split_and!; eauto).
  - destruct (seq_pc t) as [page [| ]|res] eqn:Hpc;
      try (by cbn [fst snd]; rewrite ?Hpc; split_and!; eauto).
    by apply Hgo.
Qed.

Lemma within_callGeneratePage (allowed : list Page) (page : Page) (w : World) (pl : Pool) :
  page ∈ allowed →
  pageGenerationQueue pl ⊆ allowed →
  (∀ p a, (p, a) ∈ inFlight pl → p ∈ allowed) →
  let st1 := callGeneratePage page (w, pl) in
  pageGenerationQueue st1.2 ⊆ allowed
  ∧ (∀ p a, (p, a) ∈ inFlight st1.2 → p ∈ allowed)
  ∧ site st1.1 = site w.
Proof.
  intros Hin Hq Hf. unfold callGeneratePage.
  destruct (stopRequested (startTime pl) w).
  - unfold stopPool. destruct (isCompleted pl); simpl; done.
  - simpl. split; [done|]. split; [|done].
    intros p a [?|Hp%list_elem_of_singleton]%elem_of_app; [by eapply Hf|].
    by injection Hp as -> _.
Qed.

Lemma within_progress (allowed : list Page) (w : World) (pl : Pool) :
  pageGenerationQueue pl ⊆ allowed →
  (∀ p a, (p, a) ∈ inFlight pl → p ∈ allowed) →
  let st1 := generateProgressBarStatus (w, pl) in
  pageGenerationQueue st1.2 ⊆ allowed
  ∧ (∀ p a, (p, a) ∈ inFlight st1.2 → p ∈ allowed)
  ∧ site st1.1 = site w.
Proof.
  intros Hq Hf. unfold generateProgressBarStatus.
  destruct (stopRequested (startTime pl) w).
  - unfold stopPool. destruct (isCompleted pl); simpl; done.
  - destruct (last (pageGenerationQueue pl)) as [page|] eqn:Hlast; [|done].
    assert (Hsplit : pageGenerationQueue pl
                     = removelast (pageGenerationQueue pl) ++ [page]).
    { destruct (pageGenerationQueue pl) as [|x l] using rev_ind; [done|].
      rewrite last_snoc in Hlast. injection Hlast as ->.
      by rewrite removelast_last. }
    apply within_callGeneratePage; simpl.
    + apply Hq. rewrite Hsplit. set_solver.
    + intros p Hp. apply Hq. rewrite Hsplit. set_solver.
    + done.
Qed.

Lemma within_poolStep (allowed : list Page) (w0 w : World) (pl : Pool) (e : Event) :
  pageGenerationQueue pl ⊆ allowed →
  (∀ p a, (p, a) ∈ inFlight pl → p ∈ allowed) →
  keepsMarks allowed w0 w →
  let st1 := poolStep (w, pl) e in
  pageGenerationQueue st1.2 ⊆ allowed
  ∧ (∀ p a, (p, a) ∈ inFlight st1.2 → p ∈ allowed)
  ∧ keepsMarks allowed w0 st1.1.
Proof.
  intros Hq Hf Hk.
  assert (Hdel : ∀ i p a, (p, a) ∈ delete i (inFlight pl) → p ∈ allowed).
  { intros i p a Hin. apply (Hf p a).
    by apply (sublist_subseteq _ _ (sublist_delete (inFlight pl) i)). }
  assert (Hgo : ∀ w1 i, keepsMarks allowed w0 w1 →
            let st1 := generateProgressBarStatus
                         (w1, setInFlight (delete i (inFlight pl)) pl) in
            pageGenerationQueue st1.2 ⊆ allowed
            ∧ (∀ p a, (p, a) ∈ inFlight st1.2 → p ∈ allowed)
            ∧ keepsMarks allowed w0 st1.1).
  { intros w1 i Hk1.
    destruct (within_progress allowed w1 (setInFlight (delete i (inFlight pl)) pl))
      as (? & ? & Hs); [done|by apply Hdel|].
    split; [done|]. split; [done|].
    eapply keepsMarks_site; [|exact Hk1]. by rewrite Hs. }
  unfold poolStep. destruct e as [d| |i|i|i]; try (by cbn [fst snd]; split_and!; eauto).
  - destruct (inFlight pl !! i) as [[page [| ]]|] eqn:Hi; try (by cbn [fst snd]; split_and!; eauto).
    assert (Hin : page ∈ allowed).
    { apply (Hf page AwaitGenerate). by eapply list_elem_of_lookup_2. }
    destruct (backgroundBuildMode (site w)).
    + simpl. split; [done|]. split; [|by apply keepsMarks_generated].
      intros p a Hp. apply list_elem_of_lookup_1 in Hp as [j Hj].
      destruct (decide (j = i)) as [->|Hne].
      * rewrite list_lookup_insert_eq in Hj by (by eapply lookup_lt_Some).
        by injection Hj as -> _.
      * rewrite list_lookup_insert_ne in Hj by done.
        apply (Hf p a). by eapply list_elem_of_lookup_2.
    + apply Hgo. by apply keepsMarks_generated.
  - destruct (inFlight pl !! i) as [[page [| ]]|] eqn:Hi; try (by cbn [fst snd]; split_and!; eauto).
  - destruct (inFlight pl !! i) as [[page [| ]]|] eqn:Hi; try (by cbn [fst snd]; split_and!; eauto).
    by apply Hgo.
Qed.

Lemma within_fold (allowed l : list Page) (w : World) (pl : Pool) :
  pageGenerationQueue pl ⊆ allowed →
  (∀ p a, (p, a) ∈ inFlight pl → p ∈ allowed) →
  l ⊆ allowed →
  let st1 := foldl (λ st page, callGeneratePage page st) (w, pl) l in
  pageGenerationQueue st1.2 ⊆ allowed
  ∧ ∀ p a, (p, a) ∈ inFlight st1.2 → p ∈ allowed.
Proof.
  revert w pl. induction l as [|page l IH]; intros w pl Hq Hf Hl; [done|].
  cbn [foldl].
  destruct (within_callGeneratePage allowed page w pl) as (Hq1 & Hf1 & _);
    [set_solver|done|done|].
  destruct (callGeneratePage page (w, pl)) as [w1 pl1].
  apply IH; [done|done|set_solver].
Qed.

Lemma within_pool_start (allowed pages : list Page) (w : World) :
  pages ⊆ allowed →
  let st1 := generatePagesAsyncThrottled pages w in
  pageGenerationQueue st1.2 ⊆ allowed
  ∧ ∀ p a, (p, a) ∈ inFlight st1.2 → p ∈ allowed.
Proof.
  intros Hsub. unfold generatePagesAsyncThrottled. apply within_fold; simpl.
  - etrans; [apply subseteq_drop|done].
  - intros p a Hin. by apply elem_of_nil in Hin.
  - etrans; [apply subseteq_take|done].
Qed.

Lemma within_runFrom (allowed : list Page) (w0 : World) (start : nat) (tasks : list Task)
    (completed : bool) (statuses : list TaskStatus) (w : World) :
  (∀ task, task ∈ tasks → task_pages task ⊆ allowed) →
  keepsMarks allowed w0 w →
  runWithinInv allowed (runFrom start tasks completed statuses w)
  ∧ keepsMarks allowed w0 (runFrom start tasks completed statuses w).1.
Proof.
  intros Htasks Hk. split.
  2:{ eapply keepsMarks_site; [|exact Hk]. by rewrite site_runFrom. }
  clear Hk. revert completed statuses w.
  induction tasks as [|task rest IH]; intros completed statuses w.
  - simpl. split; [|done]. intros task Hin. by apply elem_of_nil in Hin.
  - assert (Hrest : ∀ task', task' ∈ rest → task_pages task' ⊆ allowed).
    { intros task' Hin. apply Htasks. by right. }
    assert (Hcur : task_pages task ⊆ allowed) by (apply Htasks; left).
    cbn [runFrom]. destruct (stopRequested start w); [by apply IH|].
    destruct (mode task).
    + unfold generatePagesSequential.
      destruct (within_sequentialFrom allowed (clock w) (task_pages task) true w Hcur)
        as [Hrem Hpage].
      destruct (sequentialFrom (clock w) (task_pages task) true w) as [w1 t].
      simpl in Hrem, Hpage.
      destruct (seq_pc t) as [page a|[b|msg]] eqn:Hpc.
      * split; [done|]. simpl. split; [done|]. by rewrite Hpc.
      * by apply IH.
      * split; [done|]. done.
    + destruct (within_pool_start allowed (task_pages task) w Hcur) as [Hq Hf].
      destruct (generatePagesAsyncThrottled (task_pages task) w) as [w1 pl].
      simpl in Hq, Hf.
      destruct (promise pl) as [[b|msg]|].
      * by apply IH.
      * split; [done|]. done.
      * split; [done|]. simpl. done.
Qed.

Lemma within_runStep (allowed : list Page) (w0 : World) (st : World * Run) (e : Event) :
  runWithinInv allowed st → keepsMarks allowed w0 st.1 →
  runWithinInv allowed (runStep st e) ∧ keepsMarks allowed w0 (runStep st e).1.
Proof.
  destruct st as [w r]. intros [Hrest Hpc] Hk. simpl in Hrest, Hpc, Hk.
  destruct (run_pc r) as [t|pl|res] eqn:Hr.
  - destruct Hpc as [Hrem Hcur].
    rewrite (runStep_sequential w r t e Hr). unfold resumeSequential.
    destruct (within_seqStep allowed w0 w t e Hrem Hcur Hk) as (Hrem1 & Hcur1 & Hk1).
    destruct (seqStep (w, t) e) as [w1 t1]. simpl in Hrem1, Hcur1, Hk1. simpl.
    destruct (seq_pc t1) as [page a|[b|msg]] eqn:Hpc1.
    + split; [|done]. split; [done|]. simpl. split; [done|]. by rewrite Hpc1.
    + by apply within_runFrom.
    + split; [|done]. split; [done|]. done.
  - destruct Hpc as [Hq Hf].
    rewrite (runStep_async w r pl e Hr). unfold resumeAsync.
    destruct (within_poolStep allowed w0 w pl e Hq Hf Hk) as (Hq1 & Hf1 & Hk1).
    destruct (poolStep (w, pl) e) as [w1 pl1]. simpl in Hq1, Hf1, Hk1. simpl.
    destruct (promise pl1) as [[b|msg]|].
    + by apply within_runFrom.
    + split; [|done]. split; [done|]. done.
    + split; [|done]. split; [done|]. simpl. done.
  - unfold runStep. rewrite Hr.
    destruct e; simpl; (split; [|done]); (split; [done|]); simpl; by rewrite Hr.
Qed.

Lemma within_run (allowed : list Page) (w0 : World) (st : World * Run)
    (events : list Event) :
  runWithinInv allowed st → keepsMarks allowed w0 st.1 →
  keepsMarks allowed w0 (run runStep st events).1.
Proof.
  revert st. induction events as [|e events IH]; intros st Hin Hk; [done|].
  simpl. destruct (within_runStep allowed w0 st e Hin Hk). by apply IH.
Qed.

(** X17: a run of [runPageGenerationTasks] unmarks only keys of pages of
    its tasks: a key marked when it begins that is the key of none of these
    pages stays marked, whatever happens. *)
Theorem runPageGenerationTasks_keeps_other_marks (tasks : list Task) (w : World)
    (events : list Event) (key : string) :
  key ∈ toRebuild (site w) →
  (∀ task page, task ∈ tasks → page ∈ task_pages task → normalizedSource page ≠ key) →
  key ∈ toRebuild (site (run runStep (runPageGenerationTasks tasks w) events).1).
Proof.
  intros Hin Hother.
  set (allowed := tasks ≫= task_pages).
  assert (Hall : ∀ task, task ∈ tasks → task_pages task ⊆ allowed).
  { intros task Htask page Hpage. apply list_elem_of_bind. eauto. }
  assert (Hk0 : keepsMarks allowed w w) by (by intros k ? ?).
  destruct (within_runFrom allowed w (clock w) tasks true [] w Hall Hk0) as [Hw Hk].
  apply (within_run allowed w _ events Hw Hk key Hin).
  intros page (task & Hpage & Htask)%list_elem_of_bind. by eapply Hother.
Qed.

Lemma rootPath_seqStep (st : World * SeqTask) (e : Event) :
  rootPath (site (seqStep st e).1) = rootPath (site st.1).
Proof.
  destruct st as [w t]. unfold seqStep.
  destruct e as [d| |[|i]|[|i]|[|i]]; try done.
  - destruct (seq_pc t) as [page [| ]|res]; try done.
    destruct (backgroundBuildMode (site w)); [done|].
    by destruct (sequentialFrom_world (seq_startTime t) (seq_remaining t)
                   (seq_isCompleted t)
                   (toRebuild_delete (normalizedSource page) (act (ActGenerated page) w)))
      as [-> _].
  - by destruct (seq_pc t) as [page [| ]|res].
  - destruct (seq_pc t) as [page [| ]|res]; try done.
    by destruct (sequentialFrom_world (seq_startTime t) (seq_remaining t)
                   (seq_isCompleted t) w) as [-> _].
Qed.

Lemma rootPath_poolStep (st : World * Pool) (e : Event) :
  rootPath (site (poolStep st e).1) = rootPath (site st.1).
Proof.
  destruct st as [w pl]. unfold poolStep.
  destruct e as [d| |i|i|i]; try done.
  - destruct (inFlight pl !! i) as [[page [| ]]|]; try done.
    destruct (backgroundBuildMode (site w)); [done|].
    by rewrite site_generateProgressBarStatus.
  - by destruct (inFlight pl !! i) as [[page [| ]]|].
  - destruct (inFlight pl !! i) as [[page [| ]]|]; try done.
    by rewrite site_generateProgressBarStatus.
Qed.

Lemma rootPath_runStep (st : World * Run) (e : Event) :
  rootPath (site (runStep st e).1) = rootPath (site st.1).
Proof.
  destruct st as [w r]. destruct (run_pc r) as [t|pl|res] eqn:Hr.
  - rewrite (runStep_sequential w r t e Hr). unfold resumeSequential.
    pose proof (rootPath_seqStep (w, t) e) as Hroot.
    destruct (seqStep (w, t) e) as [w1 t1]. simpl in *.
    destruct (seq_pc t1) as [page a|[b|msg]]; simpl; try done.
    by rewrite site_runFrom.
  - rewrite (runStep_async w r pl e Hr). unfold resumeAsync.
    pose proof (rootPath_poolStep (w, pl) e) as Hroot.
    destruct (poolStep (w, pl) e) as [w1 pl1]. simpl in *.
    destruct (promise pl1) as [[b|msg]|]; simpl; try done.
    by rewrite site_runFrom.
  - unfold runStep. rewrite Hr. by destruct e.
Qed.

Lemma rootPath_run (st : World * Run) (events : list Event) :
  rootPath (site (run runStep st events).1) = rootPath (site st.1).
Proof.
  revert st. induction events as [|e events IH]; intros st; [done|].
  simpl. by rewrite IH, rootPath_runStep.
Qed.

(** X18: on a site built lazily, an affected page that is not opened is
    marked by [regenerateAffectedPages] and stays marked while the opened
    pages are regenerated, so the next visit to it asks for its rebuild. *)
Theorem regenerateAffectedPages_marks_until_visited (filePaths : list string) (w : World)
    (page : Page) (normalizedUrl : string) (events : list Event) :
  onePagePath (site w) ≠ None →
  page ∈ pages (site w) →
  isAffected filePaths (site w) page = true →
  normalizedSource page ∉ currentOpenedPages (site w) →
  path_join (rootPath (site w)) normalizedUrl = normalizedSource page →
  let st := regenerateAffectedPages filePaths w in
  let final := match st.2 with
               | NothingToRebuild => st.1
               | Regenerating r => (run runStep (st.1, r) events).1
               end in
  normalizedSource page ∈ toRebuild (site final)
  ∧ (changeCurrentPage normalizedUrl (site final)).1.2 = true.
Proof.
  intros Hlazy Hin Haff Hclosed Hurl st final.
  destruct (onePagePath (site w)) as [o|] eqn:Ho; [|done].
  set (a := affectedPages filePaths (site w)).
  set (w1 := mkWorld (set_toRebuild (aff_toRebuild a) (site w)) (clock w) (trace w)).
  destruct (affectedPages_lazy filePaths (site w) o Ho) as (Hasync & Hset & Hopen & _).
  fold a in Hasync, Hset, Hopen.
  assert (Hmarked : normalizedSource page ∈ toRebuild (site w1)).
  { simpl. apply Hset. right. exists page. done. }
  assert (Hfinal : normalizedSource page ∈ toRebuild (site final)
                   ∧ rootPath (site final) = rootPath (site w)).
  { subst final st. unfold regenerateAffectedPages. fold a. fold w1.
    destruct (decide (length (definedPages (openedPagesToRegenerate a))
                      + length (asyncPagesToRegenerate a) = 0)); [done|].
    set (tasks := regenerationTasks a).
    set (allowed := tasks ≫= task_pages).
    assert (Hall : ∀ task, task ∈ tasks → task_pages task ⊆ allowed).
    { intros task Htask p Hp. apply list_elem_of_bind. eauto. }
    assert (Hk0 : keepsMarks allowed w1 w1) by (by intros k ? ?).
    destruct (within_runFrom allowed w1 (clock w1) tasks true [] w1 Hall Hk0)
      as [Hw Hk].
    fold (runPageGenerationTasks tasks w1) in Hw, Hk.
    pose proof (site_runFrom (clock w1) tasks true [] w1) as Hsite.
    fold (runPageGenerationTasks tasks w1) in Hsite.
    pose proof (within_run allowed w1 _ events Hw Hk) as Hkeep.
    pose proof (rootPath_run (runPageGenerationTasks tasks w1) events) as Hroot.
    destruct (runPageGenerationTasks tasks w1) as [w2 r]. simpl. split.
    - apply (Hkeep _ Hmarked).
      intros p (task & Hp & Htask)%list_elem_of_bind Hkey.
      unfold tasks, regenerationTasks in Htask. rewrite Hasync in Htask.
      simpl in Htask. rewrite app_nil_r in Htask.
      case_decide; [|by apply elem_of_nil in Htask].
      apply list_elem_of_singleton in Htask as ->. simpl in Hp.
      apply elem_of_definedPages in Hp as [i Hi].
      destruct (Hopen i p Hi) as (_ & _ & Hidx).
      apply findIndex_Some in Hidx. apply Hclosed. rewrite <- Hkey.
      by eapply list_elem_of_lookup_2.
    - rewrite Hroot. simpl in *. by rewrite Hsite. }
  destruct Hfinal as [Hm Hr]. split; [done|].
  unfold changeCurrentPage. simpl. rewrite Hr, Hurl.
  by rewrite bool_decide_eq_true_2.
Qed.

(** ** [regenerateAffectedPages]: what becomes of the affected pages *)





End SchedulerProperties.

(** C8 does not hold as stated: a searchable page whose [headings] are still
    [undefined] (a page of a lazily built site that was never generated) is
    left out of the site index. *)
Lemma writeSiteData_all_searchable_counterexample :
  let s := exampleSite [examplePage "index" (VObj []); examplePage "guide" VUndefined]
             (Some "index.md") false {["/site/guide"]} in
  ¬ (∀ page, page ∈ pages s →
       (searchable (pageConfig page) = true
        ↔ siteDataPage page ∈ sd_pages (siteData s))).
Proof.
  simpl. intros Hclaim.
  specialize (Hclaim (examplePage "guide" VUndefined)).
  destruct Hclaim as [Hc _]; [set_solver|].
  specialize (Hc eq_refl). vm_compute in Hc.
  apply list_elem_of_singleton in Hc. discriminate Hc.
Qed.

Lemma changeCurrentPage_rebuilds_iff_pending_witness :
  (changeCurrentPage (H := exampleCollaborators) "guide"
     (exampleSite [] (Some "index.md") false {["/site/guide"]})).1.2 = true.
Proof.
  pose proof (changeCurrentPage_rebuilds_iff_pending (H := exampleCollaborators) "guide"
     (exampleSite [] (Some "index.md") false {["/site/guide"]})) as (_ & Hr & _).
  rewrite Hr. vm_compute. reflexivity.
Defined.


(** C3 does not hold as stated: [_rebuildPageBeingViewed] takes the key of
    the page out of [toRebuild] before it calls [generate], so the key has
    left while no [generate] call has completed. *)
Lemma rebuildPageBeingViewed_deletes_first_counterexample :
  let guide := examplePage "guide" VUndefined in
  let w := exampleWorld (exampleSite [guide] (Some "index.md") false {["/site/guide"]}) in
  let st := _rebuildPageBeingViewed (H := exampleCollaborators) ["/site/guide"] w in
  ¬ (∀ key, key ∈ toRebuild (site w) → key ∉ toRebuild (site st.1) →
       ∃ page, normalizedSource (H := exampleCollaborators) page = key
               ∧ ActGenerated page ∈ trace st.1).
Proof.
  intros guide w st Hclaim.
  destruct (Hclaim "/site/guide") as (page & _ & Hin).
  - subst w. simpl. set_solver.
  - subst st w guide. vm_compute. set_solver.
  - subst st w guide. vm_compute in Hin.
    apply elem_of_cons in Hin as [?|Hin]; [done|].
    apply elem_of_cons in Hin as [?|Hin]; [done|].
    by apply elem_of_nil in Hin.
Qed.

#[local] Existing Instance exampleCollaborators.

(** ** The scheduler on examples *)

(** With a pool of two, four pages are dispatched in the order a, b, d, c. *)
Example pool_dispatch_order :
  dispatched
    (trace (run (poolStep)
              (generatePagesAsyncThrottled
                 [pageA; pageB; pageC; pageD] foregroundWorld)
              [EvGenerated 0; EvGenerated 0]).1)
  = [pageA; pageB; pageD; pageC].
Proof. vm_compute. reflexivity. Qed.

Example pool_resolves_true :
  promise
    (run (poolStep)
       (generatePagesAsyncThrottled
          [pageA; pageB; pageC] foregroundWorld)
       [EvGenerated 1; EvGenerated 0; EvGenerated 0]).2
  = Some (Resolved true).
Proof. vm_compute. reflexivity. Qed.

(** A concurrent task over no page never settles. *)
Example pool_empty_pending (events : list Event) :
  promise
    (run (poolStep)
       (generatePagesAsyncThrottled [] foregroundWorld)
       events).2
  = None.
Proof.
  unfold generatePagesAsyncThrottled. simpl.
  generalize foregroundWorld.
  induction events as [|e events IH]; intros w; [done|].
  simpl. destruct e; simpl; apply IH.
Qed.

Example collidingSite_pages :
  collectAddressablePages collidingSite
  = inr [mkPageEntry "index.md" {["layout" := VStr "home"; "title" := VStr "Home"]};
         mkPageEntry "guide.md" {["layout" := VStr "default"]}].
Proof.
  unfold collectAddressablePages. rewrite decide_False by (vm_compute; lia).
  reflexivity.
Qed.

Example duplicateSite_error :
  collectAddressablePages duplicateSite
  = inl "Duplicate page entries found in site config: index.md".
Proof. vm_compute. reflexivity. Qed.

(** [Object.values] lists the pages whose path is an array index first, in
    the order of the indices, whenever they were found. *)
Example addressable_pages_order :
  entry_src <$> mergePages [mkPageEntry "b.md" ∅; mkPageEntry "10" ∅; mkPageEntry "9" ∅;
                            mkPageEntry "a.md" ∅; mkPageEntry "09" ∅]
  = ["9"; "10"; "b.md"; "a.md"; "09"].
Proof. vm_compute. reflexivity. Qed.

(** ** The theorems at concrete inputs *)

(** C1 at a sequence that begins with a concurrent task over no page, as
    [generatePages] hands over for a site without pages: nobody stops the
    build, no task is cut short and no [generate] call fails, but
    [runPageGenerationTasks] never returns, neither [true] nor [false], and
    never reaches the tasks that follow.  A sequential task over no page
    returns [true] at once. *)
Theorem runPageGenerationTasks_empty_task (rest : list Task) (events : list Event) :
  let tasks := mkTask Async [] :: rest in
  let st := run runStep (runPageGenerationTasks tasks foregroundWorld) events in
  (∀ r, run_pc st.2 ≠ RunSettled r)
  ∧ run_statuses st.2 = []
  ∧ run_remaining st.2 = rest
  ∧ dispatched (trace st.1) = []
  ∧ run_pc (runPageGenerationTasks [mkTask Sequential []] foregroundWorld).2
    = RunSettled (Resolved true).
Proof.
  intros tasks st.
  set (pl := mkPool 10 0 0 true [] [] None).
  destruct (empty_task_pending (runPageGenerationTasks tasks foregroundWorld) events pl)
    as (Hpc & Hrem & Hst & Htr); try reflexivity.
  fold st in Hpc, Hrem, Hst, Htr.
  rewrite Hpc, Hrem, Hst, Htr. split_and!; done.
Qed.

(** C4 does not hold as stated: in background build mode a task that is
    stopped resolves to [false] although all its pages have been dispatched
    and generated and no callback is left; and a task over no page, all of
    whose pages have been dispatched and generated from the start, never
    resolves. *)
Lemma generatePagesAsyncThrottled_cancelled_counterexample :
  let st := run poolStep (generatePagesAsyncThrottled [pageA] backgroundWorld)
              [EvGenerated 0; EvClock 4; EvStopOngoingBuilds; EvSiteDataWritten 0] in
  (dispatched (trace st.1) = [pageA]
   ∧ ActGenerated pageA ∈ trace st.1
   ∧ inFlight st.2 = [] ∧ pageGenerationQueue st.2 = []
   ∧ promise st.2 = Some (Resolved false))
  ∧ ∀ events,
      promise (run poolStep (generatePagesAsyncThrottled [] backgroundWorld) events).2
      ≠ Some (Resolved true).
Proof.
  intros st. split.
  - vm_compute. split_and!; try reflexivity. right. left.
  - intros events.
    assert (Hnone : ∀ w, promise (run poolStep (w, mkPool 10 0 0 true [] [] None) events).2
                         = None).
    { induction events as [|e events IH]; intros w; [done|].
      simpl. destruct e; simpl; apply IH. }
    unfold generatePagesAsyncThrottled. simpl. by rewrite Hnone.
Qed.

Lemma runPageGenerationTasks_completed_witness :
  let tasks := [mkTask Sequential [pageA]; mkTask Async [pageB; pageC]] in
  let r := (run runStep (runPageGenerationTasks tasks backgroundWorld)
              [EvGenerated 0; EvClock 4; EvStopOngoingBuilds; EvSiteDataWritten 0]).2 in
  (run_pc r = RunSettled (Resolved false)
   ∧ length (run_statuses r) = 2
   ∧ false = negb (existsb cutShort (run_statuses r)))
  ∧ ∃ events,
      run_pc (run runStep (runPageGenerationTasks tasks backgroundWorld) events).2
      = RunSettled (Resolved true).
Proof.
  intros tasks r.
  assert (Hpc : run_pc r = RunSettled (Resolved false)) by (vm_compute; reflexivity).
  assert (Hok : clockOk backgroundWorld) by (unfold clockOk; simpl; lia).
  destruct (runPageGenerationTasks_completed tasks backgroundWorld Hok)
    as [Hvalue Hreturns].
  split.
  - destruct (Hvalue
                [EvGenerated 0; EvClock 4; EvStopOngoingBuilds; EvSiteDataWritten 0]
                false Hpc) as (Hlen & Hb & _).
    split; [exact Hpc|]. split; [exact Hlen|exact Hb].
  - apply Hreturns.
    + simpl. lia.
    + intros task Hin _. subst tasks.
      apply elem_of_cons in Hin as [->|Hin]; [discriminate|].
      apply list_elem_of_singleton in Hin as ->. discriminate.
Defined.

Lemma stopOngoingBuilds_cancels_background_tasks_witness :
  let st := run (seqStep)
              (generatePagesSequential
                 [pageA; pageB; pageC] backgroundWorld)
              [EvClock 4] in
  let st2 := run (seqStep)
               (seqStep st EvStopOngoingBuilds)
               [EvGenerated 0; EvSiteDataWritten 0] in
  dispatched (trace st2.1) = dispatched (trace st.1)
  ∧ seq_pc st2.2 ≠ SeqSettled (Resolved true).
Proof.
  intros st st2.
  assert (Hok : clockOk backgroundWorld) by (unfold clockOk; simpl; lia).
  destruct (stopOngoingBuilds_cancels_background_tasks
              [pageA; pageB; pageC] backgroundWorld [EvClock 4]
              [EvGenerated 0; EvSiteDataWritten 0] Hok) as [Hseq _].
  destruct (Hseq eq_refl ltac:(vm_compute; lia)) as (Hd & Hnot & _).
  split; [exact Hd|].
  apply (Hnot pageA AwaitGenerate); [reflexivity|discriminate].
Defined.

Lemma generatePagesAsyncThrottled_pool_witness :
  let st := run (poolStep)
              (generatePagesAsyncThrottled
                 [pageA; pageB; pageC; pageD] backgroundWorld)
              [EvGenerated 1; EvSiteDataWritten 1] in
  length (inFlight st.2) ≤ 2
  ∧ dispatched (trace st.1) = [pageA; pageB; pageD]
  ∧ pageGenerationQueue st.2 = [pageC].
Proof.
  intros st.
  assert (Hok : clockOk backgroundWorld) by (unfold clockOk; simpl; lia).
  destruct (generatePagesAsyncThrottled_pool
              [pageA; pageB; pageC; pageD] backgroundWorld
              [EvGenerated 1; EvSiteDataWritten 1] (EvGenerated 0) Hok)
    as (_ & Hk & (Hq & Hd) & _).
  split; [exact Hk|]. split; [exact Hd|exact Hq].
Defined.


Lemma collectAddressablePages_duplicate_sources_witness :
  ∃ offending,
    "Duplicate page entries found in site config: index.md"
    = "Duplicate page entries found in site config: " +:+ join ", " offending
    ∧ NoDup offending.
Proof.
  destruct (collectAddressablePages_duplicate_sources
              duplicateSite) as (_ & Hmsg & _).
  destruct (Hmsg _ duplicateSite_error) as (offending & Heq & Hnd & _).
  exists offending. split; [exact Heq|exact Hnd].
Defined.


(** C2 does not hold as stated: outside background build mode a task goes on
    after [stopOngoingBuilds] has set the threshold past its start time. *)
Lemma stopOngoingBuilds_foreground_counterexample :
  let st := run (seqStep)
              (generatePagesSequential
                 [pageA; pageB] foregroundWorld)
              [EvClock 4; EvStopOngoingBuilds] in
  let st2 := run (seqStep) st [EvGenerated 0; EvGenerated 0] in
  seq_startTime st.2 < stopGenerationTimeThreshold (site st.1)
  ∧ dispatched (trace st.1) = [pageA]
  ∧ dispatched (trace st2.1) = [pageA; pageB]
  ∧ seq_pc st2.2 = SeqSettled (Resolved true).
Proof. vm_compute. split; [lia|done]. Qed.

#[local] Existing Instance examplePathCollaborators.

(** ** The further theorems at concrete inputs *)

Lemma lazy_navigation_rebuilds_once_witness :
  let visit := changeCurrentPage "guide" (lazyBuildAllPagesNotViewed lazySite) in
  visit.1.2 = true
  ∧ (changeCurrentPage "guide"
       (site (_rebuildPageBeingViewed ["/site/guide"] (mkWorld visit.1.1 0 [])).1)).1.2
    = false.
Proof.
  destruct (lazy_navigation_rebuilds_once lazySite (examplePage "guide" VUndefined)
              "guide" 0 []) as (Hfirst & _ & _ & Hsecond & _).
  - right. left.
  - reflexivity.
  - discriminate.
  - split; [exact Hfirst|exact Hsecond].
Defined.

Lemma regenerateAffectedPages_opened_order_witness :
  asyncPagesToRegenerate
    (affectedPages ["/site/guide.md"]
       (set_currentOpenedPages ["/site/guide"; "/site/index"] lazySite))
  = [].
Proof.
  destruct (regenerateAffectedPages_opened_order ["/site/guide.md"]
              (set_currentOpenedPages ["/site/guide"; "/site/index"] lazySite))
    as (Hasync & _).
  - discriminate.
  - exact Hasync.
Defined.

Lemma isFilepathAPage_addressable_witness :
  isFilepathAPage "/site/guide.md" collidingSite = true.
Proof.
  destruct (isFilepathAPage_addressable "/site/guide.md" collidingSite _
              collidingSite_pages) as [Hiff _].
  apply Hiff. left. right. left.
Defined.

Lemma reloadSiteConfig_plan_witness :
  let addressable :=
    [mkPageEntry "index.md" {["layout" := VStr "home"; "title" := VStr "Home"]};
     mkPageEntry "guide.md" {["layout" := VStr "default"]}] in
  ∃ s', reloadSiteConfig (siteConfig collidingSite)
          (set_addressablePages addressable collidingSite)
        = inr (s', RegenerateEdited []).
Proof.
  intros addressable.
  destruct (reloadSiteConfig_plan (siteConfig collidingSite)
              (set_addressablePages addressable collidingSite)) as [_ Hsame].
  - intros a b Heq. apply bool_decide_eq_true in Heq. by rewrite Heq.
  - intros a. by apply bool_decide_eq_true.
  - apply Hsame. exact collidingSite_pages.
Defined.

Lemma collectAddressablePages_glob_properties_witness :
  entry_props (mkPageEntry "guide.md" {["layout" := VStr "default"]}) !! "title" = None.
Proof.
  destruct (collectAddressablePages_glob_properties collidingSite _
              (mkPageEntry "guide.md" {["layout" := VStr "default"]}) "title"
              collidingSite_pages) as [_ Hnone].
  - vm_compute. intros Hin.
    repeat (apply elem_of_cons in Hin as [Heq|Hin]; [discriminate|]).
    by apply elem_of_nil in Hin.
  - right. left.
  - vm_compute. intros Hin. apply elem_of_cons in Hin as [Heq|Hin]; [discriminate|].
    by apply elem_of_nil in Hin.
  - discriminate.
  - discriminate.
  - discriminate.
  - exact Hnone.
Defined.

Lemma foreground_build_never_cancelled_witness :
  run_pc (run runStep
            (runPageGenerationTasks [mkTask Sequential [pageA; pageB]] foregroundWorld)
            [EvClock 4; EvStopOngoingBuilds; EvGenerated 0]).2
  ≠ RunSettled (Resolved false).
Proof.
  apply (foreground_build_never_cancelled [mkTask Sequential [pageA; pageB]]
           foregroundWorld [EvClock 4; EvStopOngoingBuilds; EvGenerated 0]).
  reflexivity.
Defined.

Lemma empty_concurrent_task_never_returns_witness :
  ∃ pl, run_pc (run runStep
                  (runPageGenerationTasks
                     [mkTask Async []; mkTask Sequential [pageA]] backgroundWorld)
                  [EvClock 4; EvGenerated 0]).2
        = RunAsync pl
        ∧ promise pl = None.
Proof.
  destruct (empty_concurrent_task_never_returns [mkTask Sequential [pageA]]
              backgroundWorld [EvClock 4; EvGenerated 0]) as [[Hpending _] _].
  - unfold clockOk. simpl. lia.
  - exact Hpending.
Defined.

Lemma generatePagesAsyncThrottled_unmarks_witness :
  "/site/a"
  ∉ toRebuild
      (site (run poolStep (generatePagesAsyncThrottled [pageA; pageB; pageC] foregroundWorld)
               [EvGenerated 1; EvGenerated 0; EvGenerated 0]).1).
Proof.
  destruct (generatePagesAsyncThrottled_unmarks [pageA; pageB; pageC] foregroundWorld
              [EvGenerated 1; EvGenerated 0; EvGenerated 0]) as (_ & _ & _ & Hclear).
  - unfold clockOk. simpl. lia.
  - apply (Hclear pool_resolves_true pageA). left.
Defined.

Lemma runPageGenerationTasks_true_unmarks_witness :
  "/site/b"
  ∉ toRebuild
      (site (run runStep
               (runPageGenerationTasks
                  [mkTask Sequential [pageA]; mkTask Async [pageB]] foregroundWorld)
               [EvGenerated 0; EvGenerated 0]).1).
Proof.
  destruct (runPageGenerationTasks_true_unmarks
              [mkTask Sequential [pageA]; mkTask Async [pageB]] foregroundWorld
              [EvGenerated 0; EvGenerated 0]) as [[_ Hclear] _].
  - unfold clockOk. simpl. lia.
  - apply (Hclear eq_refl (mkTask Async [pageB]) pageB).
    + right. left.
    + left.
Defined.

Lemma runPageGenerationTasks_keeps_other_marks_witness :
  "/site/d"
  ∈ toRebuild
      (site (run runStep (runPageGenerationTasks [mkTask Async [pageA]] backgroundWorld)
               [EvGenerated 0; EvSiteDataWritten 0]).1).
Proof.
  apply (runPageGenerationTasks_keeps_other_marks [mkTask Async [pageA]] backgroundWorld
           [EvGenerated 0; EvSiteDataWritten 0] "/site/d").
  - simpl. set_solver.
  - intros task page Htask Hpage. apply list_elem_of_singleton in Htask as ->.
    apply list_elem_of_singleton in Hpage as ->. discriminate.
Defined.

Lemma regenerateAffectedPages_marks_until_visited_witness :
  (changeCurrentPage "guide"
     (site (regenerateAffectedPages ["/site/guide.md"] (exampleWorld lazySite)).1)).1.2
  = true.
Proof.
  destruct (regenerateAffectedPages_marks_until_visited ["/site/guide.md"]
              (exampleWorld lazySite) (examplePage "guide" VUndefined) "guide" [])
    as [_ Hvisit].
  - discriminate.
  - right. left.
  - reflexivity.
  - simpl. apply not_elem_of_nil.
  - reflexivity.
  - exact Hvisit.
Defined.

(** C5 at a configuration in which no two entries have the same [src] and
    one of the paths is [__proto__]: the path gets no addressable page. *)
Theorem collectAddressablePages_proto_path :
  NoDup (entry_src <$> pagesFromSrc (siteConfig protoSite))
  ∧ "__proto__" ∈ entry_src <$> pagesFromSrc (siteConfig protoSite)
  ∧ collectAddressablePages protoSite
    = inr [mkPageEntry "a.md" {["title" := VStr "T"]};
           mkPageEntry "b.md" {["title" := VStr "T"]}]
  ∧ isFilepathAPage "/site/__proto__" protoSite = true.
Proof.
  split; [|split; [|split]]; [| | |vm_compute; reflexivity].
  - vm_compute. repeat constructor; intros Hin;
      repeat (apply elem_of_cons in Hin as [Heq|Hin]; [discriminate|]);
      by apply elem_of_nil in Hin.
  - vm_compute. right. left.
  - unfold collectAddressablePages. rewrite decide_False by (vm_compute; lia).
    reflexivity.
Qed.
